(** * usefuls.js: browser-side helpers, embedded and verified

    A shallow embedding of [info-actions/site/common/js/usefuls.js]: the
    query codec ([queryParam], [params2query]), [arrayOfNodesWith],
    [preloadScript], [vimeoAutoPlay] and [watchIntersection].

    - JavaScript strings are sequences of UTF-16 code units.
    - JavaScript values are the inductive type [value].  A number is given
      by the decimal [m * 10^e], in normal form, that number-to-string
      conversion prints for it (the shortest one that reads back as the same
      double).  A numeral that [JSON.parse] reads stands for the decimal it
      writes: the rounding of a numeral that is not the shortest one of its
      double, the infinities, NaN and the sign of zero are not represented.
    - The object that [queryParam] fills is an ordinary object: a finite
      map of its own properties together with its prototype, which the
      setter of [__proto__] can replace and through which a lookup goes on
      when the object has no own property of the name.  The built-in
      prototypes are as ECMA-262 makes them; what a lookup finds in them is
      named, not computed.  Objects inside JSON values are association lists
      in property order (the place that JavaScript gives integer-like keys
      in that order is not represented).
    - Exceptions are explicit: a function that can throw returns a [result].
    - The platform functions the module calls ([String.prototype.split],
      [Array.prototype.join], [decodeURIComponent], [encodeURIComponent],
      [JSON.parse], [JSON.stringify], number-to-string conversion) are
      written out after ECMA-262 and ECMA-404, so that every definition
      evaluates on concrete inputs.
    - The DOM, event listeners, promises and observers are an explicit
      [world] threaded through the functions that touch them, with a log of
      the effects in the order they happen.  A function handed in by the
      caller is opaque: calling it is an entry of the log, and it returns.
    - The other functions of the file are embedded in the same way:
      [getNextData] reads a page given by its elements and by
      [window.__NEXT_DATA__]; [insertVimeoBox] works on the DOM as a tree
      (module [Dom]); [asap], [hostReactAppReady], [mediaMatcher],
      [setYMTarget] and [copyToClipboard] run in a world with the ready
      state, the layout, the media queries, the timers and the clipboard
      (module [Events]).  The global [ym] is there when a click comes, and
      returns. *)

From Stdlib Require Import ZArith NArith Ascii String Lia.
From stdpp Require Import base option list gmap.

Set Warnings "-register-all".
Open Scope N_scope.

(** ** Strings *)

(** A JavaScript string: UTF-16 code units, each below [65536]. *)
Abbreviation jsstring := (list N) (only parsing).

Definition ch (a : ascii) : N := N_of_ascii a.
Arguments ch : simpl never.

Fixpoint str (s : string) : list N :=
  match s with
  | EmptyString => []
  | String a r => ch a :: str r
  end.
Arguments str _%_string.

(** The code unit of the double quote. *)
Definition dquote : N := 34.

Definition code_unit (c : N) : Prop := c < 65536.

(** ** Exceptions *)

Inductive exn : Type :=
| Error (message : jsstring)
| TypeError
| SyntaxError
| URIError.

Inductive result (A : Type) : Type :=
| Ok (a : A)
| Throw (e : exn).
Arguments Ok {A} a.
Arguments Throw {A} e.

#[global] Instance result_ret : MRet result := fun _ a => Ok a.
#[global] Instance result_bind : MBind result := fun _ _ f r =>
  match r with
  | Ok a => f a
  | Throw e => Throw e
  end.
#[global] Instance result_fmap : FMap result := fun _ _ f r =>
  match r with
  | Ok a => Ok (f a)
  | Throw e => Throw e
  end.

Definition or_throw {A} (e : exn) (o : option A) : result A :=
  match o with
  | Some a => Ok a
  | None => Throw e
  end.

(** ** [String.prototype.split] with a one-character separator

    Every occurrence of the separator cuts; the empty string splits into one
    empty piece. *)
Fixpoint split_on (sep : N) (s : jsstring) : list jsstring :=
  match s with
  | [] => [[]]
  | c :: r =>
      if c =? sep then [] :: split_on sep r
      else match split_on sep r with
           | [] => [[c]]
           | w :: ws => (c :: w) :: ws
           end
  end.

(** [Array.prototype.join] with a one-character separator. *)
Fixpoint join_with (sep : N) (parts : list jsstring) : jsstring :=
  match parts with
  | [] => []
  | [w] => w
  | w :: ws => w ++ sep :: join_with sep ws
  end.

(** ** Percent-decoding: [decodeURIComponent] (ECMA-262, Decode) *)

Definition hex_val (c : N) : option N :=
  if (48 <=? c) && (c <=? 57) then Some (c - 48)
  else if (65 <=? c) && (c <=? 70) then Some (c - 55)
  else if (97 <=? c) && (c <=? 102) then Some (c - 87)
  else None.

(** A decoded position: a code unit copied as it is, or the octet of a
    [%XX] escape. *)
Inductive token : Type :=
| Lit (c : N)
| Oct (b : N).

Fixpoint unescape (s : jsstring) : option (list token) :=
  match s with
  | [] => Some []
  | c :: r =>
      if c =? ch "%" then
        match r with
        | h1 :: h2 :: r' =>
            a ← hex_val h1; b ← hex_val h2; ts ← unescape r';
            Some (Oct (16 * a + b) :: ts)
        | _ => None
        end
      else ts ← unescape r; Some (Lit c :: ts)
  end.

Definition is_cont (b : N) : bool := (128 <=? b) && (b <=? 191).
Definition is_surrogate (c : N) : bool := (55296 <=? c) && (c <=? 57343).
Definition is_lead (c : N) : bool := (55296 <=? c) && (c <=? 56319).
Definition is_trail (c : N) : bool := (56320 <=? c) && (c <=? 57343).

(** UTF16EncodeCodePoint. *)
Definition utf16_units (cp : N) : jsstring :=
  if cp <? 65536 then [cp]
  else [55296 + (cp - 65536) / 1024; 56320 + (cp - 65536) mod 1024].

(** The octets of the escapes must be well-formed UTF-8: a lead octet
    announces one to three continuation octets, each of them an escape, and
    the code point they carry is neither over-long, nor a surrogate, nor
    above U+10FFFF. *)
Fixpoint utf8_decode (ts : list token) : option jsstring :=
  match ts with
  | [] => Some []
  | Lit c :: r => cons c <$> utf8_decode r
  | Oct b :: r =>
      if b <? 128 then cons b <$> utf8_decode r
      else if b <? 192 then None
      else if b <? 224 then
        match r with
        | Oct b2 :: r' =>
            let cp := (b - 192) * 64 + (b2 - 128) in
            if is_cont b2 && (128 <=? cp)
            then app (utf16_units cp) <$> utf8_decode r'
            else None
        | _ => None
        end
      else if b <? 240 then
        match r with
        | Oct b2 :: Oct b3 :: r' =>
            let cp := (b - 224) * 4096 + (b2 - 128) * 64 + (b3 - 128) in
            if is_cont b2 && is_cont b3 && (2048 <=? cp) && negb (is_surrogate cp)
            then app (utf16_units cp) <$> utf8_decode r'
            else None
        | _ => None
        end
      else if b <? 248 then
        match r with
        | Oct b2 :: Oct b3 :: Oct b4 :: r' =>
            let cp := (b - 240) * 262144 + (b2 - 128) * 4096
                      + (b3 - 128) * 64 + (b4 - 128) in
            if is_cont b2 && is_cont b3 && is_cont b4
               && (65536 <=? cp) && (cp <=? 1114111)
            then app (utf16_units cp) <$> utf8_decode r'
            else None
        | _ => None
        end
      else None
  end.

Definition decode (s : jsstring) : option jsstring :=
  unescape s ≫= utf8_decode.

Definition decodeURIComponent (s : jsstring) : result jsstring :=
  or_throw URIError (decode s).

(** ** Values *)

(** A number [mantissa * 10^exponent].  In normal form the mantissa of a
    non-zero number is not a multiple of ten, and zero is [Num 0 0]. *)
Record number : Type := Num { mantissa : Z; exponent : Z }.

Inductive value : Type :=
| VUndefined
| VNull
| VBool (b : bool)
| VNum (n : number)
| VStr (s : jsstring)
| VArr (items : list value)
| VObj (props : list (jsstring * value)).

(** *** Decimal digits *)

Definition is_digit (c : N) : bool := (48 <=? c) && (c <=? 57).

(** The value of a most-significant-first list of digits. *)
Definition digits_value (ds : list N) : N :=
  fold_left (fun acc d => 10 * acc + d) ds 0.

Fixpoint strip_trailing_zeros (ds : list N) : list N :=
  match ds with
  | [] => []
  | d :: r =>
      match strip_trailing_zeros r with
      | [] => if d =? 0 then [] else [d]
      | r' => d :: r'
      end
  end.

(** The number whose digits, sign and exponent of the last digit are given. *)
Definition make_number (neg : bool) (ds : list N) (e : Z) : number :=
  let ds' := strip_trailing_zeros ds in
  let m := Z.of_N (digits_value ds') in
  if (m =? 0)%Z then Num 0 0
  else Num (if neg then (- m)%Z else m)
           (e + Z.of_nat (length ds - length ds'))%Z.

Fixpoint digits_of_fuel (fuel : nat) (n : N) : list N :=
  match fuel with
  | O => []
  | S fuel => if n <? 10 then [n] else digits_of_fuel fuel (n / 10) ++ [n mod 10]
  end.

(** The decimal digits of [n], most significant first; [0] has the digit 0. *)
Definition digits_of (n : N) : list N := digits_of_fuel (S (N.to_nat (N.log2 n))) n.

Definition digit_chars (ds : list N) : jsstring := map (N.add 48) ds.

(** *** Number::toString (ECMA-262, radix 10) *)

(** The text of a positive number with the digits [ds] whose decimal point
    stands after [n] of them (before them, for [n <= 0]). *)
Definition digits_to_string (ds : list N) (n : Z) : jsstring :=
  let cs := digit_chars ds in
  let k := Z.of_nat (length ds) in
  if (k <=? n)%Z && (n <=? 21)%Z then
    cs ++ replicate (Z.to_nat (n - k)) (ch "0")
  else if (0 <? n)%Z && (n <=? 21)%Z then
    take (Z.to_nat n) cs ++ ch "." :: drop (Z.to_nat n) cs
  else if (-6 <? n)%Z && (n <=? 0)%Z then
    str "0." ++ replicate (Z.to_nat (- n)) (ch "0") ++ cs
  else
    let e := (n - 1)%Z in
    let es := (if (e <? 0)%Z then ch "-" else ch "+")
              :: digit_chars (digits_of (Z.abs_N e)) in
    match cs with
    | [d] => d :: ch "e" :: es
    | d :: r => d :: ch "." :: r ++ ch "e" :: es
    | [] => []
    end.

Definition number_to_string (x : number) : jsstring :=
  let m := mantissa x in
  if (m =? 0)%Z then str "0"
  else
    let ds := digits_of (Z.abs_N m) in
    let body := digits_to_string ds (Z.of_nat (length ds) + exponent x) in
    if (m <? 0)%Z then ch "-" :: body else body.

(** ** [JSON.parse] (ECMA-404 grammar, on code units) *)

Definition is_ws (c : N) : bool :=
  (c =? 9) || (c =? 10) || (c =? 13) || (c =? 32).

Fixpoint skip_ws (s : jsstring) : jsstring :=
  match s with
  | c :: r => if is_ws c then skip_ws r else s
  | [] => []
  end.

Definition simple_escape (e : N) : option N :=
  if e =? dquote then Some (dquote)
  else if e =? ch "\" then Some (ch "\")
  else if e =? ch "/" then Some (ch "/")
  else if e =? ch "b" then Some 8
  else if e =? ch "f" then Some 12
  else if e =? ch "n" then Some 10
  else if e =? ch "r" then Some 13
  else if e =? ch "t" then Some 9
  else None.

(** The characters of a string literal after its opening quote, up to and
    including the closing quote. *)
Fixpoint parse_chars (s : jsstring) : option (jsstring * jsstring) :=
  match s with
  | [] => None
  | c :: r =>
      if c =? dquote then Some ([], r)
      else if c =? ch "\" then
        match r with
        | [] => None
        | e :: r' =>
            if e =? ch "u" then
              match r' with
              | h1 :: h2 :: h3 :: h4 :: r'' =>
                  a ← hex_val h1; b ← hex_val h2;
                  c ← hex_val h3; d ← hex_val h4;
                  '(cs, rest) ← parse_chars r'';
                  Some (4096 * a + 256 * b + 16 * c + d :: cs, rest)
              | _ => None
              end
            else
              u ← simple_escape e;
              '(cs, rest) ← parse_chars r';
              Some (u :: cs, rest)
        end
      else if c <? 32 then None
      else '(cs, rest) ← parse_chars r; Some (c :: cs, rest)
  end.

Fixpoint take_digits (s : jsstring) : list N * jsstring :=
  match s with
  | c :: r =>
      if is_digit c then
        let '(ds, rest) := take_digits r in (c - 48 :: ds, rest)
      else ([], s)
  | [] => ([], [])
  end.

(** int: one digit, or several digits not starting with 0. *)
Definition parse_int_part (s : jsstring) : option (list N * jsstring) :=
  match take_digits s with
  | ([], _) => None
  | ([d], rest) => Some ([d], rest)
  | (d :: ds, rest) => if d =? 0 then None else Some (d :: ds, rest)
  end.

(** frac: nothing, or a point and at least one digit. *)
Definition parse_frac_part (s : jsstring) : option (list N * jsstring) :=
  match s with
  | c :: r =>
      if c =? ch "." then
        match take_digits r with
        | ([], _) => None
        | (ds, rest) => Some (ds, rest)
        end
      else Some ([], s)
  | [] => Some ([], [])
  end.

(** exp: nothing, or e/E, an optional sign and at least one digit. *)
Definition parse_exp_part (s : jsstring) : option (Z * jsstring) :=
  match s with
  | c :: r =>
      if (c =? ch "e") || (c =? ch "E") then
        let '(neg, r1) :=
          match r with
          | sg :: r' =>
              if sg =? ch "-" then (true, r')
              else if sg =? ch "+" then (false, r') else (false, r)
          | [] => (false, r)
          end in
        match take_digits r1 with
        | ([], _) => None
        | (ds, rest) =>
            let e := Z.of_N (digits_value ds) in
            Some (if neg then (- e)%Z else e, rest)
        end
      else Some (0%Z, s)
  | [] => Some (0%Z, [])
  end.

(** The digits, fraction and exponent of a number whose sign is read. *)
Definition parse_unsigned (neg : bool) (s : jsstring)
  : option (number * jsstring) :=
  '(ints, s2) ← parse_int_part s;
  '(fracs, s3) ← parse_frac_part s2;
  '(e, s4) ← parse_exp_part s3;
  Some (make_number neg (ints ++ fracs) (e - Z.of_nat (length fracs))%Z, s4).

Definition parse_number (s : jsstring) : option (number * jsstring) :=
  match s with
  | c :: r => if c =? ch "-" then parse_unsigned true r else parse_unsigned false s
  | [] => None
  end.

(** [s] starts with the literal [lit]: what follows it. *)
Fixpoint strip_prefix (lit s : jsstring) : option jsstring :=
  match lit, s with
  | [], _ => Some s
  | a :: lit', c :: s' => if a =? c then strip_prefix lit' s' else None
  | _ :: _, [] => None
  end.

(** Setting the property [k] of an object under construction in
    [JSON.parse]: an existing key keeps its place and gets the new value, a
    new key goes last. *)
Fixpoint obj_set (k : jsstring) (v : value) (o : list (jsstring * value))
  : list (jsstring * value) :=
  match o with
  | [] => [(k, v)]
  | (k', v') :: r =>
      if decide (k' = k) then (k, v) :: r else (k', v') :: obj_set k v r
  end.

(** Recursive descent.  Every call spends one unit of [fuel]; a text of
    [n] code units never needs more than [2 * n + 2] (see
    [parse_fuel_enough]). *)
Fixpoint parse_value (fuel : nat) (s : jsstring) : option (value * jsstring) :=
  match fuel with
  | O => None
  | S fuel =>
      match skip_ws s with
      | [] => None
      | c :: r =>
          if c =? dquote then
            '(cs, rest) ← parse_chars r; Some (VStr cs, rest)
          else if c =? ch "[" then
            match skip_ws r with
            | [] => None
            | c' :: r' =>
                if c' =? ch "]" then Some (VArr [], r')
                else '(vs, rest) ← parse_elements fuel r; Some (VArr vs, rest)
            end
          else if c =? ch "{" then
            match skip_ws r with
            | [] => None
            | c' :: r' =>
                if c' =? ch "}" then Some (VObj [], r')
                else '(ps, rest) ← parse_members fuel [] r; Some (VObj ps, rest)
            end
          else if c =? ch "t" then
            rest ← strip_prefix (str "rue") r; Some (VBool true, rest)
          else if c =? ch "f" then
            rest ← strip_prefix (str "alse") r; Some (VBool false, rest)
          else if c =? ch "n" then
            rest ← strip_prefix (str "ull") r; Some (VNull, rest)
          else
            '(n, rest) ← parse_number (c :: r); Some (VNum n, rest)
      end
  end
with parse_elements (fuel : nat) (s : jsstring)
  : option (list value * jsstring) :=
  match fuel with
  | O => None
  | S fuel =>
      '(v, r) ← parse_value fuel s;
      match skip_ws r with
      | [] => None
      | c :: r' =>
          if c =? ch "," then
            '(vs, rest) ← parse_elements fuel r'; Some (v :: vs, rest)
          else if c =? ch "]" then Some ([v], r')
          else None
      end
  end
with parse_members (fuel : nat) (acc : list (jsstring * value)) (s : jsstring)
  : option (list (jsstring * value) * jsstring) :=
  match fuel with
  | O => None
  | S fuel =>
      match skip_ws s with
      | [] => None
      | q :: r =>
          if q =? dquote then
            '(k, r1) ← parse_chars r;
            match skip_ws r1 with
            | [] => None
            | c :: r2 =>
                if c =? ch ":" then
                  '(v, r3) ← parse_value fuel r2;
                  let acc' := obj_set k v acc in
                  match skip_ws r3 with
                  | [] => None
                  | d :: r4 =>
                      if d =? ch "," then parse_members fuel acc' r4
                      else if d =? ch "}" then Some (acc', r4)
                      else None
                  end
                else None
            end
          else None
      end
  end.

Definition parse_json (text : jsstring) : option value :=
  '(v, rest) ← parse_value (2 * length text + 2) text;
  match skip_ws rest with
  | [] => Some v
  | _ :: _ => None
  end.

Definition JSON_parse (text : jsstring) : result value :=
  or_throw SyntaxError (parse_json text).

(** ** [JSON.stringify] (ECMA-262, SerializeJSONProperty, no gap) *)

Definition hex_lower (d : N) : N := if d <? 10 then 48 + d else 87 + d.
Definition hex_upper (d : N) : N := if d <? 10 then 48 + d else 55 + d.

(** UnicodeEscape: [\uXXXX] with lower-case digits. *)
Definition unicode_escape (c : N) : jsstring :=
  [ch "\"; ch "u"; hex_lower (c / 4096); hex_lower (c / 256 mod 16);
   hex_lower (c / 16 mod 16); hex_lower (c mod 16)].

Definition short_escape (c : N) : option N :=
  if c =? 8 then Some (ch "b")
  else if c =? 9 then Some (ch "t")
  else if c =? 10 then Some (ch "n")
  else if c =? 12 then Some (ch "f")
  else if c =? 13 then Some (ch "r")
  else if c =? dquote then Some (dquote)
  else if c =? ch "\" then Some (ch "\")
  else None.

(** The body of QuoteJSONString: control characters and unpaired
    surrogates are escaped, a surrogate pair is copied. *)
Fixpoint quote_chars (s : jsstring) : jsstring :=
  match s with
  | [] => []
  | c :: r =>
      match short_escape c with
      | Some e => ch "\" :: e :: quote_chars r
      | None =>
          if c <? 32 then unicode_escape c ++ quote_chars r
          else if is_lead c then
            match r with
            | c2 :: r' =>
                if is_trail c2 then c :: c2 :: quote_chars r'
                else unicode_escape c ++ quote_chars r
            | [] => unicode_escape c
            end
          else if is_trail c then unicode_escape c ++ quote_chars r
          else c :: quote_chars r
      end
  end.

Definition quote (s : jsstring) : jsstring :=
  dquote :: quote_chars s ++ [dquote].

(** [None] stands for the result [undefined]: such an element of an array
    is written [null], such a property of an object is left out. *)
Fixpoint serialize (v : value) : option jsstring :=
  match v with
  | VUndefined => None
  | VNull => Some (str "null")
  | VBool b => Some (if b then str "true" else str "false")
  | VNum n => Some (number_to_string n)
  | VStr s => Some (quote s)
  | VArr vs =>
      let fix items (l : list value) : list jsstring :=
        match l with
        | [] => []
        | x :: l' => default (str "null") (serialize x) :: items l'
        end in
      Some (ch "[" :: join_with (ch ",") (items vs) ++ [ch "]"])
  | VObj ps =>
      let fix members (l : list (jsstring * value)) : list jsstring :=
        match l with
        | [] => []
        | (k, x) :: l' =>
            match serialize x with
            | Some t => (quote k ++ ch ":" :: t) :: members l'
            | None => members l'
            end
        end in
      Some (ch "{" :: join_with (ch ",") (members ps) ++ [ch "}"])
  end.

Definition JSON_stringify (v : value) : option jsstring := serialize v.

(** ** Percent-encoding: [encodeURIComponent] (ECMA-262, Encode) *)

Definition is_alnum (c : N) : bool :=
  ((48 <=? c) && (c <=? 57)) || ((65 <=? c) && (c <=? 90))
  || ((97 <=? c) && (c <=? 122)).

(** uriUnescaped: letters, digits and the marks [- _ . ! ~ * ' ( )]. *)
Definition unreserved (c : N) : bool :=
  is_alnum c
  || existsb (N.eqb c)
       [ch "-"; ch "_"; ch "."; ch "!"; ch "~"; ch "*"; ch "'"; ch "("; ch ")"].

Definition pct (b : N) : jsstring :=
  [ch "%"; hex_upper (b / 16); hex_upper (b mod 16)].

(** The UTF-8 octets of a code point. *)
Definition utf8_octets (cp : N) : list N :=
  if cp <? 128 then [cp]
  else if cp <? 2048 then [192 + cp / 64; 128 + cp mod 64]
  else if cp <? 65536 then
    [224 + cp / 4096; 128 + cp / 64 mod 64; 128 + cp mod 64]
  else
    [240 + cp / 262144; 128 + cp / 4096 mod 64; 128 + cp / 64 mod 64;
     128 + cp mod 64].

Definition pct_utf8 (cp : N) : jsstring := concat (map pct (utf8_octets cp)).

(** [None] stands for the URIError raised at an unpaired surrogate. *)
Fixpoint encode (s : jsstring) : option jsstring :=
  match s with
  | [] => Some []
  | c :: r =>
      if unreserved c then cons c <$> encode r
      else if is_lead c then
        match r with
        | c2 :: r' =>
            if is_trail c2 then
              app (pct_utf8 (65536 + (c - 55296) * 1024 + (c2 - 56320)))
                <$> encode r'
            else None
        | [] => None
        end
      else if is_trail c then None
      else app (pct_utf8 c) <$> encode r
  end.

Definition encodeURIComponent (s : jsstring) : result jsstring :=
  or_throw URIError (encode s).

(** ** The query codec *)

(** *** The object that [queryParam] fills

    [const params = {}] makes an ordinary object: its own properties, and
    its [[Prototype]], which is %Object.prototype% to begin with and which an
    assignment to the key [__proto__] can replace.  The built-in prototypes
    are taken as ECMA-262 makes them: [__proto__] is an accessor property of
    %Object.prototype% and of no other built-in prototype, and every other
    property of theirs is a writable data property. *)
Inductive proto : Type :=
| ObjectPrototype
| NullPrototype
| ParsedPrototype (v : value).

Record object : Type := Object {
  properties : gmap (list N) value;
  prototype : proto
}.

(** [{}] *)
Definition empty_object : object := Object ∅ ObjectPrototype.

(** The own property [k] of [params], and its own keys. *)
#[global] Instance object_lookup : Lookup (list N) value object :=
  fun k params => properties params !! k.
#[global] Instance object_dom : Dom object (gset (list N)) :=
  fun params => dom (properties params).

Definition proto_key : jsstring := str "__proto__".

(** The first entry with the key [k] of the members of a parsed object
    (which [obj_set] keeps free of repeated keys). *)
Fixpoint obj_get (k : jsstring) (o : list (jsstring * value)) : option value :=
  match o with
  | [] => None
  | (k', v) :: r => if decide (k' = k) then Some v else obj_get k r
  end.

(** The index that a property key spells: a decimal numeral without a
    leading zero. *)
Definition array_index (k : jsstring) : option N :=
  match k with
  | [] => None
  | c :: r =>
      if forallb is_digit k
         && (negb (c =? ch "0") || match r with [] => true | _ :: _ => false end)
      then Some (digits_value (map (fun d => d - 48) k))
      else None
  end.

(** The own property [k] of a value that [JSON.parse] returned: a member of
    an object; an element of an array, or its length. *)
Definition own_property (v : value) (k : jsstring) : option value :=
  match v with
  | VObj props => obj_get k props
  | VArr items =>
      if decide (k = str "length") then
        Some (VNum (make_number false (digits_of (N.of_nat (length items))) 0))
      else
        i ← array_index k;
        if i <? N.of_nat (length items) then items !! N.to_nat i else None
  | _ => None
  end.

(** Whether an assignment to [params.__proto__] reaches the setter of
    %Object.prototype%: [__proto__] is not an own property of [params], and
    the prototype chain of [params] leads to %Object.prototype% past no
    object with a property of that name ([JSON.parse] makes [__proto__] an
    own data property of the object it builds). *)
Definition reaches_setter (params : object) : bool :=
  match properties params !! proto_key, prototype params with
  | Some _, _ => false
  | None, ObjectPrototype => true
  | None, NullPrototype => false
  | None, ParsedPrototype v => bool_decide (own_property v proto_key = None)
  end.

(** [params[key] = v] (ECMA-262, OrdinarySet).  The setter of [__proto__]
    makes an object or [null] the prototype of [params] and drops every
    other value; in every other case the assignment makes or updates the own
    property [key]. *)
Definition set_property (params : object) (key : jsstring) (v : value)
  : object :=
  if bool_decide (key = proto_key) && reaches_setter params then
    match v with
    | VNull => Object (properties params) NullPrototype
    | VObj _ | VArr _ => Object (properties params) (ParsedPrototype v)
    | VUndefined | VBool _ | VNum _ | VStr _ => params
    end
  else Object (<[key := v]> (properties params)) (prototype params).

(** A built-in prototype object: %Object.prototype%, %Array.prototype%. *)
Inductive builtin : Type := ObjectProto | ArrayProto.

(** What [queryParam] returns:
    - [AllParams params]: the object [params];
    - [OneParam v]: a value found in a data property of [params] or of a
      parsed object on its prototype chain, or [undefined] where the chain
      ends in [null];
    - [ThePrototype p]: what the getter of [__proto__] returns, the
      prototype of [params];
    - [Inherited from name]: whatever the built-in prototype [from] gives
      for [name] (its own property or one further up its chain; [undefined]
      when there is none). *)
Inductive query_result : Type :=
| AllParams (params : object)
| OneParam (v : value)
| ThePrototype (p : proto)
| Inherited (from : builtin) (name : jsstring).

(** The lookup of [p] from the built-in prototype [from] on, for the
    receiver [params]. *)
Definition inherited (from : builtin) (params : object) (p : jsstring)
  : query_result :=
  if bool_decide (p = proto_key) then ThePrototype (prototype params)
  else Inherited from p.

(** [params[p]] (ECMA-262, OrdinaryGet). *)
Definition get_property (params : object) (p : jsstring) : query_result :=
  match properties params !! p with
  | Some v => OneParam v
  | None =>
      match prototype params with
      | ObjectPrototype => inherited ObjectProto params p
      | NullPrototype => OneParam VUndefined
      | ParsedPrototype v =>
          match own_property v p with
          | Some x => OneParam x
          | None =>
              inherited (match v with VArr _ => ArrayProto | _ => ObjectProto end)
                params p
          end
      end
  end.

(** *** [queryParam] *)

(** The body of the [forEach] callback of [queryParam] on one pair [kv],
    as a transformer of [params]:
<<
    if (!kv) return;
    const [key, value] = kv.split('=');
    try { params[key] = JSON.parse(decodeURIComponent(value)); }
    catch { params[key] = decodeURIComponent(value); }
>>
    A missing [value] is [undefined], which [decodeURIComponent] converts to
    the string "undefined".  An exception of the [catch] block leaves the
    function. *)
Definition pair_key (kv : jsstring) : jsstring :=
  match split_on (ch "=") kv with
  | key :: _ => key
  | [] => []
  end.

Definition pair_text (kv : jsstring) : jsstring :=
  match split_on (ch "=") kv with
  | _ :: value :: _ => value
  | _ => str "undefined"
  end.

Definition decode_value (text : jsstring) : result value :=
  match decodeURIComponent text ≫= JSON_parse with
  | Ok v => Ok v
  | Throw _ => VStr <$> decodeURIComponent text
  end.

Definition set_pair (params : object) (kv : jsstring) : result object :=
  match kv with
  | [] => Ok params
  | _ :: _ =>
      v ← decode_value (pair_text kv); Ok (set_property params (pair_key kv) v)
  end.

Fixpoint for_each_pair (params : object) (kvs : list jsstring)
  : result object :=
  match kvs with
  | [] => Ok params
  | kv :: rest => params' ← set_pair params kv; for_each_pair params' rest
  end.

(** [source.split('?')[1] || ''] *)
Definition query_string (source : jsstring) : jsstring :=
  match split_on (ch "?") source with
  | _ :: q :: _ => q
  | _ => []
  end.

Definition parse_query (source : jsstring) : result object :=
  for_each_pair empty_object (split_on (ch "&") (query_string source)).

(** [queryParam(p, source)]; [p = None] is a call without [p]. *)
Definition queryParam (p : option jsstring) (source : jsstring)
  : result query_result :=
  params ← parse_query source;
  match p with
  | Some (c :: k) => Ok (get_property params (c :: k))
  | _ => Ok (AllParams params)
  end.

(** The string that [encodeURIComponent] receives for the value [v]:
    [typeof v === 'object' ? JSON.stringify(v) : v], converted to a string. *)
Definition param_text (v : value) : jsstring :=
  match v with
  | VUndefined => str "undefined"
  | VBool b => if b then str "true" else str "false"
  | VNum n => number_to_string n
  | VStr s => s
  | VNull | VArr _ | VObj _ => default (str "undefined") (JSON_stringify v)
  end.

Definition param_pair (kv : jsstring * value) : result jsstring :=
  t ← encodeURIComponent (param_text kv.2); Ok (kv.1 ++ ch "=" :: t).

Fixpoint map_result {A B} (f : A -> result B) (l : list A) : result (list B) :=
  match l with
  | [] => Ok []
  | a :: l' => b ← f a; bs ← map_result f l'; Ok (b :: bs)
  end.

(** [params2query(p)], on the entries of [p] in property order. *)
Definition params2query (p : list (jsstring * value)) : result jsstring :=
  join_with (ch "&") <$> map_result param_pair p.
(** ** DOM nodes and the inputs of [arrayOfNodesWith] *)

Abbreviation node := nat (only parsing).

(** The page as the functions read it. *)
Record document : Type := Document {
  querySelectorAll : list N -> result (list node);
  vimeoVid : node -> option (list N);      (* [el.dataset.vimeoVid] *)
  parentElement : node -> option node
}.

(** What a caller can hand to [arrayOfNodesWith]: primitives, arrays, nodes,
    live collections, objects with a truthy [jquery] property whose
    [toArray()] gives their nodes, and any other object, given by the text
    that its conversion to a string produces ([[object Object]] for a plain
    one).  Values whose conversion to a string throws (symbols, objects
    without a usable [toString]) are not represented. *)
Inductive jsany : Type :=
| AUndefined
| ANull
| ABool (b : bool)
| ANum (n : number)
| AStr (s : list N)
| AArr (items : list jsany)
| AJQuery (nodes : list node)
| ANode (n : node)
| ANodeList (nodes : list node)
| AHTMLCollection (nodes : list node)
| AObject (text : list N).

(** "arrayOfNodesWith: Неподдерживаемый тип параметра: " in code units. *)
Definition unsupported_prefix : list N :=
  str "arrayOfNodesWith: "
  ++ [1053; 1077; 1087; 1086; 1076; 1076; 1077; 1088; 1078; 1080; 1074; 1072;
      1077; 1084; 1099; 1081; 32; 1090; 1080; 1087; 32; 1087; 1072; 1088;
      1072; 1084; 1077; 1090; 1088; 1072]
  ++ str ": ".

(** The text of [what] inside the template literal, for the inputs that
    reach the [throw]. *)
Definition template_text (what : jsany) : list N :=
  match what with
  | AUndefined => str "undefined"
  | ANull => str "null"
  | ABool b => if b then str "true" else str "false"
  | ANum n => number_to_string n
  | AObject text => text
  | _ => []
  end.

Section Page.
Variable doc : document.

Fixpoint arrayOfNodesWith (what : jsany) : result (list node) :=
  match what with
  | AJQuery nodes => Ok nodes
  | AArr items =>
      let fix flat_map (l : list jsany) : result (list node) :=
        match l with
        | [] => Ok []
        | item :: l' =>
            ns ← arrayOfNodesWith item; rest ← flat_map l'; Ok (ns ++ rest)
        end in
      flat_map items
  | ANode n => Ok [n]
  | ANodeList nodes | AHTMLCollection nodes => Ok nodes
  | AStr s => querySelectorAll doc s
  | AUndefined | ANull | ABool _ | ANum _ | AObject _ =>
      Throw (Error (unsupported_prefix ++ template_text what))
  end.
End Page.

(** ** The browser: elements, listeners, promises, observers

    Closures the module registers are kept as data: the [load] listener of
    [preloadScript], the rest of [vimeoAutoPlay] after its [await], and the
    callbacks of the two intersection observers.  A function handed in by the
    caller is an opaque [callback]; calling it is recorded in the log. *)

Abbreviation promise := nat (only parsing).
Abbreviation observer := nat (only parsing).
Abbreviation callback := nat (only parsing).

Inductive arg : Type :=
| ArgNode (n : node)
| ArgObserver (io : observer).

Inductive effect : Type :=
| CreateElement (tag : list N) (el : node)
| SetSrc (el : node) (url : list N)
| AddEventListener (el : node) (type : list N)
| HeadAppend (el : node)
| Remove (el : node)
| Call (f : callback) (args : list arg)
| Resolve (p : promise)
| Reject (p : promise) (e : exn)
| NewObserver (io : observer) (init : gmap (list N) value)
| Observe (io : observer) (target : node)
| NewPlayer (target : node) (id : option (list N))
| PlayerOn (target : node) (event : list N)
| Play (target : node)
| Pause (target : node)
| ClassListAdd (el : node) (class : list N).

Inductive listener : Type :=
| ScriptLoaded (scriptEl : node) (cb : option callback) (resolve : promise).

Inductive continuation : Type :=
| VimeoObserve (vboxes : list node) (observerOptions : gmap (list N) value)
               (ret : promise).

Inductive io_callback : Type :=
| VimeoToggle
| Watch (yesHandler noHandler : option callback).

Record world : Type := World {
  next_id : nat;
  head : list node;
  listeners : list (node * list N * listener);
  settled : list promise;
  reactions : list (promise * continuation);
  observers : list (observer * io_callback);
  players : list node;
  log : list effect
}.

Definition initial : world := World 0 [] [] [] [] [] [] [].

(** Computations that change the world and may throw. *)
Definition M (A : Type) : Type := world -> result A * world.

Definition ret {A} (a : A) : M A := fun w => (Ok a, w).
Definition throw {A} (e : exn) : M A := fun w => (Throw e, w).
Definition bind {A B} (c : M A) (k : A -> M B) : M B := fun w =>
  match c w with
  | (Ok a, w') => k a w'
  | (Throw e, w') => (Throw e, w')
  end.

Notation "'do' x <- c ; k" := (bind c (fun x => k))
  (at level 10, x name, c at level 100, k at level 200).
Notation "c ;; k" := (bind c (fun _ => k))
  (at level 100, k at level 200, right associativity).

Definition emit (e : effect) : M unit := fun w =>
  (Ok tt, World (next_id w) (head w) (listeners w) (settled w) (reactions w)
             (observers w) (players w) (log w ++ [e])).

Definition fresh : M nat := fun w =>
  (Ok (next_id w),
   World (S (next_id w)) (head w) (listeners w) (settled w) (reactions w)
     (observers w) (players w) (log w)).

Definition set_head (f : list node -> list node) : M unit := fun w =>
  (Ok tt, World (next_id w) (f (head w)) (listeners w) (settled w)
             (reactions w) (observers w) (players w) (log w)).

Definition add_listener (el : node) (type : list N) (l : listener) : M unit :=
  fun w =>
  (Ok tt, World (next_id w) (head w) (listeners w ++ [(el, type, l)])
             (settled w) (reactions w) (observers w) (players w) (log w)).

Definition add_reaction (p : promise) (k : continuation) : M unit := fun w =>
  (Ok tt, World (next_id w) (head w) (listeners w) (settled w)
             (reactions w ++ [(p, k)]) (observers w) (players w) (log w)).

Definition add_observer (io : observer) (cb : io_callback) : M unit := fun w =>
  (Ok tt, World (next_id w) (head w) (listeners w) (settled w) (reactions w)
             (observers w ++ [(io, cb)]) (players w) (log w)).

Definition add_player (target : node) : M unit := fun w =>
  (Ok tt, World (next_id w) (head w) (listeners w) (settled w) (reactions w)
             (observers w) (players w ++ [target]) (log w)).

Definition mark_settled (p : promise) : M unit := fun w =>
  (Ok tt, World (next_id w) (head w) (listeners w) (p :: settled w)
             (reactions w) (observers w) (players w) (log w)).

Definition get {A} (f : world -> A) : M A := fun w => (Ok (f w), w).

Fixpoint for_each {A} (f : A -> M unit) (l : list A) : M unit :=
  match l with
  | [] => ret tt
  | a :: l' => f a ;; for_each f l'
  end.

Definition is_settled (p : promise) (w : world) : bool :=
  bool_decide (p ∈ settled w).

(** A promise settles once; later calls of its [resolve] do nothing. *)
Definition settle (p : promise) (e : effect) : M unit :=
  do done <- get (is_settled p);
  if (done : bool) then ret tt else mark_settled p ;; emit e.

(** [new IntersectionObserver(callback, init)] *)
Definition new_observer (cb : io_callback) (init : gmap (list N) value)
  : M observer :=
  do io <- fresh; add_observer io cb ;; emit (NewObserver io init) ;; ret io.

Definition observe (io : observer) (target : node) : M unit :=
  emit (Observe io target).

(** [{threshold: t, ...options}] *)
Definition with_threshold (t : number) (options : gmap (list N) value)
  : gmap (list N) value :=
  options ∪ {[ str "threshold" := VNum t ]}.

(** The part of [vimeoAutoPlay] after [await preloadScript(...)]. *)
Definition run_continuation (k : continuation) : M unit :=
  match k with
  | VimeoObserve vboxes observerOptions ret_promise =>
      do io <- new_observer VimeoToggle
                 (with_threshold (Num 33 (-2)) observerOptions);
      for_each (observe io) vboxes ;;
      settle ret_promise (Resolve ret_promise)
  end.

(** [resolve()] of a promise: settle it and run what awaits it. *)
Definition resolve (p : promise) : M unit :=
  do done <- get (is_settled p);
  if (done : bool) then ret tt
  else
    settle p (Resolve p) ;;
    do ks <- get (fun w => filter (fun pk => pk.1 = p) (reactions w));
    for_each (fun pk => run_continuation pk.2) ks.

(** The listener of [preloadScript]:
    [scriptEl.remove(); cb?.(); resolve();] *)
Definition run_listener (l : listener) : M unit :=
  match l with
  | ScriptLoaded scriptEl cb p =>
      set_head (filter (fun n => n ≠ scriptEl)) ;;
      emit (Remove scriptEl) ;;
      match cb with
      | Some f => emit (Call f [])
      | None => ret tt
      end ;;
      resolve p
  end.

(** The browser dispatches an event of [type] at [target]. *)
Definition dispatch (target : node) (type : list N) : M unit :=
  do ls <- get (fun w =>
             filter (fun l => l.1.1 = target /\ l.1.2 = type) (listeners w));
  for_each (fun l => run_listener l.2) ls.

Definition preloadScript (url : list N) (cb : option callback) : M promise :=
  do p <- fresh;
  do scriptEl <- fresh;
  emit (CreateElement (str "script") scriptEl) ;;
  emit (SetSrc scriptEl url) ;;
  add_listener scriptEl (str "load") (ScriptLoaded scriptEl cb p) ;;
  emit (AddEventListener scriptEl (str "load")) ;;
  set_head (fun h => filter (fun n => n ≠ scriptEl) h ++ [scriptEl]) ;;
  emit (HeadAppend scriptEl) ;;
  ret p.

Definition vimeo_selector : list N := str ".vimeo-video-box [data-vimeo-vid]".
Definition vimeo_script : list N := str "https://player.vimeo.com/api/player.js".

Section Browser.
Variable doc : document.

(** The observer callback of [vimeoAutoPlay] on one entry. *)
Definition vimeo_entry (target : node) (isIntersecting : bool) : M unit :=
  do has_player <- get (fun w => bool_decide (target ∈ players w));
  if isIntersecting then
    (if (has_player : bool) then ret tt
     else
       add_player target ;;
       emit (NewPlayer target (vimeoVid doc target)) ;;
       emit (PlayerOn target (str "play"))) ;;
    emit (Play target)
  else
    if (has_player : bool) then emit (Pause target) else ret tt.

(** The observer callback of [watchIntersection] on one entry. *)
Definition watch_entry (io : observer) (yesHandler noHandler : option callback)
    (target : node) (isIntersecting : bool) : M unit :=
  match (if isIntersecting then yesHandler else noHandler) with
  | Some f => emit (Call f [ArgNode target; ArgObserver io])
  | None => ret tt
  end.

(** The browser reports [entries] to the observer [io]. *)
Definition deliver (io : observer) (entries : list (node * bool)) : M unit :=
  do cbs <- get (fun w => filter (fun oc => oc.1 = io) (observers w));
  for_each (fun oc =>
    match oc.2 with
    | VimeoToggle => for_each (fun e => vimeo_entry e.1 e.2) entries
    | Watch yes no => for_each (fun e => watch_entry io yes no e.1 e.2) entries
    end) cbs.

(** The [play] event of the player of [target]:
    [this.element.parentElement.classList.add('playback')]. *)
Definition player_played (target : node) : M unit :=
  do has_player <- get (fun w => bool_decide (target ∈ players w));
  if (has_player : bool) then
    match parentElement doc target with
    | Some parent => emit (ClassListAdd parent (str "playback"))
    | None => throw TypeError
    end
  else ret tt.

(** [vimeoAutoPlay(observerOptions)]: the returned promise. *)
Definition vimeoAutoPlay (observerOptions : option (gmap (list N) value))
  : M promise :=
  do ret_promise <- fresh;
  match querySelectorAll doc vimeo_selector with
  | Throw e => settle ret_promise (Reject ret_promise e) ;; ret ret_promise
  | Ok [] => settle ret_promise (Resolve ret_promise) ;; ret ret_promise
  | Ok vboxes =>
      do p <- preloadScript vimeo_script None;
      add_reaction p
        (VimeoObserve vboxes (default ∅ observerOptions) ret_promise) ;;
      ret ret_promise
  end.

(** [watchIntersection(targets, options, yesHandler, noHandler)] *)
Definition watchIntersection (targets : jsany)
    (options : option (gmap (list N) value))
    (yesHandler noHandler : option callback) : M observer :=
  do io <- new_observer (Watch yesHandler noHandler)
             (with_threshold (Num 1 0) (default ∅ options));
  match arrayOfNodesWith doc targets with
  | Ok nodes => for_each (observe io) nodes ;; ret io
  | Throw e => throw e
  end.
End Browser.

(** ** Vocabulary of the statements *)


(** A code unit that is none of the separators of a query string. *)
Definition plain (c : N) : Prop := c ≠ ch "&" /\ c ≠ ch "=" /\ c ≠ ch "?".

(** Identifiers in use are below [next_id]: those of settled promises, of
    the elements and promises of listeners, of awaited and returned promises,
    and of observers. *)
Definition world_ok (w : world) : Prop :=
  Forall (fun p => (p < next_id w)%nat) (settled w)
  /\ Forall (fun l => match l.2 with
                      | ScriptLoaded el _ p =>
                          (l.1.1 < next_id w /\ el < next_id w
                           /\ p < next_id w)%nat
                      end) (listeners w)
  /\ Forall (fun r => match r.2 with
                      | VimeoObserve _ _ p =>
                          (r.1 < next_id w /\ p < next_id w)%nat
                      end) (reactions w)
  /\ Forall (fun oc => (oc.1 < next_id w)%nat) (observers w).

(** What the browser can do on its own. *)
Inductive browser_step : Type :=
| Dispatch (target : node) (type : list N)
| Deliver (io : observer) (entries : list (node * bool))
| Played (target : node).

Definition step (doc : document) (s : browser_step) (w : world) : world :=
  match s with
  | Dispatch target type => (dispatch target type w).2
  | Deliver io entries => (deliver doc io entries w).2
  | Played target => (player_played doc target w).2
  end.

Definition run (doc : document) (steps : list browser_step) (w : world)
  : world :=
  fold_left (fun w s => step doc s w) steps w.

(** The handler calls that a batch of entries asks for: the enter handler of
    an intersecting entry, the exit handler of any other, nothing where the
    handler is absent. *)
Definition entry_calls (io : observer) (yesHandler noHandler : option callback)
    (entries : list (node * bool)) : list effect :=
  flat_map (fun e : node * bool =>
    match (if e.2 then yesHandler else noHandler) with
    | Some f => [Call f [ArgNode e.1; ArgObserver io]]
    | None => []
    end) entries.

(** The listeners and continuations are [L] and [R], and [p] is pending. *)
Definition pending (L : list (node * list N * listener))
    (R : list (promise * continuation)) (p : promise) (w : world) : Prop :=
  listeners w = L /\ reactions w = R /\ p ∉ settled w.

(** A computation that leaves all that as it is. *)
Definition keeps_pending (L : list (node * list N * listener))
    (R : list (promise * continuation)) (p : promise) {A} (c : M A) : Prop :=
  forall w, pending L R p w -> pending L R p (c w).2.

(** A string that [encodeURIComponent] accepts: code units below 65536 and
    every surrogate in a lead-trail pair. *)
Fixpoint well_formed_utf16 (s : list N) : bool :=
  match s with
  | [] => true
  | c :: r =>
      if is_lead c then
        match r with
        | c2 :: r' => is_trail c2 && well_formed_utf16 r'
        | [] => false
        end
      else if is_trail c then false
      else (c <? 65536) && well_formed_utf16 r
  end.

(** A number in normal form. *)
Definition normal (x : number) : Prop :=
  (mantissa x = 0 -> exponent x = 0)%Z
  /\ (mantissa x ≠ 0 -> mantissa x mod 10 ≠ 0)%Z.

(** What may follow a number: nothing, or a code unit that cannot continue
    it. *)
Definition number_end (rest : list N) : Prop :=
  match rest with
  | [] => True
  | c :: _ => is_digit c = false /\ c ≠ ch "." /\ c ≠ ch "e" /\ c ≠ ch "E"
  end.

(** [rest] does not start with a digit. *)
Definition no_digit (rest : list N) : Prop :=
  match rest with [] => True | c :: _ => is_digit c = false end.

(** A Unicode scalar value: a code point that is not a surrogate. *)
Definition scalar (cp : N) : Prop :=
  cp < 1114112 /\ ~ (55296 <= cp <= 57343).

(** A value that JSON can carry: no [undefined] anywhere, numbers in normal
    form, strings of code units, objects without repeated keys. *)
Fixpoint json_ok (v : value) : Prop :=
  match v with
  | VUndefined => False
  | VNull | VBool _ => True
  | VNum n => normal n
  | VStr s => Forall code_unit s
  | VArr vs =>
      (fix all (l : list value) : Prop :=
         match l with
         | [] => True
         | x :: l' => json_ok x /\ all l'
         end) vs
  | VObj ps =>
      NoDup ps.*1
      /\ (fix all (l : list (list N * value)) : Prop :=
            match l with
            | [] => True
            | (k, x) :: l' => Forall code_unit k /\ json_ok x /\ all l'
            end) ps
  end.

(** The fuel that reading a value back takes. *)
Fixpoint vsize (v : value) : nat :=
  match v with
  | VArr vs =>
      S ((fix sum (l : list value) : nat :=
            match l with
            | [] => O
            | x :: l' => S (vsize x + sum l')
            end) vs)
  | VObj ps =>
      S ((fix sum (l : list (list N * value)) : nat :=
            match l with
            | [] => O
            | (_, x) :: l' => S (vsize x + sum l')
            end) ps)
  | _ => 1%nat
  end.

(** What may follow a value inside a JSON text. *)
Definition value_end (rest : list N) : Prop :=
  match rest with
  | [] => True
  | c :: _ => c = ch "," \/ c = ch "]" \/ c = ch "}"
  end.

(** The texts that [JSON.stringify] joins for an array and for an object. *)
Definition item_texts (vs : list value) : list (list N) :=
  map (fun x => default (str "null") (serialize x)) vs.

Fixpoint member_texts (ps : list (list N * value)) : list (list N) :=
  match ps with
  | [] => []
  | (k, x) :: ps' =>
      match serialize x with
      | Some t => (quote k ++ ch ":" :: t) :: member_texts ps'
      | None => member_texts ps'
      end
  end.

(** The first code unit of a JSON text is not white space and closes
    nothing. *)
Definition opens (c : N) : Prop :=
  is_ws c = false /\ c ≠ ch "]" /\ c ≠ ch "}" /\ c ≠ ch "," /\ c ≠ ch ":".

(** Reading [v] back from its text works with any fuel from [vsize v]
    on, whatever follows the text. *)
Definition reads_back (v : value) : Prop :=
  forall fuel t rest,
    (vsize v <= fuel)%nat -> json_ok v -> serialize v = Some t ->
    value_end rest ->
    parse_value fuel (t ++ rest) = Some (v, rest).




(** The world is well-formed and at least [n] identifiers are taken. *)
Definition taken (n : nat) (w : world) : Prop :=
  world_ok w /\ (n <= next_id w)%nat.

(** [c] keeps the world well-formed when the identifiers [ids] that it is
    handed are taken. *)
Definition keeps_ok (ids : list nat) {A} (c : M A) : Prop :=
  forall n w, taken n w -> Forall (fun i => (i < n)%nat) ids ->
              taken n (c w).2.

(** What can happen to a page: calls of the module and steps of the
    browser. *)
Inductive call : Type :=
| CallPreloadScript (url : list N) (cb : option callback)
| CallVimeoAutoPlay (observerOptions : option (gmap (list N) value))
| CallWatchIntersection (targets : jsany)
    (options : option (gmap (list N) value))
    (yesHandler noHandler : option callback)
| Browser (s : browser_step).

Definition perform (doc : document) (c : call) (w : world) : world :=
  match c with
  | CallPreloadScript url cb => (preloadScript url cb w).2
  | CallVimeoAutoPlay o => (vimeoAutoPlay doc o w).2
  | CallWatchIntersection t o y n => (watchIntersection doc t o y n w).2
  | Browser s => step doc s w
  end.

(** The promises that a list of reactions, or of listeners, will settle. *)
Definition returned (ks : list (promise * continuation)) : list nat :=
  map (fun pk => match pk.2 with VimeoObserve _ _ q => q end) ks.

Definition resolved_by (ls : list (node * list N * listener)) : list nat :=
  map (fun l => match l.2 with ScriptLoaded _ _ p => p end) ls.


(** The listeners and continuations are [L] and [R], and none of the
    promises [P] is settled. *)
Definition all_pending (L : list (node * list N * listener))
    (R : list (promise * continuation)) (P : list promise) (w : world)
  : Prop :=
  listeners w = L /\ reactions w = R /\ Forall (fun p => p ∉ settled w) P.

Definition keeps_all_pending (L : list (node * list N * listener))
    (R : list (promise * continuation)) (P : list promise) {A} (c : M A)
  : Prop :=
  forall w, all_pending L R P w -> all_pending L R P (c w).2.

(** The targets for which a log constructs a player. *)
Definition players_made (lg : list effect) : list node :=
  omap (fun e => match e with NewPlayer t _ => Some t | _ => None end) lg.

(** Reading a log from the left, with the targets [have] that have a player
    so far: a player is constructed only for a target that has none, and
    [on], [play] and [pause] are called on the player of a target that has
    one. *)
Fixpoint player_log_ok (have : list node) (lg : list effect) : Prop :=
  match lg with
  | [] => True
  | NewPlayer t _ :: lg' => (t ∉ have) /\ player_log_ok (have ++ [t]) lg'
  | PlayerOn t _ :: lg' | Play t :: lg' | Pause t :: lg' =>
      (t ∈ have) /\ player_log_ok have lg'
  | _ :: lg' => player_log_ok have lg'
  end.

(** An effect that concerns no player. *)
Definition no_player_effect (e : effect) : Prop :=
  match e with
  | NewPlayer _ _ | PlayerOn _ _ | Play _ | Pause _ => False
  | _ => True
  end.

(** [c] extends the log by entries that are in order for the players of the
    world it starts in, and records the players it constructs. *)
Definition player_safe {A} (c : M A) : Prop :=
  forall w, exists ext,
    log (c w).2 = log w ++ ext
    /\ players (c w).2 = players w ++ players_made ext
    /\ player_log_ok (players w) ext.

(** ** [getNextData] *)

(** What [getNextData] reads of the page: the elements by id, each with its
    [textContent], and the property [__NEXT_DATA__] of [window]
    ([undefined] when it is not set). *)
Record next_page : Type := NextPage {
  getElementById : list N -> option (list N);
  window_NEXT_DATA : value
}.

Definition getNextData (page : next_page) : result value :=
  match getElementById page (str "__NEXT_DATA__") with
  | Some textContent => JSON_parse textContent
  | None => Ok (window_NEXT_DATA page)
  end.

(** ** The DOM as a tree, and [insertVimeoBox]

    [insertVimeoBox] clones the content of a template, writes the two video
    ids into the clone and puts the clone in front of the children of the
    container.  Text nodes and elements are the nodes of the tree; an
    element has a tag, classes, a dataset and children.  A node inside a
    list of nodes is named by its path: the index of a node of the list,
    then the index of one of its children, and so on. *)
Module Dom.

Inductive dom : Type :=
| Text (data : list N)
| Element (tag : list N) (classes : list (list N))
          (dataset : list (list N * list N)) (children : list dom).

Abbreviation path := (list nat) (only parsing).

(** The first element with the class [cls] in the subtree of [n], in tree
    order; the empty path is [n] itself. *)
Fixpoint query (cls : list N) (n : dom) : option path :=
  match n with
  | Text _ => None
  | Element _ classes _ children =>
      if bool_decide (cls ∈ classes) then Some []
      else
        (fix first (i : nat) (l : list dom) : option path :=
           match l with
           | [] => None
           | c :: l' =>
               match query cls c with
               | Some p => Some (i :: p)
               | None => first (S i) l'
               end
           end) O children
  end.

Fixpoint first_match (cls : list N) (i : nat) (l : list dom) : option path :=
  match l with
  | [] => None
  | c :: l' =>
      match query cls c with
      | Some p => Some (i :: p)
      | None => first_match cls (S i) l'
      end
  end.

(** [fragment.querySelector("." + cls)]: the descendants of a fragment are
    searched, in tree order. *)
Definition querySelector (cls : list N) (fragment : list dom) : option path :=
  first_match cls O fragment.

Definition children_of (n : dom) : list dom :=
  match n with
  | Text _ => []
  | Element _ _ _ children => children
  end.

(** The node at [p] below [n]; the empty path is [n] itself. *)
Fixpoint descend (p : path) (n : dom) : option dom :=
  match p with
  | [] => Some n
  | i :: p' => c ← children_of n !! i; descend p' c
  end.

Definition node_at (p : path) (l : list dom) : option dom :=
  match p with
  | [] => None
  | i :: p' => n ← l !! i; descend p' n
  end.

(** [dataset[k] = v]: an existing entry keeps its place. *)
Fixpoint dataset_set (k v : list N) (d : list (list N * list N))
  : list (list N * list N) :=
  match d with
  | [] => [(k, v)]
  | (k', v') :: r =>
      if decide (k' = k) then (k, v) :: r else (k', v') :: dataset_set k v r
  end.

Fixpoint dataset_get (k : list N) (d : list (list N * list N))
  : option (list N) :=
  match d with
  | [] => None
  | (k', v') :: r => if decide (k' = k) then Some v' else dataset_get k r
  end.

(** [el.dataset.vimeoVid = v] *)
Definition set_vimeoVid (v : list N) (n : dom) : dom :=
  match n with
  | Text _ => n
  | Element tag classes dataset children =>
      Element tag classes (dataset_set (str "vimeoVid") v dataset) children
  end.

(** The tree [n] with [f] applied to the node at [p] below it. *)
Fixpoint update (p : path) (f : dom -> dom) (n : dom) : dom :=
  match p with
  | [] => f n
  | i :: p' =>
      match n with
      | Text _ => n
      | Element tag classes dataset children =>
          Element tag classes dataset (alter (update p' f) i children)
      end
  end.

(** The list [l] with [f] applied to the node at [p]. *)
Definition update_at (p : path) (f : dom -> dom) (l : list dom) : list dom :=
  match p with
  | [] => l
  | i :: p' => alter (update p' f) i l
  end.

(** What [document.getElementById] finds: nothing, an element that is not
    a template (it has no [content]), or a template with the nodes of its
    content. *)
Inductive found : Type :=
| NotFound
| NoTemplate
| Template (content : list dom).

Record page : Type := Page { getElementById : list N -> found }.

Record vimeo_ids : Type := VimeoIds {
  desktopId : list N;
  mobileId : list N
}.

(** [insertVimeoBox(ids, container)].  The function is [async] and awaits
    nothing: [Throw] stands for the rejection of the promise it returns.
    The second component is the container after the call. *)
Definition insertVimeoBox (pg : page) (ids : vimeo_ids) (container : dom)
  : result unit * dom :=
  match getElementById pg (str "vimeoVideoBox") with
  | Template content =>
      let clone := content in
      match querySelector (str "hidden-on-mobile") clone with
      | None => (Throw TypeError, container)
      | Some p1 =>
          let clone := update_at p1 (set_vimeoVid (desktopId ids)) clone in
          match querySelector (str "hidden-on-desktop") clone with
          | None => (Throw TypeError, container)
          | Some p2 =>
              let clone := update_at p2 (set_vimeoVid (mobileId ids)) clone in
              match container with
              | Element tag classes dataset children =>
                  (Ok tt, Element tag classes dataset (clone ++ children))
              | Text _ => (Throw TypeError, container)
              end
          end
      end
  | NotFound | NoTemplate => (Throw TypeError, container)
  end.

(** The dataset of the element at [p]. *)
Definition dataset_at (p : path) (l : list dom)
  : option (list (list N * list N)) :=
  match node_at p l with
  | Some (Element _ _ dataset _) => Some dataset
  | _ => None
  end.

(** The classes of the element at [p]. *)
Definition classes_at (p : path) (l : list dom) : option (list (list N)) :=
  match node_at p l with
  | Some (Element _ classes _ _) => Some classes
  | _ => None
  end.

(** What a node shows of itself, its children apart. *)
Definition own (n : dom)
  : list N + list N * list (list N) * list (list N * list N) :=
  match n with
  | Text data => inl data
  | Element tag classes dataset _ => inr (tag, classes, dataset)
  end.

End Dom.

(** ** The rest of the page: ready state, timers, media queries, clicks and
    the clipboard

    [asap], [hostReactAppReady], [mediaMatcher], [setYMTarget] and
    [copyToClipboard] register closures with the browser and return at
    once.  As before the closures are kept as data, and a world is threaded
    through the functions; what the page offers to read (the ready state,
    the layout, the media queries, the clipboard) is part of the world, and
    the browser may change it between two steps. *)
Module Events.

Inductive target : Type :=
| TheDocument
| AnElement (el : node)
| AMediaQueryList (mql : nat).

#[global] Instance target_eq_dec : EqDecision target.
Proof. solve_decision. Defined.

Inductive arg : Type :=
| ArgBool (b : bool).

Inductive effect : Type :=
| Call (f : callback) (args : list arg)
| Ym (targetId : value) (method : list N) (target : value)
| AddEventListener (t : target) (type : list N)
| MatchMedia (mql : nat) (query : list N)
| SetTimeout (timer : nat) (delay : number)
| WriteText (write : nat) (text : list N)
| Resolve (p : promise)
| Reject (p : promise) (e : exn).

(** The listener of [asap], of [mediaMatcher] and of [setYMTarget]. *)
Inductive listener : Type :=
| Ready (cb : option callback) (resolve : promise)
| MediaChange (callback : callback)
| Goal (targetId target : value).

(** [checkReady] of [hostReactAppReady], as handed to [setTimeout]. *)
Inductive task : Type :=
| CheckReady (selector : list N) (timeout : number) (resolve : promise).

(** The part of [copyToClipboard] after its [await]. *)
Inductive continuation : Type :=
| AfterWrite (ret : promise).

(** What the page offers to read. *)
Record env : Type := Env {
  readyState : list N;                       (* [document.readyState] *)
  height : list N -> result (option number);
    (* [document.querySelector(s)?.getBoundingClientRect().height]:
       nothing when no element matches, an exception for a selector that is
       not valid *)
  matches : list N -> bool;                  (* [matchMedia(q).matches] *)
  clipboard : option (list N)
    (* the text of the clipboard; nothing when [navigator.clipboard] is
       undefined *)
}.

Record world : Type := World {
  next_id : nat;
  page : env;
  listeners : list (target * list N * listener);
  timers : list (nat * task);
  writes : list (nat * list N * continuation);
  settled : list promise;
  log : list effect
}.

Definition initial (e : env) : world := World 0 e [] [] [] [] [].

Definition M (A : Type) : Type := world -> result A * world.

Definition ret {A} (a : A) : M A := fun w => (Ok a, w).
Definition throw {A} (e : exn) : M A := fun w => (Throw e, w).
Definition bind {A B} (c : M A) (k : A -> M B) : M B := fun w =>
  match c w with
  | (Ok a, w') => k a w'
  | (Throw e, w') => (Throw e, w')
  end.

(** [try { c } catch (e) { h e }] *)
Definition catch {A} (c : M A) (h : exn -> M A) : M A := fun w =>
  match c w with
  | (Ok a, w') => (Ok a, w')
  | (Throw e, w') => h e w'
  end.

Declare Scope events_scope.
Notation "'do' x <- c ; k" := (bind c (fun x => k))
  (at level 10, x name, c at level 100, k at level 200) : events_scope.
Notation "c ;; k" := (bind c (fun _ => k))
  (at level 100, k at level 200, right associativity) : events_scope.
Local Open Scope events_scope.

Definition get {A} (f : world -> A) : M A := fun w => (Ok (f w), w).

(** Reading something of the page that may throw. *)
Definition read {A} (f : env -> result A) : M A := fun w => (f (page w), w).

Definition emit (e : effect) : M unit := fun w =>
  (Ok tt, World (next_id w) (page w) (listeners w) (timers w) (writes w)
             (settled w) (log w ++ [e])).

Definition fresh : M nat := fun w =>
  (Ok (next_id w),
   World (S (next_id w)) (page w) (listeners w) (timers w) (writes w)
     (settled w) (log w)).

Definition set_page (e : env) : M unit := fun w =>
  (Ok tt, World (next_id w) e (listeners w) (timers w) (writes w)
             (settled w) (log w)).

Definition add_listener (t : target) (type : list N) (l : listener)
  : M unit := fun w =>
  (Ok tt, World (next_id w) (page w) (listeners w ++ [(t, type, l)])
             (timers w) (writes w) (settled w) (log w)).

Definition set_timers (f : list (nat * task) -> list (nat * task))
  : M unit := fun w =>
  (Ok tt, World (next_id w) (page w) (listeners w) (f (timers w)) (writes w)
             (settled w) (log w)).

Definition set_writes
    (f : list (nat * list N * continuation)
         -> list (nat * list N * continuation)) : M unit := fun w =>
  (Ok tt, World (next_id w) (page w) (listeners w) (timers w) (f (writes w))
             (settled w) (log w)).

Definition mark_settled (p : promise) : M unit := fun w =>
  (Ok tt, World (next_id w) (page w) (listeners w) (timers w) (writes w)
             (p :: settled w) (log w)).

Fixpoint for_each {A} (f : A -> M unit) (l : list A) : M unit :=
  match l with
  | [] => ret tt
  | a :: l' => f a ;; for_each f l'
  end.

Definition is_settled (p : promise) (w : world) : bool :=
  bool_decide (p ∈ settled w).

(** A promise settles once. *)
Definition settle (p : promise) (e : effect) : M unit :=
  do done <- get (is_settled p);
  if (done : bool) then ret tt else mark_settled p ;; emit e.

(** [cb?.()] *)
Definition call_if_given (cb : option callback) : M unit :=
  match cb with
  | Some f => emit (Call f [])
  | None => ret tt
  end.

(** *** [asap] *)

Definition is_ready (state : list N) : bool :=
  bool_decide (state ∈ [str "complete"; str "interactive"]).

Definition asap (cb : option callback) : M promise :=
  do p <- fresh;
  do state <- get (fun w => readyState (page w));
  if is_ready state then
    call_if_given cb ;; settle p (Resolve p) ;; ret p
  else
    add_listener TheDocument (str "DOMContentLoaded") (Ready cb p) ;;
    emit (AddEventListener TheDocument (str "DOMContentLoaded")) ;;
    ret p.

(** *** [hostReactAppReady] *)

(** Whether [hostEl?.getBoundingClientRect().height] is truthy. *)
Definition truthy (h : option number) : bool :=
  match h with
  | Some x => negb (mantissa x =? 0)%Z
  | None => false
  end.

Definition checkReady (selector : list N) (timeout : number) (p : promise)
  : M unit :=
  do h <- read (fun e => height e selector);
  if truthy h then settle p (Resolve p)
  else
    do t <- fresh;
    set_timers (fun ts => ts ++ [(t, CheckReady selector timeout p)]) ;;
    emit (SetTimeout t timeout).

(** An exception of the first [checkReady], which runs inside the
    executor of the promise, rejects the promise. *)
Definition hostReactAppReady (selector : option (list N))
    (timeout : option number) : M promise :=
  let selector := default (str "#__next > div") selector in
  let timeout := default (Num 2 2) timeout in
  do p <- fresh;
  catch (checkReady selector timeout p) (fun e => settle p (Reject p e)) ;;
  ret p.

(** *** [mediaMatcher] *)

Definition max_width_query (size : number) : list N :=
  str "(max-width: " ++ number_to_string size ++ str "px)".

Definition mediaMatcher (size : number) (callback : callback) : M unit :=
  do mql <- fresh;
  emit (MatchMedia mql (max_width_query size)) ;;
  do m <- get (fun w => matches (page w) (max_width_query size));
  emit (Call callback [ArgBool m]) ;;
  add_listener (AMediaQueryList mql) (str "change") (MediaChange callback) ;;
  emit (AddEventListener (AMediaQueryList mql) (str "change")).

(** *** [setYMTarget] *)

Definition setYMTarget (selector : node) (targetId target : value)
  : M unit :=
  add_listener (AnElement selector) (str "click") (Goal targetId target) ;;
  emit (AddEventListener (AnElement selector) (str "click")).

(** *** [copyToClipboard] *)

(** "Не удалось скопировать текст в буфер обмена." in code units. *)
Definition clipboard_message : list N :=
  [1053; 1077; 32; 1091; 1076; 1072; 1083; 1086; 1089; 1100; 32; 1089; 1082;
   1086; 1087; 1080; 1088; 1086; 1074; 1072; 1090; 1100; 32; 1090; 1077;
   1082; 1089; 1090; 32; 1074; 32; 1073; 1091; 1092; 1077; 1088; 32; 1086;
   1073; 1084; 1077; 1085; 1072; 46].

(** Without [navigator.clipboard] the call of [writeText] is a
    [TypeError] inside the [try], which the [catch] turns into the
    rejection. *)
Definition copyToClipboard (text : list N) : M promise :=
  do p <- fresh;
  do api <- get (fun w => clipboard (page w));
  match api with
  | None => settle p (Reject p (Error clipboard_message)) ;; ret p
  | Some _ =>
      do wr <- fresh;
      set_writes (fun ws => ws ++ [(wr, text, AfterWrite p)]) ;;
      emit (WriteText wr text) ;;
      ret p
  end.

(** *** What the browser does *)

Definition run_listener (e_matches : bool) (l : listener) : M unit :=
  match l with
  | Ready cb p => call_if_given cb ;; settle p (Resolve p)
  | MediaChange callback => emit (Call callback [ArgBool e_matches])
  | Goal targetId target => emit (Ym targetId (str "reachGoal") target)
  end.

(** An event of [type] at [t]; [e_matches] is the [matches] of the event
    object, which only the listener of [mediaMatcher] reads. *)
Definition dispatch (t : target) (type : list N) (e_matches : bool)
  : M unit :=
  do ls <- get (fun w => filter (fun l => l.1 = (t, type)) (listeners w));
  for_each (fun l => run_listener e_matches l.2) ls.

(** The timer [t] fires: it is spent, and its task runs. *)
Definition fire (t : nat) : M unit :=
  do found <- get (fun w => list_find (fun x => x.1 = t) (timers w));
  match found with
  | None => ret tt
  | Some (_, (_, CheckReady selector timeout p)) =>
      set_timers (filter (fun x => x.1 ≠ t)) ;;
      checkReady selector timeout p
  end.

(** The clipboard write [wr] ends: it succeeds, and the text is on the
    clipboard, or it fails for some [reason]; what awaits it goes on. *)
Definition write_ends (wr : nat) (reason : option exn) : M unit :=
  do found <- get (fun w => list_find (fun x => x.1.1 = wr) (writes w));
  match found with
  | None => ret tt
  | Some (_, (_, text, AfterWrite p)) =>
      set_writes (filter (fun x => x.1.1 ≠ wr)) ;;
      match reason with
      | None =>
          do e <- get page;
          set_page (Env (readyState e) (height e) (matches e) (Some text)) ;;
          settle p (Resolve p)
      | Some _ => settle p (Reject p (Error clipboard_message))
      end
  end.

Inductive browser_step : Type :=
| Dispatch (t : target) (type : list N) (e_matches : bool)
| Fire (timer : nat)
| WriteEnds (wr : nat) (reason : option exn)
| PageChanges (e : env).

Definition step (s : browser_step) (w : world) : world :=
  match s with
  | Dispatch t type e_matches => (dispatch t type e_matches w).2
  | Fire t => (fire t w).2
  | WriteEnds wr reason => (write_ends wr reason w).2
  | PageChanges e => (set_page e w).2
  end.

Definition run (steps : list browser_step) (w : world) : world :=
  fold_left (fun w s => step s w) steps w.

(** The calls of this part of the module. *)
Inductive call : Type :=
| CallAsap (cb : option callback)
| CallHostReactAppReady (selector : option (list N)) (timeout : option number)
| CallMediaMatcher (size : number) (callback : callback)
| CallSetYMTarget (selector : node) (targetId target : value)
| CallCopyToClipboard (text : list N)
| Browser (s : browser_step).

Definition perform (c : call) (w : world) : world :=
  match c with
  | CallAsap cb => (asap cb w).2
  | CallHostReactAppReady selector timeout =>
      (hostReactAppReady selector timeout w).2
  | CallMediaMatcher size callback => (mediaMatcher size callback w).2
  | CallSetYMTarget selector targetId target =>
      (setYMTarget selector targetId target w).2
  | CallCopyToClipboard text => (copyToClipboard text w).2
  | Browser s => step s w
  end.

(** Identifiers in use are below [next_id]; every kind of listener sits on
    its kind of target; no two timers, and no two writes, share an
    identifier. *)
Definition world_ok (w : world) : Prop :=
  Forall (fun p => (p < next_id w)%nat) (settled w)
  /\ Forall (fun l => match l.2 with
                      | Ready _ p =>
                          l.1 = (TheDocument, str "DOMContentLoaded")
                          /\ (p < next_id w)%nat
                      | MediaChange _ =>
                          exists mql, l.1 = (AMediaQueryList mql, str "change")
                                      /\ (mql < next_id w)%nat
                      | Goal _ _ => exists el, l.1 = (AnElement el, str "click")
                      end) (listeners w)
  /\ Forall (fun t => (t.1 < next_id w)%nat
                      /\ match t.2 with
                         | CheckReady _ _ p => (p < next_id w)%nat
                         end) (timers w)
  /\ NoDup (timers w).*1
  /\ Forall (fun x => (x.1.1 < next_id w)%nat
                      /\ match x.2 with
                         | AfterWrite p => (p < next_id w)%nat
                         end) (writes w)
  /\ NoDup ((writes w).*1).*1.

(** The promises that the listeners [ls] resolve. *)
Definition readied (ls : list (target * list N * listener)) : list promise :=
  omap (fun l => match l.2 with Ready _ p => Some p | _ => None end) ls.

(** No timer and no clipboard write is for the promise [p]. *)
Definition not_awaited (p : promise) (w : world) : Prop :=
  Forall (fun x => match x.2 with CheckReady _ _ q => q ≠ p end) (timers w)
  /\ Forall (fun x => match x.2 with AfterWrite q => q ≠ p end) (writes w).

Definition task_promise (t : task) : promise :=
  match t with CheckReady _ _ p => p end.

(** The timers that are set for the promise [p]. *)
Definition timers_for (p : promise) (w : world) : list (nat * task) :=
  filter (fun x => task_promise x.2 = p) (timers w).

(** Whatever the page becomes, the selector stays one that
    [querySelector] accepts. *)
Definition stays_valid (selector : list N) (steps : list browser_step)
  : Prop :=
  Forall (fun s => match s with
                   | PageChanges e => exists h, height e selector = Ok h
                   | _ => True
                   end) steps.

(** The state of a poll: the promise is resolved and no timer is left for
    it, or it is pending and exactly one timer is set for it. *)
Definition poll_state (selector : list N) (delay : number) (p : promise)
    (w : world) : Prop :=
  (p ∈ settled w /\ timers_for p w = [] /\ Resolve p ∈ log w)
  \/ ((p ∉ settled w)
      /\ exists t, timers_for p w = [(t, CheckReady selector delay p)]).

(** The goals that the listeners [ls] send when they run. *)
Definition goals_sent (ls : list (target * list N * listener)) : list effect :=
  omap (fun l => match l.2 with
                 | Goal targetId target =>
                     Some (Ym targetId (str "reachGoal") target)
                 | _ => None
                 end) ls.

End Events.

(** * Properties *)

(** ** Splitting and joining *)

Lemma split_on_cons sep c r :
  split_on sep (c :: r) =
    if c =? sep then [] :: split_on sep r
    else match split_on sep r with
         | [] => [[c]]
         | w :: ws => (c :: w) :: ws
         end.
Proof. reflexivity. Qed.

Lemma split_on_not_nil sep s : split_on sep s ≠ [].
Proof.
  destruct s as [|c r]; [done|].
  rewrite split_on_cons. destruct (c =? sep); [done|].
  by destruct (split_on sep r).
Qed.

Lemma split_on_pieces sep s : Forall (fun w => sep ∉ w) (split_on sep s).
Proof.
  induction s as [|c r IH].
  - repeat constructor. by intros ?%elem_of_nil.
  - rewrite split_on_cons. destruct (N.eqb_spec c sep) as [->|Hne].
    + constructor; [by intros ?%elem_of_nil | done].
    + destruct (split_on sep r) as [|w ws].
      * repeat constructor. intros ?%list_elem_of_singleton. congruence.
      * inversion IH as [|? ? Hw Hws]; subst. constructor; [|done].
        intros [->|?]%elem_of_cons; congruence.
Qed.

Lemma split_on_app sep k r :
  sep ∉ k -> split_on sep (k ++ sep :: r) = k :: split_on sep r.
Proof.
  induction k as [|c k IH]; intros Hk.
  - cbn [app]. rewrite split_on_cons, N.eqb_refl. done.
  - cbn [app]. rewrite split_on_cons.
    destruct (N.eqb_spec c sep) as [->|Hne].
    + exfalso. apply Hk. left.
    + rewrite IH; [done|]. intros ?. apply Hk. by right.
Qed.

Lemma split_on_whole sep k : sep ∉ k -> split_on sep k = [k].
Proof.
  induction k as [|c k IH]; intros Hk; [done|].
  rewrite split_on_cons.
  destruct (N.eqb_spec c sep) as [->|Hne].
  - exfalso. apply Hk. left.
  - rewrite IH; [done|]. intros ?. apply Hk. by right.
Qed.


(** ** The pieces of a pair *)

Lemma pair_key_eq k r : ch "=" ∉ k -> pair_key (k ++ ch "=" :: r) = k.
Proof. intros Hk. unfold pair_key. by rewrite split_on_app. Qed.

Lemma pair_text_eq k v :
  ch "=" ∉ k -> ch "=" ∉ v -> pair_text (k ++ ch "=" :: v) = v.
Proof.
  intros Hk Hv. unfold pair_text.
  by rewrite split_on_app, split_on_whole.
Qed.

Lemma pair_text_eq_more k v rest :
  ch "=" ∉ k -> ch "=" ∉ v ->
  pair_text (k ++ ch "=" :: v ++ ch "=" :: rest) = v.
Proof.
  intros Hk Hv. unfold pair_text.
  by rewrite split_on_app, split_on_app.
Qed.

Lemma pair_key_whole kv : ch "=" ∉ kv -> pair_key kv = kv.
Proof. intros H. unfold pair_key. by rewrite split_on_whole. Qed.

Lemma pair_text_whole kv : ch "=" ∉ kv -> pair_text kv = str "undefined".
Proof. intros H. unfold pair_text. by rewrite split_on_whole. Qed.

Lemma pair_key_clean kv : ch "=" ∉ pair_key kv.
Proof.
  unfold pair_key. pose proof (split_on_pieces (ch "=") kv) as H.
  destruct (split_on (ch "=") kv); [by intros ?%elem_of_nil|].
  by inversion H.
Qed.

(** ** [queryParam] on concrete query strings *)

Lemma set_pair_nonempty params kv :
  kv ≠ [] ->
  set_pair params kv =
    v ← decode_value (pair_text kv); Ok (set_property params (pair_key kv) v).
Proof. by destruct kv. Qed.

(** ** Assignments to the object *)

(** Every key but [__proto__] becomes an own property. *)
Lemma set_property_stores params key v :
  key ≠ proto_key ->
  set_property params key v
  = Object (<[key := v]> (properties params)) (prototype params).
Proof.
  intros Hkey. unfold set_property.
  by rewrite (bool_decide_eq_false_2 _ Hkey).
Qed.

(** On an object that still has %Object.prototype% and no own property
    [__proto__], the key [__proto__] never becomes an own property. *)
Lemma set_property_proto params v :
  properties params !! proto_key = None ->
  prototype params = ObjectPrototype ->
  properties (set_property params proto_key v) = properties params.
Proof.
  intros Hown Hproto. unfold set_property, reaches_setter.
  rewrite Hown, Hproto. rewrite bool_decide_eq_true_2 by done.
  by destruct v.
Qed.

(** The key [__proto__] on concrete queries: a number is dropped; after
    [null] has become the prototype the key is an own property; an array
    that has become the prototype answers for its indices and its length,
    and %Array.prototype% for the rest. *)
Lemma proto_key_examples :
  queryParam None (str "?__proto__=1&a=2")
    = Ok (AllParams (Object (<[str "a" := VNum (Num 2 0)]> ∅) ObjectPrototype))
  /\ queryParam None (str "?__proto__=null&__proto__=1")
    = Ok (AllParams (Object (<[proto_key := VNum (Num 1 0)]> ∅) NullPrototype))
  /\ queryParam (Some (str "__proto__")) (str "?__proto__=1")
    = Ok (ThePrototype ObjectPrototype)
  /\ queryParam (Some (str "a")) (str "?__proto__=null")
    = Ok (OneParam VUndefined)
  /\ queryParam None (str "?__proto__=[7]&a=1")
    = Ok (AllParams (Object (<[str "a" := VNum (Num 1 0)]> ∅)
                       (ParsedPrototype (VArr [VNum (Num 7 0)]))))
  /\ queryParam (Some (str "0")) (str "?__proto__=[7]")
    = Ok (OneParam (VNum (Num 7 0)))
  /\ queryParam (Some (str "length")) (str "?__proto__=[7]")
    = Ok (OneParam (VNum (Num 1 0)))
  /\ queryParam (Some (str "push")) (str "?__proto__=[7]")
    = Ok (Inherited ArrayProto (str "push"))
  /\ queryParam (Some (str "12345678901234567890")) (str "?__proto__=[7]")
    = Ok (Inherited ArrayProto (str "12345678901234567890"))
  /\ queryParam (Some (str "x")) (str "?__proto__=%7B%22x%22:true%7D")
    = Ok (OneParam (VBool true)).
Proof. repeat split; by vm_compute. Qed.

Lemma lookup_object (m : gmap (list N) value) (pr : proto) (k : list N) :
  Object m pr !! k = m !! k.
Proof. reflexivity. Qed.

Lemma dom_object (m : gmap (list N) value) (pr : proto) :
  dom (Object m pr) = dom m.
Proof. reflexivity. Qed.

Lemma query_abc :
  queryParam None (str "?a=1&b=hello&c=") =
    Ok (AllParams
          (Object (<[str "c" := VStr []]>
                   (<[str "b" := VStr (str "hello")]>
                    (<[str "a" := VNum (Num 1 0)]> ∅)))
                  ObjectPrototype)).
Proof. by vm_compute. Qed.

Lemma query_ab :
  queryParam None (str "?a=1&b=hello&") =
    Ok (AllParams
          (Object (<[str "b" := VStr (str "hello")]>
                   (<[str "a" := VNum (Num 1 0)]> ∅))
                  ObjectPrototype)).
Proof. by vm_compute. Qed.

Lemma query_no_mark :
  queryParam None (str "a=1&b=hello&c=") = Ok (AllParams empty_object).
Proof. by vm_compute. Qed.

(** C2 (as stated) fails: with the query string after [?], the pair [c=]
    gives the key [c]; handed over without a [?], the string gives no key at
    all. *)
Lemma C2_trailing_pair_counterexample :
  ~ (exists params,
        queryParam None (str "?a=1&b=hello&c=") = Ok (AllParams params)
        /\ dom params = {[ str "a"; str "b" ]})
  /\ ~ (exists params,
        queryParam None (str "a=1&b=hello&c=") = Ok (AllParams params)
        /\ dom params = {[ str "a"; str "b" ]}).
Proof.
  split; intros (params & Hq & Hdom).
  - rewrite query_abc in Hq. injection Hq as <-.
    rewrite dom_object in Hdom.
    assert (Hc : str "c" ∈ ({[ str "a"; str "b" ]} : gset (list N))).
    { rewrite <- Hdom. apply elem_of_dom. rewrite lookup_insert_eq. eauto. }
    apply elem_of_union in Hc as [Hc|Hc];
      apply elem_of_singleton in Hc; discriminate Hc.
  - rewrite query_no_mark in Hq. injection Hq as <-.
    unfold empty_object in Hdom. rewrite dom_object in Hdom.
    assert (Ha : str "a" ∈ dom (∅ : gmap (list N) value))
      by (rewrite Hdom; set_solver).
    by rewrite dom_empty in Ha.
Qed.

(** C2 (amended): the query string [a=1&b=hello&c=] after [?] parses to the
    mapping with exactly the keys a, b and c, where a is the number 1, b the
    string "hello" and c the empty string; only an empty pair, as the one
    after the last [&] of [a=1&b=hello&], produces no key. *)
Theorem C2_trailing_pair_keys :
  (exists params,
      queryParam None (str "?a=1&b=hello&c=") = Ok (AllParams params)
      /\ dom params = {[ str "a"; str "b"; str "c" ]}
      /\ params !! str "a" = Some (VNum (Num 1 0))
      /\ params !! str "b" = Some (VStr (str "hello"))
      /\ params !! str "c" = Some (VStr []))
  /\ (exists params,
      queryParam None (str "?a=1&b=hello&") = Ok (AllParams params)
      /\ dom params = {[ str "a"; str "b" ]}
      /\ params !! str "a" = Some (VNum (Num 1 0))
      /\ params !! str "b" = Some (VStr (str "hello"))).
Proof.
  split.
  - eexists; split; [apply query_abc|]. split; [|by vm_compute].
    rewrite dom_object, !dom_insert_L, dom_empty_L. set_solver.
  - eexists; split; [apply query_ab|]. split; [|by vm_compute].
    rewrite dom_object, !dom_insert_L, dom_empty_L. set_solver.
Qed.

(** C3 (as stated) fails: of the pair [a=b=c] only [b] becomes the value. *)
Lemma C3_first_equals_counterexample :
  exists params,
    queryParam None (str "?a=b=c") = Ok (AllParams params)
    /\ params !! str "a" = Some (VStr (str "b"))
    /\ params !! str "a" ≠ Some (VStr (str "b=c")).
Proof. eexists. split; [by vm_compute|]. split; by vm_compute. Qed.

(** C3 (amended): queryParam cuts a non-empty pair at every [=]; the key is
    the text before the first [=], the value is decoded from the text between
    the first [=] and the second one (or the end of the pair), and whatever
    follows a second [=] is dropped: [a=b=c] gives the key a the value "b".
    The value is assigned to [params[key]], which for every key but
    [__proto__] makes it the own property [key]. *)
Theorem C3_pair_split_at_every_equals
    (params : object) (k v rest : list N) :
  ch "=" ∉ k -> ch "=" ∉ v ->
  set_pair params (k ++ ch "=" :: v ++ ch "=" :: rest)
    = (x ← decode_value v; Ok (set_property params k x))
  /\ set_pair params (k ++ ch "=" :: v)
    = (x ← decode_value v; Ok (set_property params k x))
  /\ (k ≠ proto_key ->
      forall x, set_property params k x
                = Object (<[k := x]> (properties params)) (prototype params)).
Proof.
  intros Hk Hv. split; [|split].
  - rewrite set_pair_nonempty by (by destruct k).
    by rewrite pair_key_eq, pair_text_eq_more.
  - rewrite set_pair_nonempty by (by destruct k).
    by rewrite pair_key_eq, pair_text_eq.
  - intros Hkey x. by apply set_property_stores.
Qed.

Lemma C3_pair_split_at_every_equals_witness :
  set_pair empty_object (str "a=b=c")
  = Ok (Object (<[str "a" := VStr (str "b")]> ∅) ObjectPrototype).
Proof.
  refine (proj1 (C3_pair_split_at_every_equals
                   empty_object (str "a") (str "b") (str "c") _ _));
    compute_done.
Defined.

(** A non-empty pair without [=] assigns the nine-letter string "undefined"
    to the whole pair as the key: the missing value is converted to a string
    by [decodeURIComponent], and that string is not JSON. *)
Lemma pair_without_equals (params : object) (kv : list N) :
  kv ≠ [] -> ch "=" ∉ kv ->
  set_pair params kv
  = Ok (set_property params kv (VStr (str "undefined"))).
Proof.
  intros Hne Heq. rewrite set_pair_nonempty by done.
  by rewrite pair_key_whole, pair_text_whole.
Qed.

(** C4: the code at the source [?foo&a=1].  The pair [foo] has no [=]; its
    key gets the nine-letter string "undefined" and not the value
    [undefined]: [decodeURIComponent] converts the missing value to a
    string, [JSON.parse] rejects that string, and the [catch] branch stores
    it. *)
Theorem C4_missing_equals_stores_a_string :
  queryParam (Some (str "foo")) (str "?foo&a=1")
    = Ok (OneParam (VStr (str "undefined")))
  /\ queryParam (Some (str "foo")) (str "?foo&a=1") ≠ Ok (OneParam VUndefined)
  /\ (exists params,
        queryParam None (str "?foo&a=1") = Ok (AllParams params)
        /\ params !! str "foo" = Some (VStr (str "undefined"))
        /\ params !! str "a" = Some (VNum (Num 1 0))).
Proof.
  split; [by vm_compute|]. split; [by vm_compute|].
  eexists. split; [by vm_compute|]. split; by vm_compute.
Qed.

(** ** Repeated keys *)

Lemma set_property_lookup_ne params k v key :
  k ≠ key -> set_property params k v !! key = params !! key.
Proof.
  intros Hne. unfold set_property.
  destruct (bool_decide (k = proto_key) && reaches_setter params).
  - by destruct v.
  - unfold lookup, object_lookup. cbn [properties].
    by rewrite lookup_insert_ne.
Qed.








(** ** What the serializer writes *)

Lemma split_on_elem sep s w c : w ∈ split_on sep s -> c ∈ w -> c ∈ s.
Proof.
  revert w. induction s as [|a r IH]; intros w Hw Hc.
  - cbn in Hw. apply list_elem_of_singleton in Hw. by subst.
  - rewrite split_on_cons in Hw. destruct (a =? sep).
    + apply elem_of_cons in Hw as [->|Hw]; [by apply elem_of_nil in Hc|].
      right. by apply (IH w).
    + pose proof (split_on_not_nil sep r) as Hnn.
      destruct (split_on sep r) as [|w' ws]; [done|].
      apply elem_of_cons in Hw as [->|Hw].
      * apply elem_of_cons in Hc as [->|Hc]; [left|].
        right. apply (IH w'); [left | done].
      * right. apply (IH w); [by right | done].
Qed.

Lemma pair_key_elem kv c : c ∈ pair_key kv -> c ∈ kv.
Proof.
  unfold pair_key. intros Hc.
  pose proof (split_on_not_nil (ch "=") kv) as Hnn.
  destruct (split_on (ch "=") kv) as [|w ws] eqn:E; [done|].
  apply (split_on_elem (ch "=") kv w); [rewrite E; left | done].
Qed.

Lemma for_each_pair_keys kvs : forall params params' k,
  for_each_pair params kvs = Ok params' ->
  is_Some (params' !! k) ->
  is_Some (params !! k) \/ exists kv, kv ∈ kvs /\ k = pair_key kv.
Proof.
  induction kvs as [|kv kvs IH]; intros params params' k Hrun Hk.
  - cbn in Hrun. injection Hrun as <-. by left.
  - cbn [for_each_pair] in Hrun.
    destruct (set_pair params kv) as [params1|e] eqn:Hset; [|done].
    cbn in Hrun. destruct (IH _ _ _ Hrun Hk) as [H1|(kv' & Hin & ->)].
    + destruct kv as [|c kv].
      * cbn in Hset. injection Hset as <-. by left.
      * rewrite set_pair_nonempty in Hset by done.
        destruct (decode_value _) as [v|]; [|done].
        cbn in Hset. injection Hset as <-.
        destruct (decide (pair_key (c :: kv) = k)) as [<-|Hne].
        -- right. eexists. split; [left | done].
        -- rewrite set_property_lookup_ne in H1 by done. by left.
    + right. exists kv'. split; [by right | done].
Qed.

(** The keys of a parsed query contain neither [&] nor [=]. *)
Lemma parse_query_keys source params k :
  parse_query source = Ok params -> is_Some (params !! k) ->
  (ch "&" ∉ k) /\ (ch "=" ∉ k).
Proof.
  intros Hrun Hk. unfold parse_query in Hrun.
  destruct (for_each_pair_keys _ _ _ k Hrun Hk) as [H|(kv & Hin & ->)].
  - unfold empty_object in H. rewrite lookup_object, lookup_empty in H.
    by destruct H.
  - split; [|apply pair_key_clean].
    intros Hc%pair_key_elem.
    pose proof (split_on_pieces (ch "&") (query_string source)) as Hall.
    rewrite Forall_forall in Hall. by apply (Hall kv).
Qed.

Lemma hex_upper_plain d :
  hex_upper d ≠ ch "&" /\ hex_upper d ≠ ch "=" /\ hex_upper d ≠ ch "?".
Proof.
  unfold hex_upper. change (ch "&") with 38. change (ch "=") with 61.
  change (ch "?") with 63. destruct (N.ltb_spec d 10); lia.
Qed.

Lemma unreserved_plain c : unreserved c = true -> plain c.
Proof.
  intros H. repeat split; intros ->; by vm_compute in H.
Qed.

Lemma pct_utf8_plain cp : Forall plain (pct_utf8 cp).
Proof.
  unfold pct_utf8. apply Forall_concat, Forall_map, Forall_forall.
  intros b _. unfold pct.
  repeat constructor; try apply hex_upper_plain; by vm_compute.
Qed.

Lemma encode_plain s : forall t, encode s = Some t -> Forall plain t.
Proof.
  induction s as [s IH] using (induction_ltof1 _ length). unfold ltof in IH.
  intros t Ht. destruct s as [|c r]; cbn [encode] in Ht.
  - injection Ht as <-. constructor.
  - destruct (unreserved c) eqn:Hu.
    + destruct (encode r) as [t'|] eqn:Hr; [|done]. cbn in Ht.
      injection Ht as <-. constructor; [by apply unreserved_plain|].
      apply (IH r); [cbn; lia | done].
    + destruct (is_lead c).
      * destruct r as [|c2 r']; [done|]. destruct (is_trail c2); [|done].
        destruct (encode r') as [t'|] eqn:Hr; [|done]. cbn in Ht.
        injection Ht as <-. apply Forall_app. split; [apply pct_utf8_plain|].
        apply (IH r'); [cbn; lia | done].
      * destruct (is_trail c); [done|].
        destruct (encode r) as [t'|] eqn:Hr; [|done]. cbn in Ht.
        injection Ht as <-. apply Forall_app. split; [apply pct_utf8_plain|].
        apply (IH r); [cbn; lia | done].
Qed.

Lemma map_result_Ok {A B} (f : A -> result B) (l : list A) (bs : list B) :
  map_result f l = Ok bs -> Forall2 (fun a b => f a = Ok b) l bs.
Proof.
  revert bs. induction l as [|a l IH]; intros bs H; cbn in H.
  - injection H as <-. constructor.
  - destruct (f a) as [b|] eqn:Hb; [|done]. cbn in H.
    destruct (map_result f l) as [bs'|]; [|done]. cbn in H.
    injection H as <-. constructor; [done | by apply IH].
Qed.

(** C10: in the output of [params2query] every pair is the key as it is,
    then [=], then the percent-encoded value, which itself holds no [&], [=]
    or [?]; only values are encoded.  A key that contains [&] or [=] thus
    breaks the string: no mapping parsed from it has that key. *)
Theorem C10_keys_written_raw (p : list (list N * value)) (q : list N) :
  params2query p = Ok q ->
  (exists ts,
      Forall2 (fun kv t => encodeURIComponent (param_text kv.2) = Ok t
                           /\ (ch "&" ∉ t) /\ (ch "=" ∉ t)) p ts
      /\ q = join_with (ch "&") (zip_with (fun kv t => kv.1 ++ ch "=" :: t) p ts))
  /\ (forall key v params,
      (key, v) ∈ p -> (ch "&" ∈ key) \/ (ch "=" ∈ key) ->
      queryParam None (ch "?" :: q) = Ok (AllParams params) ->
      params !! key = None).
Proof.
  intros Hq. split.
  - unfold params2query in Hq.
    destruct (map_result param_pair p) as [pairs|] eqn:Hpairs; [|done].
    change (Ok (join_with (ch "&") pairs) = Ok q) in Hq. injection Hq as <-.
    apply map_result_Ok in Hpairs. clear -Hpairs.
    induction Hpairs as [|kv pr p pairs Hkv Hrest (ts & Hts & Heq)].
    + exists []. split; [constructor | done].
    + unfold param_pair in Hkv.
      destruct (encodeURIComponent (param_text kv.2)) as [t|] eqn:Ht; [|done].
      cbn in Hkv. injection Hkv as <-.
      exists (t :: ts). split.
      * constructor; [|done]. split; [done|].
        unfold encodeURIComponent in Ht.
        destruct (encode (param_text kv.2)) as [t'|] eqn:He; [|done].
        injection Ht as ->. apply encode_plain in He.
        rewrite Forall_forall in He.
        split; intros Hc; apply He in Hc; unfold plain in Hc; tauto.
      * cbn [zip_with]. destruct Hrest as [|kv' pr' p pairs].
        -- by apply Forall2_nil_inv_l in Hts as ->.
        -- apply Forall2_cons_inv_l in Hts as (t' & ts' & _ & _ & ->).
           change (join_with (ch "&") ((kv.1 ++ ch "=" :: t) :: pr' :: pairs))
             with ((kv.1 ++ ch "=" :: t) ++ ch "&"
                     :: join_with (ch "&") (pr' :: pairs)).
           by rewrite Heq.
  - intros key v params _ Hkey Hparse.
    unfold queryParam in Hparse.
    destruct (parse_query (ch "?" :: q)) as [ps|] eqn:Hps; [|done].
    cbn in Hparse. injection Hparse as ->.
    destruct (params !! key) as [x|] eqn:Hx; [|done].
    destruct (parse_query_keys _ _ key Hps) as [H1 H2]; [by eexists|].
    tauto.
Qed.

Lemma C10_keys_written_raw_witness :
  (exists ts,
      Forall2 (fun kv t => encodeURIComponent (param_text kv.2) = Ok t
                           /\ (ch "&" ∉ t) /\ (ch "=" ∉ t))
        [(str "a&b", VStr (str "x y")); (str "c=", VNum (Num 1 0))] ts
      /\ str "a&b=x%20y&c==1"
         = join_with (ch "&")
             (zip_with (fun kv t => kv.1 ++ ch "=" :: t)
                [(str "a&b", VStr (str "x y")); (str "c=", VNum (Num 1 0))] ts))
  /\ (forall key v params,
      (key, v) ∈ [(str "a&b", VStr (str "x y")); (str "c=", VNum (Num 1 0))] ->
      (ch "&" ∈ key) \/ (ch "=" ∈ key) ->
      queryParam None (ch "?" :: str "a&b=x%20y&c==1") = Ok (AllParams params) ->
      params !! key = None).
Proof.
  refine (C10_keys_written_raw
            [(str "a&b", VStr (str "x y")); (str "c=", VNum (Num 1 0))]
            (str "a&b=x%20y&c==1") _).
  by vm_compute.
Defined.

(** ** [arrayOfNodesWith] *)



(** ** The browser model *)

Lemma is_settled_false p w : p ∉ settled w -> is_settled p w = false.
Proof. intros H. unfold is_settled. by apply bool_decide_eq_false. Qed.

Lemma is_settled_true p w : p ∈ settled w -> is_settled p w = true.
Proof. intros H. unfold is_settled. by apply bool_decide_eq_true. Qed.

Lemma world_ok_fresh w : world_ok w -> next_id w ∉ settled w.
Proof.
  intros (Hs & _) Hin. rewrite Forall_forall in Hs. apply Hs in Hin. lia.
Qed.

(** C8: on a page without an element matching
    [.vimeo-video-box [data-vimeo-vid]], [vimeoAutoPlay] returns a promise
    that is already resolved, and that resolution is all that happens: the
    children of the head, the listeners, the awaiting continuations, the
    observers and the players are as before, and the log gains no other
    entry (no element created or appended, no observer constructed). *)
Theorem C8_no_boxes_no_effect
    (doc : document) (observerOptions : option (gmap (list N) value))
    (w : world) :
  world_ok w ->
  querySelectorAll doc vimeo_selector = Ok [] ->
  exists w',
    vimeoAutoPlay doc observerOptions w = (Ok (next_id w), w')
    /\ is_settled (next_id w) w' = true
    /\ log w' = log w ++ [Resolve (next_id w)]
    /\ head w' = head w
    /\ listeners w' = listeners w
    /\ reactions w' = reactions w
    /\ observers w' = observers w
    /\ players w' = players w.
Proof.
  intros Hok Hq. apply world_ok_fresh in Hok.
  unfold vimeoAutoPlay, bind, fresh. rewrite Hq.
  unfold settle, bind, get, is_settled. cbn [next_id settled].
  rewrite bool_decide_eq_false_2 by done.
  cbn. eexists. split; [reflexivity|]. cbn.
  repeat split. apply bool_decide_eq_true. left.
Qed.

Lemma C8_no_boxes_no_effect_witness :
  exists w',
    vimeoAutoPlay (Document (fun _ => Ok []) (fun _ => None) (fun _ => None))
      None initial = (Ok (next_id initial), w')
    /\ is_settled (next_id initial) w' = true
    /\ log w' = log initial ++ [Resolve (next_id initial)]
    /\ head w' = head initial
    /\ listeners w' = listeners initial
    /\ reactions w' = reactions initial
    /\ observers w' = observers initial
    /\ players w' = players initial.
Proof.
  refine (C8_no_boxes_no_effect
            (Document (fun _ => Ok []) (fun _ => None) (fun _ => None))
            None initial _ _).
  - repeat split; constructor.
  - reflexivity.
Defined.

Lemma for_each_emit_log {A} (f : A -> effect) (l : list A) (w : world) :
  for_each (fun a => emit (f a)) l w
    = (Ok tt, World (next_id w) (head w) (listeners w) (settled w)
                (reactions w) (observers w) (players w) (log w ++ map f l)).
Proof.
  revert w. induction l as [|a l IH]; intros w.
  - cbn. unfold ret. rewrite app_nil_r. by destruct w.
  - cbn [for_each]. unfold bind at 1. unfold emit at 1.
    rewrite IH. cbn. by rewrite <- app_assoc.
Qed.

Lemma watch_entries_log io yes no (entries : list (node * bool)) (w : world) :
  for_each (fun e => watch_entry io yes no e.1 e.2) entries w
    = (Ok tt, World (next_id w) (head w) (listeners w) (settled w)
                (reactions w) (observers w) (players w)
                (log w ++ entry_calls io yes no entries)).
Proof.
  revert w. induction entries as [|[t b] entries IH]; intros w.
  - cbn. unfold ret. rewrite app_nil_r. by destruct w.
  - cbn [for_each]. unfold bind at 1. unfold watch_entry at 1. cbn [fst snd].
    unfold entry_calls. cbn [flat_map fst snd].
    destruct (if b then yes else no) as [f|].
    + unfold emit at 1. rewrite IH. cbn. by rewrite <- app_assoc.
    + unfold ret at 1. rewrite IH. done.
Qed.

Lemma with_threshold_lookup (t : number) (options : gmap (list N) value) :
  with_threshold t options !! str "threshold"
    = Some (default (VNum t) (options !! str "threshold")).
Proof.
  unfold with_threshold. rewrite lookup_union.
  rewrite lookup_singleton_eq. by destruct (options !! str "threshold").
Qed.

Lemma with_threshold_other (t : number) (options : gmap (list N) value) k :
  k ≠ str "threshold" -> with_threshold t options !! k = options !! k.
Proof.
  intros Hk. unfold with_threshold. rewrite lookup_union.
  rewrite lookup_singleton_ne by done. by destruct (options !! k).
Qed.

(** C9: [watchIntersection] first constructs an observer whose [threshold]
    is the one of [options] when [options] has one and 1 otherwise (the other
    options are passed on as given), then only registers targets.  When the
    browser reports entries to that observer, the handlers called are, in
    order, the enter handler for each intersecting entry and the exit handler
    for each entry that is not intersecting; an absent handler is skipped
    without any effect and without an exception. *)
Theorem C9_watch_threshold_and_handlers
    (doc : document) (targets : jsany)
    (options : option (gmap (list N) value))
    (yesHandler noHandler : option callback) (w : world) :
  world_ok w ->
  let io := next_id w in
  let w1 := (watchIntersection doc targets options yesHandler noHandler w).2 in
  (exists init rest,
      log w1 = log w ++ NewObserver io init :: rest
      /\ Forall (fun e => exists n, e = Observe io n) rest
      /\ init !! str "threshold"
         = Some (default (VNum (Num 1 0)) (options ≫= (.!! str "threshold")))
      /\ (forall k, k ≠ str "threshold" -> init !! k = default ∅ options !! k))
  /\ (forall entries,
      exists w2, deliver doc io entries w1 = (Ok tt, w2)
      /\ log w2 = log w1 ++ entry_calls io yesHandler noHandler entries).
Proof.
  intros (_ & _ & _ & Hobs) io w1.
  assert (Hfilter : filter (fun oc : observer * io_callback => oc.1 = io)
                      (observers w) = []).
  { clear w1. induction Hobs as [|oc obs Hoc _ IH]; [done|].
    rewrite filter_cons. case_decide as Hd; [exfalso; unfold io in Hd; lia | done]. }
  subst w1 io. unfold watchIntersection, new_observer, bind, fresh, add_observer,
    emit, ret. cbn [next_id head listeners settled reactions observers
    players log].
  destruct (arrayOfNodesWith doc targets) as [nodes|e] eqn:Hnodes.
  - unfold observe. rewrite for_each_emit_log. cbn. split.
    + eexists _, _. split; [by rewrite <- app_assoc|].
      split; [apply Forall_map, Forall_forall; eauto|].
      split; [|by apply with_threshold_other].
      rewrite with_threshold_lookup. by destruct options.
    + intros entries. unfold deliver, bind, get.
      cbn [observers]. rewrite filter_app, Hfilter. cbn [app].
      rewrite filter_cons. cbn [fst]. rewrite decide_True by done.
      rewrite filter_nil. cbn [for_each]. unfold bind. cbn [snd].
      rewrite watch_entries_log. cbn. eauto.
  - unfold throw. cbn. split.
    + eexists _, []. split; [done|]. split; [constructor|].
      split; [|by apply with_threshold_other].
      rewrite with_threshold_lookup. by destruct options.
    + intros entries. unfold deliver, bind, get.
      cbn [observers]. rewrite filter_app, Hfilter. cbn [app].
      rewrite filter_cons. cbn [fst]. rewrite decide_True by done.
      rewrite filter_nil. cbn [for_each]. unfold bind. cbn [snd].
      rewrite watch_entries_log. cbn. eauto.
Qed.

Lemma world_ok_initial : world_ok initial.
Proof. repeat split; constructor. Qed.

Lemma C9_watch_threshold_and_handlers_witness :
  exists init rest,
    log (watchIntersection
           (Document (fun _ => Ok []) (fun _ => None) (fun _ => None))
           (ANode 7%nat) None (Some 1%nat) None initial).2
      = NewObserver 0%nat init :: rest
    /\ init !! str "threshold" = Some (VNum (Num 1 0)).
Proof.
  destruct (C9_watch_threshold_and_handlers
              (Document (fun _ => Ok []) (fun _ => None) (fun _ => None))
              (ANode 7%nat) None (Some 1%nat) None initial world_ok_initial)
    as [(init & rest & Hlog & _ & Hthreshold & _) _].
  exists init, rest. split; [exact Hlog | exact Hthreshold].
Defined.

(** ** What can settle the promise of [preloadScript] *)

Section Frame.
Variable L : list (node * list N * listener).
Variable R : list (promise * continuation).
Variable p : promise.

Local Abbreviation keeps := (pending L R p).
Local Abbreviation preserves := (keeps_pending L R p).

Lemma preserves_ret {A} (a : A) : preserves (ret a).
Proof. by intros w H. Qed.

Lemma preserves_throw {A} e : preserves (throw (A:=A) e).
Proof. by intros w H. Qed.

Lemma preserves_get {A} (f : world -> A) : preserves (get f).
Proof. by intros w H. Qed.

Lemma preserves_emit e : preserves (emit e).
Proof. by intros w H. Qed.

Lemma preserves_fresh : preserves fresh.
Proof. by intros w H. Qed.

Lemma preserves_set_head f : preserves (set_head f).
Proof. by intros w H. Qed.

Lemma preserves_add_observer io cb : preserves (add_observer io cb).
Proof. by intros w H. Qed.

Lemma preserves_add_player t : preserves (add_player t).
Proof. by intros w H. Qed.

Lemma preserves_bind {A B} (c : M A) (k : A -> M B) :
  preserves c ->
  (forall w a, keeps w -> (c w).1 = Ok a -> preserves (k a)) ->
  preserves (bind c k).
Proof.
  intros Hc Hk w Hw. unfold bind. specialize (Hc w Hw).
  specialize (Hk w). destruct (c w) as [[a|e] w']; cbn in *; [|done].
  by apply (Hk a).
Qed.

Lemma preserves_for_each {A} (f : A -> M unit) (l : list A) :
  Forall (fun a => preserves (f a)) l -> preserves (for_each f l).
Proof.
  induction 1 as [|a l Ha _ IH]; [apply preserves_ret|].
  cbn [for_each]. apply preserves_bind; [done|]. by intros.
Qed.

Lemma preserves_settle q e : q ≠ p -> preserves (settle q e).
Proof.
  intros Hq w (HL & HR & Hp). unfold settle, bind, get.
  cbn. destruct (is_settled q w); cbn; [done|].
  repeat split; try done. by intros [?|?]%elem_of_cons.
Qed.

Hypothesis R_returns :
  Forall (fun r => match r.2 with VimeoObserve _ _ q => q ≠ p end) R.

Lemma preserves_run_continuation k :
  match k with VimeoObserve _ _ q => q ≠ p end ->
  preserves (run_continuation k).
Proof.
  destruct k as [vboxes opts q]. intros Hq. cbn.
  apply preserves_bind.
  - unfold new_observer. apply preserves_bind; [apply preserves_fresh|].
    intros. apply preserves_bind; [apply preserves_add_observer|].
    intros. apply preserves_bind; [apply preserves_emit|].
    intros. apply preserves_ret.
  - intros. apply preserves_bind; [|intros; by apply preserves_settle].
    apply preserves_for_each, Forall_forall. intros. apply preserves_emit.
Qed.

Lemma preserves_resolve q : q ≠ p -> preserves (resolve q).
Proof.
  intros Hq. unfold resolve. apply preserves_bind; [apply preserves_get|].
  intros w [] Hw _; [apply preserves_ret|].
  apply preserves_bind; [by apply preserves_settle|].
  intros. apply preserves_bind; [apply preserves_get|].
  intros w1 ks (_ & HR & _) [= <-].
  apply preserves_for_each, Forall_forall. intros pk Hpk.
  apply preserves_run_continuation.
  apply list_elem_of_filter in Hpk as [_ Hpk]. rewrite HR in Hpk.
  rewrite Forall_forall in R_returns. by apply (R_returns pk).
Qed.

Lemma preserves_run_listener l :
  match l with ScriptLoaded _ _ q => q ≠ p end -> preserves (run_listener l).
Proof.
  destruct l as [el cb q]. intros Hq. cbn.
  apply preserves_bind; [apply preserves_set_head|].
  intros. apply preserves_bind; [apply preserves_emit|].
  intros. apply preserves_bind; [|intros; by apply preserves_resolve].
  destruct cb; [apply preserves_emit | apply preserves_ret].
Qed.

Lemma preserves_dispatch target type :
  Forall (fun l => l.1 = (target, type) ->
                   match l.2 with ScriptLoaded _ _ q => q ≠ p end) L ->
  preserves (dispatch target type).
Proof.
  intros HL. unfold dispatch. apply preserves_bind; [apply preserves_get|].
  intros w ls (Hlist & _) [= <-].
  apply preserves_for_each, Forall_forall. intros l Hl.
  apply preserves_run_listener.
  apply list_elem_of_filter in Hl as [[H1 H2] Hl]. rewrite Hlist in Hl.
  rewrite Forall_forall in HL. apply (HL l Hl).
  destruct l as [[? ?] ?]. cbn in *. by subst.
Qed.

Lemma preserves_deliver doc io entries : preserves (deliver doc io entries).
Proof.
  unfold deliver. apply preserves_bind; [apply preserves_get|].
  intros w cbs _ _. apply preserves_for_each, Forall_forall.
  intros [io' [|yes no]] _; cbn [snd];
    apply preserves_for_each, Forall_forall; intros [t b] _; cbn [fst snd].
  - unfold vimeo_entry. apply preserves_bind; [apply preserves_get|].
    intros w1 has _ _. destruct b.
    + apply preserves_bind; [|intros; apply preserves_emit].
      destruct has; [apply preserves_ret|].
      apply preserves_bind; [apply preserves_add_player|].
      intros. apply preserves_bind; intros; apply preserves_emit.
    + destruct has; [apply preserves_emit | apply preserves_ret].
  - unfold watch_entry.
    destruct (if b then yes else no); [apply preserves_emit|apply preserves_ret].
Qed.

Lemma preserves_player_played doc target : preserves (player_played doc target).
Proof.
  unfold player_played. apply preserves_bind; [apply preserves_get|].
  intros w has _ _. destruct has; [|apply preserves_ret].
  destruct (parentElement doc target);
    [apply preserves_emit | apply preserves_throw].
Qed.
End Frame.

Lemma keeps_pending_step L R p doc s :
  Forall (fun r => match r.2 with VimeoObserve _ _ q => q ≠ p end) R ->
  (forall target type, s = Dispatch target type ->
     Forall (fun l => l.1 = (target, type) ->
                      match l.2 with ScriptLoaded _ _ q => q ≠ p end) L) ->
  forall w, pending L R p w -> pending L R p (step doc s w).
Proof.
  intros HR HL w Hw. destruct s as [target type|io entries|target]; cbn.
  - apply preserves_dispatch; [done | by apply HL | done].
  - by apply preserves_deliver.
  - by apply preserves_player_played.
Qed.

(** Runs the primitive operations on the world, one after the other. *)
Ltac run_world :=
  cbv beta iota delta
    [bind fresh emit add_listener add_reaction add_observer add_player
     mark_settled set_head get ret throw
     next_id head listeners settled reactions observers players log].

Lemma preloadScript_world (url : list N) (cb : option callback) (w : world) :
  preloadScript url cb w
    = (Ok (next_id w),
       World (S (S (next_id w)))
         (filter (fun n : node => n ≠ S (next_id w)) (head w) ++ [S (next_id w)])
         (listeners w
            ++ [(S (next_id w), str "load",
                 ScriptLoaded (S (next_id w)) cb (next_id w))])
         (settled w) (reactions w) (observers w) (players w)
         (log w ++ [CreateElement (str "script") (S (next_id w));
                    SetSrc (S (next_id w)) url;
                    AddEventListener (S (next_id w)) (str "load");
                    HeadAppend (S (next_id w))])).
Proof.
  unfold preloadScript. run_world. by rewrite <- !app_assoc.
Qed.

(** C7: [preloadScript] returns a pending promise.  Whatever the browser
    does next (events of any type on any element, among them an [error] on
    the script element; observer reports; player events), the promise stays
    pending as long as no [load] event reaches the script element.  When that
    event comes, its listener removes the script element from the head, then
    calls the callback if there is one, then resolves the promise, in this
    order and with no other effect. *)
Theorem C7_preload_resolves_on_load_only
    (doc : document) (url : list N) (cb : option callback) (w : world) :
  world_ok w ->
  let p := next_id w in
  let scriptEl := S (next_id w) in
  exists w1,
    preloadScript url cb w = (Ok p, w1)
    /\ (scriptEl ∈ head w1)
    /\ forall steps,
        Dispatch scriptEl (str "load") ∉ steps ->
        is_settled p (run doc steps w1) = false
        /\ exists w3,
            dispatch scriptEl (str "load") (run doc steps w1) = (Ok tt, w3)
            /\ log w3 = log (run doc steps w1)
                         ++ [Remove scriptEl]
                         ++ match cb with Some f => [Call f []] | None => [] end
                         ++ [Resolve p]
            /\ (scriptEl ∉ head w3)
            /\ is_settled p w3 = true.
Proof.
  intros (Hs & Hl & Hr & Ho) p scriptEl.
  eexists. split; [apply preloadScript_world|].
  split; [cbn [head]; apply elem_of_app; right; left|].
  set (w1 := World _ _ _ _ _ _ _ _).
  set (L := listeners w ++ [(scriptEl, str "load", ScriptLoaded scriptEl cb p)]).
  assert (HR : Forall (fun r : promise * continuation =>
                         match r.2 with VimeoObserve _ _ q => q ≠ p end)
                      (reactions w)).
  { eapply Forall_impl; [exact Hr|]. intros [q [? ? q']]; cbn. unfold p. lia. }
  assert (HL : forall target type,
             (target, type) ≠ (scriptEl, str "load") ->
             Forall (fun l : node * list N * listener =>
                       l.1 = (target, type) ->
                       match l.2 with ScriptLoaded _ _ q => q ≠ p end) L).
  { intros target type Hne. apply Forall_app. split.
    - eapply Forall_impl; [exact Hl|]. intros [[? ?] [? ? q]]; cbn.
      unfold p. lia.
    - repeat constructor. cbn. intros Heq. by destruct Hne. }
  assert (Hw1 : pending L (reactions w) p w1).
  { repeat split. cbn. intros Hin. rewrite Forall_forall in Hs.
    apply Hs in Hin. unfold p in Hin. lia. }
  intros steps Hsteps.
  assert (Hw2 : pending L (reactions w) p (run doc steps w1)).
  { unfold run. revert Hw1 Hsteps. generalize w1.
    induction steps as [|s steps IH]; intros w0 Hw0 Hsteps; [done|].
    cbn [fold_left]. apply IH.
    - apply keeps_pending_step; [done| |done].
      intros target type ->. apply HL. intros [= -> ->].
      apply Hsteps. left.
    - intros ?. apply Hsteps. by right. }
  destruct Hw2 as (HL2 & HR2 & Hp2). split; [by apply is_settled_false|].
  generalize dependent (run doc steps w1).
  intros [n2 h2 l2 s2 r2 o2 pl2 lg2] HL2 HR2 Hp2.
  cbn [listeners settled reactions] in HL2, HR2, Hp2.
  assert (Hold : filter (fun l : node * list N * listener =>
                           l.1.1 = scriptEl /\ l.1.2 = str "load")
                        (listeners w) = []).
  { clear -Hl. induction Hl as [|[[el ty] [el' cb' q]] ls Hx _ IH]; [done|].
    rewrite filter_cons. cbn [fst snd] in *. case_decide as Hd; [|done].
    exfalso. unfold scriptEl in Hd. lia. }
  assert (Hnone : filter (fun pk : promise * continuation => pk.1 = p)
                         (reactions w) = []).
  { clear -Hr. induction Hr as [|[q [? ? q']] rs Hx _ IH]; [done|].
    rewrite filter_cons. cbn [fst snd] in *. case_decide as Hd; [|done].
    exfalso. unfold p in Hd. lia. }
  assert (Hres : forall w0 : world,
             p ∉ settled w0 -> reactions w0 = reactions w ->
             resolve p w0
               = (Ok tt, World (next_id w0) (head w0) (listeners w0)
                           (p :: settled w0) (reactions w0) (observers w0)
                           (players w0) (log w0 ++ [Resolve p]))).
  { intros [n h l s r o pl lg] Hp0 HR0. cbn [settled reactions] in Hp0, HR0.
    unfold resolve, settle.
    run_world. rewrite is_settled_false by done.
    run_world. rewrite ?is_settled_false by done.
    run_world. by rewrite HR0, Hnone. }
  unfold dispatch. run_world. rewrite HL2. unfold L.
  rewrite filter_app, Hold. cbn [app]. rewrite filter_cons. cbn [fst snd].
  rewrite decide_True by done. rewrite filter_nil.
  cbn [for_each snd run_listener].
  destruct cb as [f|]; run_world; rewrite Hres by done;
    (eexists; split; [reflexivity|]; cbn [log head settled];
     split; [by rewrite <- !app_assoc|];
     split; [|apply is_settled_true; left]);
    intros Hin%list_elem_of_filter; by destruct Hin.
Qed.

Lemma C7_preload_resolves_on_load_only_witness :
  is_settled 0%nat
    (run (Document (fun _ => Ok []) (fun _ => None) (fun _ => None))
       [Dispatch 1%nat (str "error")]
       (preloadScript (str "player.js") (Some 5%nat) initial).2) = false.
Proof.
  destruct (C7_preload_resolves_on_load_only
              (Document (fun _ => Ok []) (fun _ => None) (fun _ => None))
              (str "player.js") (Some 5%nat) initial world_ok_initial)
    as (w1 & Hrun & _ & Hsteps).
  rewrite Hrun. cbn [snd next_id initial].
  apply (Hsteps [Dispatch 1%nat (str "error")]).
  intros [H|H]%elem_of_cons; [discriminate H | by apply elem_of_nil in H].
Defined.

(** ** Percent-encoding and back *)

Ltac Zify.zify_post_hook ::= Z.to_euclidean_division_equations.

(** Decides the comparisons of the goal by arithmetic. *)
Ltac decide_tests :=
  repeat match goal with
    | |- context [N.ltb ?a ?b] =>
        first [ rewrite (proj2 (N.ltb_lt a b)) by lia
              | rewrite (proj2 (N.ltb_ge a b)) by lia ]
    | |- context [N.leb ?a ?b] =>
        first [ rewrite (proj2 (N.leb_le a b)) by lia
              | rewrite (proj2 (N.leb_gt a b)) by lia ]
    | |- context [N.eqb ?a ?b] =>
        first [ rewrite (proj2 (N.eqb_eq a b)) by lia
              | rewrite (proj2 (N.eqb_neq a b)) by lia ]
    end.

Lemma hex_val_upper d : d < 16 -> hex_val (hex_upper d) = Some d.
Proof.
  intros Hd. unfold hex_upper, hex_val.
  destruct (N.ltb_spec d 10); decide_tests; cbn [andb]; f_equal; lia.
Qed.

Lemma hex_val_lower d : d < 16 -> hex_val (hex_lower d) = Some d.
Proof.
  intros Hd. unfold hex_lower, hex_val.
  destruct (N.ltb_spec d 10); decide_tests; cbn [andb]; f_equal; lia.
Qed.

Lemma unescape_pct b r :
  b < 256 ->
  unescape (pct b ++ r) = ts ← unescape r; Some (Oct b :: ts).
Proof.
  intros Hb. unfold pct. cbn [app unescape].
  rewrite N.eqb_refl.
  rewrite !hex_val_upper by lia. cbn [mbind option_bind].
  destruct (unescape r) as [ts|]; [|done]. cbn. do 3 f_equal. lia.
Qed.

Lemma unescape_lit c r :
  c ≠ ch "%" -> unescape (c :: r) = ts ← unescape r; Some (Lit c :: ts).
Proof.
  intros Hc. cbn [unescape]. by rewrite (proj2 (N.eqb_neq _ _) Hc).
Qed.

Lemma utf8_octets_bound cp :
  cp < 1114112 -> Forall (fun b => b < 256) (utf8_octets cp).
Proof.
  intros Hcp. unfold utf8_octets.
  destruct (N.ltb_spec cp 128); [repeat constructor; lia|].
  destruct (N.ltb_spec cp 2048); [repeat constructor; lia|].
  destruct (N.ltb_spec cp 65536); repeat constructor; lia.
Qed.

Lemma unescape_pct_utf8 cp r :
  cp < 1114112 ->
  unescape (pct_utf8 cp ++ r)
    = ts ← unescape r; Some (map Oct (utf8_octets cp) ++ ts).
Proof.
  intros Hcp. apply utf8_octets_bound in Hcp. unfold pct_utf8.
  induction Hcp as [|b bs Hb _ IH].
  - cbn. by destruct (unescape r).
  - cbn [map concat]. rewrite <- app_assoc, unescape_pct by done.
    rewrite IH. by destruct (unescape r).
Qed.

Lemma utf8_decode_octets cp ts :
  scalar cp ->
  utf8_decode (map Oct (utf8_octets cp) ++ ts)
    = app (utf16_units cp) <$> utf8_decode ts.
Proof.
  intros [Hmax Hsur]. unfold utf8_octets.
  destruct (N.ltb_spec cp 128).
  { cbn [map app utf8_decode]. decide_tests. unfold utf16_units.
    decide_tests. by destruct (utf8_decode ts). }
  destruct (N.ltb_spec cp 2048).
  { cbn [map app utf8_decode]. unfold is_cont. decide_tests. cbn [andb].
    replace ((192 + cp / 64 - 192) * 64 + (128 + cp mod 64 - 128)) with cp
      by lia.
    decide_tests. done. }
  destruct (N.ltb_spec cp 65536).
  { cbn [map app utf8_decode]. unfold is_cont, is_surrogate.
    decide_tests. cbn [andb].
    replace ((224 + cp / 4096 - 224) * 4096 + (128 + cp / 64 mod 64 - 128) * 64
             + (128 + cp mod 64 - 128)) with cp by lia.
    decide_tests. cbn [andb negb].
    destruct (N.leb_spec 55296 cp); cbn [andb negb]; [|done].
    decide_tests. done. }
  cbn [map app utf8_decode]. unfold is_cont. decide_tests. cbn [andb].
  replace ((240 + cp / 262144 - 240) * 262144
           + (128 + cp / 4096 mod 64 - 128) * 4096
           + (128 + cp / 64 mod 64 - 128) * 64 + (128 + cp mod 64 - 128))
    with cp by lia.
  decide_tests. done.
Qed.

(** Replaces the character constants by their code units. *)
Ltac eval_chars :=
  repeat match goal with
    | |- context [ch ?a] =>
        let v := eval vm_compute in (ch a) in change (ch a) with v
    | H : context [ch ?a] |- _ =>
        let v := eval vm_compute in (ch a) in change (ch a) with v in H
    end.

Lemma unreserved_ascii c : unreserved c = true -> 32 < c < 128 /\ c ≠ 37.
Proof.
  unfold unreserved, is_alnum. cbn [existsb]. eval_chars.
  rewrite !orb_true_iff, !andb_true_iff, !N.leb_le, !N.eqb_eq. lia.
Qed.

Lemma surrogate_pair_units c c2 :
  is_lead c = true -> is_trail c2 = true ->
  scalar (65536 + (c - 55296) * 1024 + (c2 - 56320))
  /\ utf16_units (65536 + (c - 55296) * 1024 + (c2 - 56320)) = [c; c2].
Proof.
  unfold is_lead, is_trail, scalar, utf16_units.
  rewrite !andb_true_iff, !N.leb_le. intros [? ?] [? ?].
  split; [lia|]. decide_tests. f_equal; [|f_equal]; lia.
Qed.

Lemma encode_decode_tokens s :
  well_formed_utf16 s = true ->
  exists e ts,
    encode s = Some e /\ unescape e = Some ts /\ utf8_decode ts = Some s.
Proof.
  induction s as [s IH] using (induction_ltof1 _ length). unfold ltof in IH.
  destruct s as [|c r]; intros Hwf.
  { by exists [], []. }
  cbn [well_formed_utf16] in Hwf. cbn [encode].
  destruct (unreserved c) eqn:Hu.
  - apply unreserved_ascii in Hu as Hc.
    assert (Hl : is_lead c = false)
      by (unfold is_lead; decide_tests; done).
    assert (Ht : is_trail c = false)
      by (unfold is_trail; decide_tests; done).
    rewrite Hl, Ht in Hwf. apply andb_true_iff in Hwf as [_ Hwf].
    destruct (IH r) as (e & ts & He & Hts & Hs); [cbn; lia | done |].
    exists (c :: e), (Lit c :: ts). rewrite He. split; [done|].
    rewrite unescape_lit by (eval_chars; lia). rewrite Hts.
    split; [done|]. cbn [utf8_decode]. by rewrite Hs.
  - destruct (is_lead c) eqn:Hl.
    + destruct r as [|c2 r']; [done|].
      apply andb_true_iff in Hwf as [Ht Hwf]. rewrite Ht.
      destruct (IH r') as (e & ts & He & Hts & Hs); [cbn; lia | done |].
      destruct (surrogate_pair_units c c2 Hl Ht) as [Hsc Hunits].
      eexists _, _. rewrite He. split; [reflexivity|].
      rewrite unescape_pct_utf8 by apply Hsc. rewrite Hts.
      split; [reflexivity|].
      rewrite utf8_decode_octets by done. rewrite Hs, Hunits. done.
    + destruct (is_trail c) eqn:Ht; [done|].
      apply andb_true_iff in Hwf as [Hc Hwf]. apply N.ltb_lt in Hc.
      destruct (IH r) as (e & ts & He & Hts & Hs); [cbn; lia | done |].
      assert (Hsc : scalar c).
      { unfold is_lead, is_trail in Hl, Ht. unfold scalar.
        rewrite andb_false_iff, !N.leb_gt in Hl, Ht. lia. }
      eexists _, _. rewrite He. split; [reflexivity|].
      rewrite unescape_pct_utf8 by apply Hsc. rewrite Hts.
      split; [reflexivity|].
      rewrite utf8_decode_octets by done. rewrite Hs.
      unfold utf16_units. decide_tests. done.
Qed.


(** ** Decimal digits *)

Lemma digits_value_snoc ds d :
  digits_value (ds ++ [d]) = 10 * digits_value ds + d.
Proof. unfold digits_value. by rewrite fold_left_app. Qed.

Lemma digits_value_app ds1 ds2 :
  digits_value (ds1 ++ ds2)
    = digits_value ds1 * 10 ^ N.of_nat (length ds2) + digits_value ds2.
Proof.
  induction ds2 as [|d ds2 IH] using rev_ind.
  - rewrite app_nil_r. cbn [length]. change (digits_value []) with 0.
    change (N.of_nat 0) with 0. rewrite N.pow_0_r. lia.
  - rewrite app_assoc, !digits_value_snoc, IH, length_app. cbn [length].
    replace (N.of_nat (length ds2 + 1)) with (N.succ (N.of_nat (length ds2)))
      by lia.
    rewrite N.pow_succ_r'. lia.
Qed.

Lemma digits_value_zeros j ds :
  digits_value (replicate j 0 ++ ds) = digits_value ds.
Proof.
  induction j as [|j IH]; [done|]. cbn [replicate app].
  unfold digits_value in *. cbn [fold_left]. exact IH.
Qed.

Lemma digits_of_fuel_S fuel n :
  digits_of_fuel (S fuel) n
    = if n <? 10 then [n] else digits_of_fuel fuel (n / 10) ++ [n mod 10].
Proof. reflexivity. Qed.

Lemma digits_of_fuel_spec fuel : forall n,
  n < 2 ^ N.of_nat (S fuel) ->
  let ds := digits_of_fuel (S fuel) n in
  digits_value ds = n
  /\ Forall (fun d => d < 10) ds
  /\ last ds = Some (n mod 10)
  /\ (0 < n -> exists d r, ds = d :: r /\ d ≠ 0).
Proof.
  induction fuel as [|fuel IH]; intros n Hn; cbn zeta;
    rewrite digits_of_fuel_S; destruct (N.ltb_spec n 10) as [Hlt|Hge].
  - repeat split.
    + repeat constructor. done.
    + cbn. f_equal. lia.
    + intros Hpos. exists n, []. split; [done | lia].
  - cbn in Hn. lia.
  - repeat split.
    + repeat constructor. done.
    + cbn. f_equal. lia.
    + intros Hpos. exists n, []. split; [done | lia].
  - assert (Hdiv : n / 10 < 2 ^ N.of_nat (S fuel)).
    { replace (N.of_nat (S (S fuel))) with (N.succ (N.of_nat (S fuel))) in Hn
        by lia.
      rewrite N.pow_succ_r' in Hn. lia. }
    destruct (IH _ Hdiv) as (Hv & Hall & Hlast & Hhead).
    repeat split.
    + rewrite digits_value_snoc, Hv. lia.
    + apply Forall_app. split; [done|]. repeat constructor. lia.
    + by rewrite last_snoc.
    + intros _. destruct Hhead as (d & r & Heq & Hd); [lia|].
      rewrite Heq. exists d, (r ++ [n mod 10]). done.
Qed.

Lemma digits_of_spec n :
  digits_value (digits_of n) = n
  /\ Forall (fun d => d < 10) (digits_of n)
  /\ last (digits_of n) = Some (n mod 10)
  /\ (0 < n -> exists d r, digits_of n = d :: r /\ d ≠ 0).
Proof.
  apply digits_of_fuel_spec.
  destruct (N.eq_dec n 0) as [->|Hn]; [done|].
  replace (N.of_nat (S (N.to_nat (N.log2 n)))) with (N.succ (N.log2 n)) by lia.
  apply N.log2_spec. lia.
Qed.

Lemma strip_keeps ds d :
  last ds = Some d -> d ≠ 0 -> strip_trailing_zeros ds = ds.
Proof.
  induction ds as [|a ds IH]; [done|]. intros Hlast Hd.
  cbn [strip_trailing_zeros]. destruct ds as [|b ds].
  - cbn in *. injection Hlast as ->.
    by rewrite (proj2 (N.eqb_neq _ _) Hd).
  - rewrite last_cons_cons in Hlast. rewrite IH by done. done.
Qed.

Lemma strip_zeros j : strip_trailing_zeros (replicate j 0) = [].
Proof. induction j as [|j IH]; [done|]. cbn. by rewrite IH. Qed.

Lemma strip_app_zeros ds d j :
  last ds = Some d -> d ≠ 0 ->
  strip_trailing_zeros (ds ++ replicate j 0) = ds.
Proof.
  induction ds as [|a ds IH]; [done|]. intros Hlast Hd.
  cbn [app strip_trailing_zeros]. destruct ds as [|b ds].
  - cbn [app] in *. injection Hlast as ->. rewrite strip_zeros.
    by rewrite (proj2 (N.eqb_neq _ _) Hd).
  - rewrite last_cons_cons in Hlast. rewrite IH by done. done.
Qed.

(** [make_number] on digits whose last one is not zero, up to [j] zeros
    written after them. *)
Lemma make_number_digits neg ds d j e :
  last ds = Some d -> d ≠ 0 ->
  make_number neg (ds ++ replicate j 0) e
    = Num (if neg then - Z.of_N (digits_value ds) else Z.of_N (digits_value ds))
          (e + Z.of_nat j).
Proof.
  intros Hlast Hd. unfold make_number. rewrite (strip_app_zeros ds d) by done.
  assert (Hpos : 0 < digits_value ds).
  { destruct ds as [|a ds] using rev_ind; [done|].
    rewrite last_snoc in Hlast. injection Hlast as ->.
    rewrite digits_value_snoc. lia. }
  rewrite (proj2 (Z.eqb_neq _ 0)) by lia.
  f_equal. rewrite length_app, length_replicate. lia.
Qed.

(** ** Reading back a printed number *)

Lemma number_end_no_digit rest : number_end rest -> no_digit rest.
Proof. destruct rest; [done|]. by intros [? _]. Qed.

Lemma take_digits_chars ds rest :
  Forall (fun d => d < 10) ds -> no_digit rest ->
  take_digits (digit_chars ds ++ rest) = (ds, rest).
Proof.
  intros Hds Hrest. induction Hds as [|d ds Hd _ IH].
  - destruct rest as [|c rest]; [done|]. cbn in *. by rewrite Hrest.
  - cbn [digit_chars map app take_digits]. unfold is_digit. decide_tests.
    cbn [andb]. fold (digit_chars ds). rewrite IH. f_equal. f_equal. lia.
Qed.

Lemma no_digit_cons c rest : is_digit c = false -> no_digit (c :: rest).
Proof. done. Qed.

Lemma parse_int_part_chars d ds rest :
  Forall (fun d => d < 10) (d :: ds) -> (ds ≠ [] -> d ≠ 0) -> no_digit rest ->
  parse_int_part (digit_chars (d :: ds) ++ rest) = Some (d :: ds, rest).
Proof.
  intros Hds Hd Hrest. unfold parse_int_part.
  rewrite take_digits_chars by done. destruct ds as [|d' ds]; [done|].
  rewrite (proj2 (N.eqb_neq d 0)); [done|]. by apply Hd.
Qed.

Lemma parse_frac_part_chars fs rest :
  fs ≠ [] -> Forall (fun d => d < 10) fs -> no_digit rest ->
  parse_frac_part (ch "." :: digit_chars fs ++ rest) = Some (fs, rest).
Proof.
  intros Hne Hfs Hrest. unfold parse_frac_part. rewrite N.eqb_refl.
  rewrite take_digits_chars by done. by destruct fs.
Qed.

Lemma parse_frac_part_none rest :
  match rest with [] => True | c :: _ => c ≠ ch "." end ->
  parse_frac_part rest = Some ([], rest).
Proof.
  destruct rest as [|c rest]; [done|]. intros Hc. unfold parse_frac_part.
  by rewrite (proj2 (N.eqb_neq _ _) Hc).
Qed.

Lemma parse_exp_part_none rest :
  match rest with [] => True | c :: _ => c ≠ ch "e" /\ c ≠ ch "E" end ->
  parse_exp_part rest = Some (0%Z, rest).
Proof.
  destruct rest as [|c rest]; [done|]. intros [H1 H2]. unfold parse_exp_part.
  by rewrite (proj2 (N.eqb_neq _ _) H1), (proj2 (N.eqb_neq _ _) H2).
Qed.

Lemma digits_of_nonempty n : digits_of n ≠ [].
Proof.
  destruct (digits_of_spec n) as (_ & _ & Hlast & _).
  intros E. by rewrite E in Hlast.
Qed.

Lemma parse_exp_part_chars (e : Z) rest :
  no_digit rest ->
  parse_exp_part
    (ch "e" :: (if (e <? 0)%Z then ch "-" else ch "+")
       :: digit_chars (digits_of (Z.abs_N e)) ++ rest) = Some (e, rest).
Proof.
  intros Hrest. unfold parse_exp_part. rewrite N.eqb_refl. cbn [orb].
  destruct (digits_of_spec (Z.abs_N e)) as (Hv & Hall & _ & _).
  pose proof (digits_of_nonempty (Z.abs_N e)) as Hne.
  destruct (Z.ltb_spec e 0).
  - rewrite N.eqb_refl. rewrite take_digits_chars by done.
    destruct (digits_of (Z.abs_N e)); [done|]. rewrite Hv. f_equal. f_equal.
    lia.
  - replace (ch "+" =? ch "-") with false by done. rewrite N.eqb_refl.
    rewrite take_digits_chars by done.
    destruct (digits_of (Z.abs_N e)); [done|]. rewrite Hv. f_equal. f_equal.
    lia.
Qed.

Lemma digit_chars_app ds1 ds2 :
  digit_chars (ds1 ++ ds2) = digit_chars ds1 ++ digit_chars ds2.
Proof. apply map_app. Qed.

Lemma digit_chars_zeros j : replicate j (ch "0") = digit_chars (replicate j 0).
Proof. induction j as [|j IH]; [done|]. cbn. by rewrite IH. Qed.

Lemma Forall_digit_zeros j : Forall (fun d => d < 10) (replicate j 0).
Proof. induction j; constructor; [lia | done]. Qed.

Lemma last_app_nonempty {A} (l1 l2 : list A) x :
  last l2 = Some x -> last (l1 ++ l2) = Some x.
Proof. intros H. rewrite last_app, H. done. Qed.

Lemma make_number_exact neg ds d e :
  last ds = Some d -> d ≠ 0 ->
  make_number neg ds e
    = Num (if neg then - Z.of_N (digits_value ds) else Z.of_N (digits_value ds))
          e.
Proof.
  intros Hlast Hd.
  pose proof (make_number_digits neg ds d 0 e Hlast Hd) as H.
  cbn [replicate] in H. rewrite app_nil_r in H. rewrite H. f_equal. lia.
Qed.

Lemma parse_unsigned_digits neg a n rest :
  0 < a -> a mod 10 ≠ 0 -> number_end rest ->
  parse_unsigned neg (digits_to_string (digits_of a) n ++ rest)
    = Some (Num (if neg then - Z.of_N a else Z.of_N a)
                (n - Z.of_nat (length (digits_of a))), rest).
Proof.
  intros Ha Hmod Hrest.
  destruct (digits_of_spec a) as (Hv & Hall & Hlast & Hhead).
  destruct (Hhead Ha) as (d & r & Hds & Hd). clear Hhead.
  assert (Hnd : no_digit rest) by by apply number_end_no_digit.
  assert (Hnf : match rest with [] => True | c :: _ => c ≠ ch "." end)
    by (destruct rest; [done | apply Hrest]).
  assert (Hne : match rest with
                | [] => True | c :: _ => c ≠ ch "e" /\ c ≠ ch "E" end)
    by (destruct rest; [done | split; apply Hrest]).
  unfold digits_to_string, parse_unsigned. cbn zeta.
  set (ds := digits_of a) in *. set (k := Z.of_nat (length ds)).
  assert (Hd10 : d < 10) by (rewrite Hds in Hall; by inversion Hall).
  assert (Hr10 : Forall (fun d => d < 10) r)
    by (rewrite Hds in Hall; by inversion Hall).
  destruct ((k <=? n)%Z && (n <=? 21)%Z) eqn:C1.
  { (* digits followed by zeros *)
    apply andb_true_iff in C1 as [C1 _]. apply Z.leb_le in C1.
    rewrite digit_chars_zeros, <- digit_chars_app. rewrite Hds.
    cbn [app]. rewrite parse_int_part_chars; first last.
    - done.
    - done.
    - constructor; [done|].
      apply Forall_app. split; [done | apply Forall_digit_zeros].
    - cbn [mbind option_bind]. rewrite parse_frac_part_none by done.
      cbn [mbind option_bind]. rewrite parse_exp_part_none by done.
      cbn [mbind option_bind]. rewrite app_nil_r.
      change (d :: r ++ replicate ?j 0) with ((d :: r) ++ replicate j 0).
      rewrite <- Hds. rewrite (make_number_digits _ _ (a mod 10)) by done.
      rewrite Hv. do 3 f_equal. subst k. cbn [length]. lia. }
  destruct ((0 <? n)%Z && (n <=? 21)%Z) eqn:C2.
  { (* a decimal point among the digits *)
    apply andb_true_iff in C2 as [C2 C2']. apply Z.ltb_lt in C2.
    apply Z.leb_le in C2'.
    apply andb_false_iff in C1 as [C1|C1];
      [apply Z.leb_gt in C1 | apply Z.leb_gt in C1; lia].
    unfold digit_chars. rewrite firstn_map, skipn_map.
    fold (digit_chars (take (Z.to_nat n) ds)).
    fold (digit_chars (drop (Z.to_nat n) ds)).
    rewrite <- app_assoc. cbn [app].
    assert (Htake : take (Z.to_nat n) ds
                    = d :: take (Z.to_nat n - 1) r).
    { rewrite Hds. destruct (Z.to_nat n) as [|j] eqn:E; [lia|].
      cbn. by rewrite Nat.sub_0_r. }
    rewrite Htake. rewrite parse_int_part_chars; first last.
    - by apply no_digit_cons.
    - done.
    - rewrite <- Htake. by apply Forall_take.
    - cbn [mbind option_bind]. rewrite parse_frac_part_chars; first last.
      + done.
      + by apply Forall_drop.
      + intros E. apply (f_equal length) in E. rewrite length_drop in E.
        cbn [length] in E. subst k. lia.
      + cbn [mbind option_bind]. rewrite parse_exp_part_none by done.
        cbn [mbind option_bind]. rewrite <- Htake, take_drop.
        rewrite (make_number_exact _ _ (a mod 10)) by done.
        rewrite Hv. do 3 f_equal. subst k. rewrite length_drop. lia. }
  destruct ((-6 <? n)%Z && (n <=? 0)%Z) eqn:C3.
  { (* zeros between the point and the digits *)
    apply andb_true_iff in C3 as [_ C3]. apply Z.leb_le in C3.
    change (str "0.") with (digit_chars [0] ++ [ch "."]).
    rewrite <- !app_assoc. cbn [app].
    rewrite parse_int_part_chars; first last.
    - by apply no_digit_cons.
    - done.
    - by repeat constructor.
    - cbn [mbind option_bind].
      rewrite digit_chars_zeros, app_assoc, <- digit_chars_app.
      rewrite parse_frac_part_chars; first last.
      + done.
      + apply Forall_app. split; [apply Forall_digit_zeros | done].
      + intros E. apply app_eq_nil in E as [_ E]. by rewrite Hds in E.
      + cbn [mbind option_bind]. rewrite parse_exp_part_none by done.
        cbn [mbind option_bind].
        change ([0] ++ replicate ?j 0 ++ ds)
          with (replicate (S j) 0 ++ ds).
        rewrite (make_number_exact _ _ (a mod 10));
          [|by apply last_app_nonempty|done].
        rewrite digits_value_zeros, Hv. do 3 f_equal. subst k.
        rewrite length_app, length_replicate. lia. }
  (* exponent notation *)
  rewrite Hds. cbn [digit_chars map]. fold (digit_chars r).
  destruct r as [|d2 r].
  - cbn [digit_chars map app].
    change (48 + d :: ?x) with (digit_chars [d] ++ x).
    rewrite parse_int_part_chars; first last.
    + by apply no_digit_cons.
    + done.
    + by repeat constructor.
    + cbn [mbind option_bind]. rewrite parse_frac_part_none by done.
      cbn [mbind option_bind]. rewrite parse_exp_part_chars by done.
      cbn [mbind option_bind]. rewrite app_nil_r.
      rewrite (make_number_exact _ _ (a mod 10)); [|by rewrite <- Hds|done].
      rewrite <- Hds, Hv. do 3 f_equal. subst k. rewrite Hds. cbn. lia.
  - cbn [digit_chars map app]. fold (digit_chars r).
    rewrite <- app_assoc. cbn [app].
    change (48 + d :: ch "." :: 48 + d2 :: ?x)
      with (digit_chars [d] ++ ch "." :: digit_chars [d2] ++ x).
    rewrite (app_assoc (digit_chars [d2])), <- digit_chars_app. cbn [app].
    rewrite parse_int_part_chars; first last.
    + by apply no_digit_cons.
    + done.
    + by repeat constructor.
    + cbn [mbind option_bind]. rewrite parse_frac_part_chars; first last.
      * by apply no_digit_cons.
      * done.
      * done.
      * cbn [mbind option_bind]. rewrite parse_exp_part_chars by done.
        cbn [mbind option_bind]. cbn [app]. rewrite <- Hds.
        rewrite (make_number_exact _ _ (a mod 10)) by done.
        rewrite Hv. do 3 f_equal. subst k. rewrite Hds. cbn [length]. lia.
Qed.

Lemma digits_to_string_head ds n :
  ds ≠ [] -> Forall (fun d => d < 10) ds ->
  exists c tail, digits_to_string ds n = c :: tail /\ is_digit c = true.
Proof.
  intros Hne Hall. destruct ds as [|d r]; [done|].
  assert (Hd : is_digit (48 + d) = true).
  { inversion Hall; subst. unfold is_digit. decide_tests. done. }
  unfold digits_to_string. cbn zeta. cbn [digit_chars map].
  destruct ((Z.of_nat _ <=? n)%Z && _).
  { cbn [app]. eexists _, _. split; [reflexivity | exact Hd]. }
  destruct ((0 <? n)%Z && _) eqn:C2.
  { apply andb_true_iff in C2 as [C2 _]. apply Z.ltb_lt in C2.
    destruct (Z.to_nat n) eqn:E; [lia|].
    cbn [take app]. eexists _, _. split; [reflexivity | exact Hd]. }
  destruct ((-6 <? n)%Z && _).
  { cbn [str app]. eexists _, _. split; [reflexivity | done]. }
  destruct r; eexists _, _; (split; [reflexivity | exact Hd]).
Qed.

(** [JSON.parse] reads a printed number back. *)
Lemma parse_number_to_string x rest :
  normal x -> number_end rest ->
  parse_number (number_to_string x ++ rest) = Some (x, rest).
Proof.
  destruct x as [m e]. intros [Hzero Hmod] Hrest. cbn [mantissa exponent] in *.
  unfold number_to_string. cbn [mantissa exponent].
  destruct (Z.eqb_spec m 0) as [->|Hm].
  - rewrite Hzero by done. cbn [str app]. unfold parse_number.
    replace (ch "0" =? ch "-") with false by done.
    unfold parse_unsigned.
    change (ch "0" :: rest) with (digit_chars [0] ++ rest).
    rewrite parse_int_part_chars; first last.
    + by apply number_end_no_digit.
    + done.
    + by repeat constructor.
    + cbn [mbind option_bind]. rewrite parse_frac_part_none
        by (destruct rest; [done | apply Hrest]).
      cbn [mbind option_bind]. rewrite parse_exp_part_none
        by (destruct rest; [done | split; apply Hrest]).
      done.
  - specialize (Hmod Hm).
    assert (Ha : 0 < Z.abs_N m) by lia.
    assert (Hamod : Z.abs_N m mod 10 ≠ 0) by lia.
    destruct (digits_of_spec (Z.abs_N m)) as (_ & Hall & _ & _).
    destruct (digits_to_string_head (digits_of (Z.abs_N m))
                (Z.of_nat (length (digits_of (Z.abs_N m))) + e)
                (digits_of_nonempty _) Hall) as (c & tail & Hbody & Hc).
    destruct (Z.ltb_spec m 0).
    + cbn [app]. unfold parse_number. rewrite N.eqb_refl.
      rewrite parse_unsigned_digits by done. do 3 f_equal; lia.
    + unfold parse_number. rewrite Hbody. cbn [app].
      assert (Hneq : (c =? ch "-") = false).
      { apply N.eqb_neq. intros ->. done. }
      rewrite Hneq. change (c :: tail ++ rest) with ((c :: tail) ++ rest).
      rewrite <- Hbody.
      rewrite parse_unsigned_digits by done. do 3 f_equal; lia.
Qed.

(** ** Reading back a quoted string *)

Lemma parse_chars_plain c rest :
  32 <= c -> c ≠ dquote -> c ≠ ch "\" ->
  parse_chars (c :: rest)
    = '(cs, r) ← parse_chars rest; Some (c :: cs, r).
Proof.
  intros H1 H2 H3. cbn [parse_chars].
  rewrite (proj2 (N.eqb_neq _ _) H2), (proj2 (N.eqb_neq _ _) H3).
  by rewrite (proj2 (N.ltb_ge _ _) H1).
Qed.

Lemma parse_chars_unicode_escape c rest :
  c < 65536 ->
  parse_chars (unicode_escape c ++ rest)
    = '(cs, r) ← parse_chars rest; Some (c :: cs, r).
Proof.
  intros Hc. unfold unicode_escape. cbn [app parse_chars].
  replace (ch "\" =? dquote) with false by done.
  rewrite !N.eqb_refl. rewrite !hex_val_lower by lia.
  cbn [mbind option_bind].
  destruct (parse_chars rest) as [[cs r]|]; [|done]. cbn.
  do 3 f_equal. lia.
Qed.

Lemma short_escape_inverse c e :
  short_escape c = Some e ->
  (e =? ch "u") = false /\ simple_escape e = Some c.
Proof.
  unfold short_escape. eval_chars.
  repeat match goal with
    | |- context [c =? ?k] =>
        destruct (N.eqb_spec c k) as [->|?];
        [intros [= <-]; split; reflexivity|]
    end.
  done.
Qed.

Lemma short_escape_none c :
  short_escape c = None -> c ≠ dquote /\ c ≠ ch "\".
Proof.
  unfold short_escape. eval_chars. unfold dquote.
  repeat match goal with
    | |- context [c =? ?k] => destruct (N.eqb_spec c k) as [->|?]; [done|]
    end.
  intros _. split; [done | eval_chars; done].
Qed.

Lemma parse_chars_quote_chars s : forall rest,
  Forall code_unit s ->
  parse_chars (quote_chars s ++ dquote :: rest) = Some (s, rest).
Proof.
  induction s as [s IH] using (induction_ltof1 _ length). unfold ltof in IH.
  intros rest Hs. destruct s as [|c r].
  { reflexivity. }
  inversion Hs as [|? ? Hc Hr]; subst. unfold code_unit in Hc.
  cbn [quote_chars]. destruct (short_escape c) as [e|] eqn:Hse.
  - apply short_escape_inverse in Hse as [Hu Hsimple].
    cbn [app parse_chars].
    replace (ch "\" =? dquote) with false by done. rewrite N.eqb_refl.
    rewrite Hu, Hsimple. cbn [mbind option_bind].
    rewrite IH by (done || cbn; lia). done.
  - apply short_escape_none in Hse as [Hq Hb].
    destruct (N.ltb_spec c 32) as [Hlt|Hge].
    { rewrite <- app_assoc, parse_chars_unicode_escape by done.
      rewrite IH by (done || cbn; lia). done. }
    destruct (is_lead c) eqn:Hl.
    + destruct r as [|c2 r'].
      * rewrite parse_chars_unicode_escape by done. reflexivity.
      * destruct (is_trail c2) eqn:Ht.
        -- cbn [app]. rewrite parse_chars_plain by done.
           unfold is_trail in Ht. apply andb_true_iff in Ht as [Ht _].
           apply N.leb_le in Ht.
           rewrite parse_chars_plain; [| lia | unfold dquote; lia
                                       | eval_chars; lia].
           inversion Hr; subst.
           rewrite IH by (done || cbn; lia). done.
        -- rewrite <- app_assoc, parse_chars_unicode_escape by done.
           rewrite IH by (done || cbn; lia). done.
    + destruct (is_trail c).
      * rewrite <- app_assoc, parse_chars_unicode_escape by done.
        rewrite IH by (done || cbn; lia). done.
      * cbn [app]. rewrite parse_chars_plain by done.
        rewrite IH by (done || cbn; lia). done.
Qed.

(** ** Reading back a JSON text *)

(** Induction on values, with the hypothesis for every element of an array
    and every member of an object. *)
Lemma value_induction (P : value -> Prop) :
  P VUndefined -> P VNull -> (forall b, P (VBool b)) ->
  (forall n, P (VNum n)) -> (forall s, P (VStr s)) ->
  (forall vs, Forall P vs -> P (VArr vs)) ->
  (forall ps, Forall (fun kx => P kx.2) ps -> P (VObj ps)) ->
  forall v, P v.
Proof.
  intros Hu Hn Hb Hnum Hs Ha Ho.
  fix IH 1. intros [| |b|n|s|vs|ps].
  - exact Hu.
  - exact Hn.
  - apply Hb.
  - apply Hnum.
  - apply Hs.
  - apply Ha. induction vs as [|x vs IHvs]; constructor; [apply IH | done].
  - apply Ho. induction ps as [|[k x] ps IHps]; constructor;
      [apply IH | done].
Qed.

Lemma json_ok_arr vs : json_ok (VArr vs) <-> Forall json_ok vs.
Proof.
  induction vs as [|x vs IH]; cbn [json_ok].
  - split; [constructor | done].
  - cbn [json_ok] in IH. rewrite IH. split.
    + intros [? ?]. by constructor.
    + by inversion 1.
Qed.

Lemma json_ok_obj ps :
  json_ok (VObj ps)
  <-> NoDup ps.*1
      /\ Forall (fun kx => Forall code_unit kx.1 /\ json_ok kx.2) ps.
Proof.
  cbn [json_ok]. apply and_iff_compat_l.
  induction ps as [|[k x] ps IH].
  - split; [constructor | done].
  - rewrite IH. split.
    + intros (? & ? & ?). by constructor.
    + by inversion 1 as [|? ? [? ?] ?].
Qed.

Lemma serialize_arr vs :
  serialize (VArr vs)
    = Some (ch "[" :: join_with (ch ",") (item_texts vs) ++ [ch "]"]).
Proof.
  reflexivity.
Qed.

Lemma serialize_obj ps :
  serialize (VObj ps)
    = Some (ch "{" :: join_with (ch ",") (member_texts ps) ++ [ch "}"]).
Proof.
  reflexivity.
Qed.

Lemma json_ok_serialize v : json_ok v -> exists t, serialize v = Some t.
Proof.
  intros H. destruct v; [destruct H | by eexists ..].
Qed.

Lemma is_digit_opens c : is_digit c = true -> opens c.
Proof.
  unfold is_digit, opens, is_ws. eval_chars.
  rewrite andb_true_iff, !N.leb_le. intros [? ?].
  decide_tests. repeat split; try done; lia.
Qed.

Lemma number_to_string_head x :
  exists c t, number_to_string x = c :: t
              /\ (c = ch "-" \/ is_digit c = true).
Proof.
  unfold number_to_string. destruct (mantissa x =? 0)%Z.
  { eexists _, _. split; [reflexivity | by right]. }
  destruct (digits_of_spec (Z.abs_N (mantissa x))) as (_ & Hall & _ & _).
  destruct (digits_to_string_head (digits_of (Z.abs_N (mantissa x)))
              (Z.of_nat (length (digits_of (Z.abs_N (mantissa x))))
               + exponent x)
              (digits_of_nonempty _) Hall) as (c & tail & Hbody & Hc).
  cbn zeta. rewrite Hbody. destruct (mantissa x <? 0)%Z.
  - eexists _, _. split; [reflexivity | by left].
  - eexists _, _. split; [reflexivity | by right].
Qed.

Lemma serialize_head v t :
  serialize v = Some t -> exists c t', t = c :: t' /\ opens c.
Proof.
  destruct v as [| |[]|n|s|vs|ps]; cbn [serialize]; intros [= <-];
    try (eexists _, _; split; [reflexivity | by vm_compute]).
  destruct (number_to_string_head n) as (c & t & Heq & [Hc|Hc]);
    rewrite Heq; eexists _, _; (split; [reflexivity|]).
  - rewrite Hc. by vm_compute.
  - by apply is_digit_opens.
Qed.

Lemma skip_ws_opens c r : is_ws c = false -> skip_ws (c :: r) = c :: r.
Proof. intros H. cbn [skip_ws]. by rewrite H. Qed.

Lemma value_end_number_end rest : value_end rest -> number_end rest.
Proof.
  destruct rest as [|c rest]; [done|].
  intros [Hc|[Hc|Hc]]; rewrite Hc; by vm_compute.
Qed.

Lemma obj_set_fresh k v acc :
  k ∉ acc.*1 -> obj_set k v acc = acc ++ [(k, v)].
Proof.
  induction acc as [|[k' v'] acc IH]; [done|]. intros Hk.
  rewrite fmap_cons in Hk. cbn [fst] in Hk. cbn [obj_set app].
  rewrite decide_False by (intros ->; apply Hk; left).
  rewrite IH; [done|]. intros ?. apply Hk. by right.
Qed.

Lemma vsize_arr_cons x vs :
  vsize (VArr (x :: vs)) = S (vsize x + vsize (VArr vs)).
Proof. cbn [vsize]. lia. Qed.

Lemma vsize_obj_cons k x ps :
  vsize (VObj ((k, x) :: ps)) = S (vsize x + vsize (VObj ps)).
Proof. cbn [vsize]. lia. Qed.

Lemma vsize_pos v : (1 <= vsize v)%nat.
Proof. destruct v; cbn [vsize]; lia. Qed.

Lemma parse_value_step fuel c r :
  is_ws c = false ->
  parse_value (S fuel) (c :: r) =
    if c =? dquote then
      '(cs, rest) ← parse_chars r; Some (VStr cs, rest)
    else if c =? ch "[" then
      match skip_ws r with
      | [] => None
      | c' :: r' =>
          if c' =? ch "]" then Some (VArr [], r')
          else '(vs, rest) ← parse_elements fuel r; Some (VArr vs, rest)
      end
    else if c =? ch "{" then
      match skip_ws r with
      | [] => None
      | c' :: r' =>
          if c' =? ch "}" then Some (VObj [], r')
          else '(ps, rest) ← parse_members fuel [] r; Some (VObj ps, rest)
      end
    else if c =? ch "t" then
      rest ← strip_prefix (str "rue") r; Some (VBool true, rest)
    else if c =? ch "f" then
      rest ← strip_prefix (str "alse") r; Some (VBool false, rest)
    else if c =? ch "n" then
      rest ← strip_prefix (str "ull") r; Some (VNull, rest)
    else
      '(n, rest) ← parse_number (c :: r); Some (VNum n, rest).
Proof.
  intros Hws. cbn [parse_value]. rewrite skip_ws_opens by done. reflexivity.
Qed.

Lemma parse_elements_step fuel s :
  parse_elements (S fuel) s =
    '(v, r) ← parse_value fuel s;
    match skip_ws r with
    | [] => None
    | c :: r' =>
        if c =? ch "," then
          '(vs, rest) ← parse_elements fuel r'; Some (v :: vs, rest)
        else if c =? ch "]" then Some ([v], r')
        else None
    end.
Proof. reflexivity. Qed.

Lemma parse_members_step fuel acc s :
  parse_members (S fuel) acc s =
    match skip_ws s with
    | [] => None
    | q :: r =>
        if q =? dquote then
          '(k, r1) ← parse_chars r;
          match skip_ws r1 with
          | [] => None
          | c :: r2 =>
              if c =? ch ":" then
                '(v, r3) ← parse_value fuel r2;
                let acc' := obj_set k v acc in
                match skip_ws r3 with
                | [] => None
                | d :: r4 =>
                    if d =? ch "," then parse_members fuel acc' r4
                    else if d =? ch "}" then Some (acc', r4)
                    else None
                end
              else None
          end
        else None
    end.
Proof. reflexivity. Qed.

Lemma parse_elements_items vs :
  Forall reads_back vs -> vs ≠ [] ->
  forall fuel rest,
    (vsize (VArr vs) <= S fuel)%nat -> Forall json_ok vs ->
    parse_elements fuel
      (join_with (ch ",") (item_texts vs) ++ ch "]" :: rest)
      = Some (vs, rest).
Proof.
  induction 1 as [|x vs Hx Hvs IH]; [done|]. intros _ fuel rest Hsize Hok.
  inversion Hok as [|? ? Hokx Hokvs]; subst.
  rewrite vsize_arr_cons in Hsize.
  pose proof (vsize_pos (VArr vs)) as Hpos.
  destruct fuel as [|fuel]; [lia|].
  destruct (json_ok_serialize x Hokx) as [tx Htx].
  rewrite parse_elements_step. cbn [item_texts map]. rewrite Htx.
  cbn [default from_option id]. fold (item_texts vs).
  destruct vs as [|y vs].
  - cbn [item_texts map join_with].
    rewrite (Hx fuel tx (ch "]" :: rest)); [|lia|done|done|by right; left].
    cbn [mbind option_bind]. rewrite skip_ws_opens by done.
    replace (ch "]" =? ch ",") with false by done.
    by rewrite N.eqb_refl.
  - change (join_with (ch ",") (tx :: item_texts (y :: vs)))
      with (tx ++ ch "," :: join_with (ch ",") (item_texts (y :: vs))).
    rewrite <- app_assoc. cbn [app].
    rewrite (Hx fuel tx (ch "," :: _)); [|lia|done|done|by left].
    cbn [mbind option_bind]. rewrite skip_ws_opens by done.
    rewrite N.eqb_refl. rewrite IH; [done|done|lia|done].
Qed.

(** Brings an append of texts into the form [c :: ... ++ ...]. *)
Ltac flatten_text :=
  repeat first [rewrite <- app_assoc | progress (cbn [app])].

Lemma join_with_cons sep a ws :
  ws ≠ [] -> join_with sep (a :: ws) = a ++ sep :: join_with sep ws.
Proof. by destruct ws. Qed.

Lemma parse_members_texts ps :
  Forall (fun kx => reads_back kx.2) ps -> ps ≠ [] ->
  forall fuel acc rest,
    (vsize (VObj ps) <= S fuel)%nat ->
    NoDup (acc.*1 ++ ps.*1) ->
    Forall (fun kx => Forall code_unit kx.1 /\ json_ok kx.2) ps ->
    parse_members fuel acc
      (join_with (ch ",") (member_texts ps) ++ ch "}" :: rest)
      = Some (acc ++ ps, rest).
Proof.
  induction 1 as [|[k x] ps Hx Hps IH]; [done|].
  intros _ fuel acc rest Hsize Hnd Hok.
  inversion Hok as [|? ? [Hk Hokx] Hokps]; subst. cbn [fst snd] in *.
  rewrite vsize_obj_cons in Hsize.
  pose proof (vsize_pos (VObj ps)) as Hpos.
  destruct fuel as [|fuel]; [lia|].
  destruct (json_ok_serialize x Hokx) as [tx Htx].
  rewrite fmap_cons in Hnd. cbn [fst] in Hnd.
  assert (Hfresh : k ∉ acc.*1).
  { apply NoDup_app in Hnd as (_ & Hdisj & _). intros Hin.
    apply (Hdisj k Hin). left. }
  assert (Hnd' : NoDup ((acc ++ [(k, x)]).*1 ++ ps.*1)).
  { rewrite fmap_app, <- app_assoc. done. }
  rewrite parse_members_step. cbn [member_texts]. rewrite Htx.
  unfold quote.
  destruct ps as [|[k2 y] ps].
  - cbn [member_texts join_with]. flatten_text.
    rewrite skip_ws_opens by done. rewrite N.eqb_refl.
    rewrite parse_chars_quote_chars by done. cbn [mbind option_bind].
    rewrite skip_ws_opens by done. rewrite N.eqb_refl.
    rewrite (Hx fuel tx (ch "}" :: rest)); [|lia|done|done|by right; right].
    cbn [mbind option_bind]. rewrite skip_ws_opens by done.
    replace (ch "}" =? ch ",") with false by done. rewrite N.eqb_refl.
    rewrite obj_set_fresh by done. done.
  - assert (Hne : member_texts ((k2, y) :: ps) ≠ []).
    { inversion Hokps as [|? ? [_ Hoky] _]; subst.
      destruct (json_ok_serialize y Hoky) as [ty Hty].
      cbn [member_texts]. by rewrite Hty. }
    rewrite join_with_cons by done. flatten_text.
    rewrite skip_ws_opens by done. rewrite N.eqb_refl.
    rewrite parse_chars_quote_chars by done. cbn [mbind option_bind].
    rewrite skip_ws_opens by done. rewrite N.eqb_refl.
    rewrite (Hx fuel tx (ch "," :: _)); [|lia|done|done|by left].
    cbn [mbind option_bind]. rewrite skip_ws_opens by done.
    rewrite N.eqb_refl. rewrite obj_set_fresh by done.
    rewrite IH; [|done|lia|done|done].
    by rewrite <- app_assoc.
Qed.

(** [JSON.parse] reads back what [JSON.stringify] wrote. *)
Lemma parse_value_serialize v : reads_back v.
Proof.
  induction v as [| |b|n|s|vs IH|ps IH] using value_induction;
    intros fuel t rest Hsize Hok Ht Hend;
    (destruct fuel as [|fuel]; [cbn [vsize] in Hsize; lia|]).
  - done.
  - injection Ht as <-. reflexivity.
  - injection Ht as <-. by destruct b.
  - cbn [serialize] in Ht. injection Ht as <-.
    destruct (number_to_string_head n) as (c & t & Heq & Hc).
    assert (Hopen : opens c).
    { destruct Hc as [->|Hc]; [by vm_compute | by apply is_digit_opens]. }
    assert (Htests : (c =? dquote) = false /\ (c =? ch "[") = false
                     /\ (c =? ch "{") = false /\ (c =? ch "t") = false
                     /\ (c =? ch "f") = false /\ (c =? ch "n") = false).
    { destruct Hc as [->|Hc]; [by vm_compute|].
      unfold is_digit in Hc. apply andb_true_iff in Hc as [H1 H2].
      apply N.leb_le in H1, H2. unfold dquote. eval_chars.
      repeat split; apply N.eqb_neq; lia. }
    destruct Htests as (T1 & T2 & T3 & T4 & T5 & T6).
    rewrite Heq. cbn [app]. rewrite parse_value_step by apply Hopen.
    rewrite T1, T2, T3, T4, T5, T6.
    change (c :: t ++ rest) with ((c :: t) ++ rest). rewrite <- Heq.
    rewrite parse_number_to_string; [done | done |].
    by apply value_end_number_end.
  - cbn [serialize] in Ht. injection Ht as <-. unfold quote.
    cbn [app]. rewrite parse_value_step by done. rewrite N.eqb_refl.
    rewrite <- app_assoc. cbn [app].
    rewrite parse_chars_quote_chars by done. done.
  - rewrite serialize_arr in Ht. injection Ht as <-. cbn [app].
    rewrite parse_value_step by done.
    replace (ch "[" =? dquote) with false by done. rewrite N.eqb_refl.
    rewrite <- app_assoc. cbn [app].
    destruct vs as [|x vs]; [reflexivity|].
    apply json_ok_arr in Hok.
    assert (Hhead : exists c r, join_with (ch ",") (item_texts (x :: vs))
                                ++ ch "]" :: rest = c :: r /\ opens c).
    { inversion Hok as [|? ? Hokx _]; subst.
      destruct (json_ok_serialize x Hokx) as [tx Htx].
      destruct (serialize_head x tx Htx) as (c & t' & -> & Hc).
      cbn [item_texts map]. rewrite Htx. cbn [default from_option id].
      destruct vs; cbn [map join_with app]; by eexists _, _. }
    destruct Hhead as (c & r & Heq & Hc).
    rewrite parse_elements_items; [|done|done|lia|done].
    rewrite Heq, skip_ws_opens by apply Hc.
    destruct Hc as (_ & Hc & _). by rewrite (proj2 (N.eqb_neq _ _) Hc).
  - rewrite serialize_obj in Ht. injection Ht as <-. cbn [app].
    rewrite parse_value_step by done.
    replace (ch "{" =? dquote) with false by done.
    replace (ch "{" =? ch "[") with false by done. rewrite N.eqb_refl.
    rewrite <- app_assoc. cbn [app].
    destruct ps as [|[k x] ps]; [reflexivity|].
    apply json_ok_obj in Hok as [Hnd Hok].
    assert (Hhead : exists r, join_with (ch ",") (member_texts ((k, x) :: ps))
                              ++ ch "}" :: rest = dquote :: r).
    { inversion Hok as [|? ? [_ Hokx] _]; subst. cbn [snd] in Hokx.
      destruct (json_ok_serialize x Hokx) as [tx Htx].
      cbn [member_texts]. rewrite Htx. unfold quote.
      destruct (member_texts ps); cbn [join_with app]; by eexists. }
    destruct Hhead as (r & Heq).
    rewrite (parse_members_texts _ IH); [|done|lia|done|done].
    rewrite Heq, skip_ws_opens by done. done.
Qed.

Lemma join_with_length_cons sep a ws :
  ws ≠ [] ->
  length (join_with sep (a :: ws))
    = (length a + S (length (join_with sep ws)))%nat.
Proof. intros H. rewrite join_with_cons by done. by rewrite length_app. Qed.

Lemma serialize_length v t : serialize v = Some t -> (1 <= length t)%nat.
Proof.
  intros (c & t' & -> & _)%serialize_head. cbn. lia.
Qed.

(** The fuel of [parse_json] is enough for every text of [JSON.stringify]. *)
Lemma vsize_bound v :
  forall t, json_ok v -> serialize v = Some t ->
            (vsize v <= 2 * length t)%nat.
Proof.
  induction v as [| |b|n|s|vs IH|ps IH] using value_induction;
    intros t Hok Ht;
    try (apply serialize_length in Ht; cbn [vsize]; lia).
  - rewrite serialize_arr in Ht. injection Ht as <-.
    apply json_ok_arr in Hok.
    assert (H : (vsize (VArr vs)
                 <= 2 * length (join_with (ch ",") (item_texts vs)) + 2)%nat).
    { clear -IH Hok. induction IH as [|x vs Hx _ IHvs]; [cbn; lia|].
      inversion Hok as [|? ? Hokx Hokvs]; subst.
      destruct (json_ok_serialize x Hokx) as [tx Htx].
      specialize (Hx tx Hokx Htx). specialize (IHvs Hokvs).
      rewrite vsize_arr_cons. cbn [item_texts map]. rewrite Htx.
      cbn [default from_option id]. fold (item_texts vs).
      destruct vs as [|y vs].
      - cbn [item_texts map join_with vsize]. lia.
      - rewrite join_with_length_cons by done. lia. }
    cbn [length]. rewrite length_app. cbn [length]. lia.
  - rewrite serialize_obj in Ht. injection Ht as <-.
    apply json_ok_obj in Hok as [_ Hok].
    assert (H : (vsize (VObj ps)
                 <= 2 * length (join_with (ch ",") (member_texts ps)) + 2)%nat).
    { clear -IH Hok. induction IH as [|[k x] ps Hx _ IHps]; [cbn; lia|].
      inversion Hok as [|? ? [_ Hokx] Hokps]; subst. cbn [snd] in *.
      destruct (json_ok_serialize x Hokx) as [tx Htx].
      specialize (Hx tx Hokx Htx). specialize (IHps Hokps).
      rewrite vsize_obj_cons. cbn [member_texts]. rewrite Htx.
      destruct (member_texts ps) as [|m ms] eqn:Hms.
      - cbn [join_with]. rewrite length_app. cbn [length].
        destruct ps as [|[k2 y] ps].
        + cbn [vsize]. lia.
        + exfalso. inversion Hokps as [|? ? [_ Hoky] _]; subst.
          destruct (json_ok_serialize y Hoky) as [ty Hty].
          cbn [member_texts] in Hms. by rewrite Hty in Hms.
      - rewrite join_with_length_cons by done. rewrite length_app.
        cbn [length]. lia. }
    cbn [length]. rewrite length_app. cbn [length]. lia.
Qed.

(** [JSON.parse(JSON.stringify(v))] is [v]. *)
Lemma parse_json_serialize v t :
  json_ok v -> serialize v = Some t -> parse_json t = Some v.
Proof.
  intros Hok Ht. unfold parse_json.
  pose proof (vsize_bound v t Hok Ht) as Hsize.
  rewrite <- (app_nil_r t) at 2.
  rewrite (parse_value_serialize v _ t []); [done|lia|done|done|done].
Qed.

(** ** The texts that [encodeURIComponent] receives *)














(** ** The round trip through a query string *)












(** ** The fuel of [parse_json] *)

Lemma skip_ws_length s : (length (skip_ws s) <= length s)%nat.
Proof.
  induction s as [|c s IH]; [done|]. cbn [skip_ws].
  destruct (is_ws c); cbn [length]; lia.
Qed.

Lemma parse_chars_length s : forall cs r,
  parse_chars s = Some (cs, r) -> (length r < length s)%nat.
Proof.
  induction s as [s IH] using (induction_ltof1 _ length). unfold ltof in IH.
  intros cs r H. destruct s as [|c s]; [done|]. cbn [parse_chars] in H.
  destruct (c =? dquote).
  { injection H as _ <-. cbn. lia. }
  destruct (c =? ch "\").
  - destruct s as [|e s]; [done|]. destruct (e =? ch "u").
    + destruct s as [|h1 [|h2 [|h3 [|h4 s]]]]; try done.
      destruct (hex_val h1), (hex_val h2), (hex_val h3), (hex_val h4);
        try done. cbn [mbind option_bind] in H.
      destruct (parse_chars s) as [[cs' r']|] eqn:E; [|done].
      injection H as _ <-. apply IH in E; cbn [length] in *; lia.
    + destruct (simple_escape e); [|done]. cbn [mbind option_bind] in H.
      destruct (parse_chars s) as [[cs' r']|] eqn:E; [|done].
      injection H as _ <-. apply IH in E; cbn [length] in *; lia.
  - destruct (c <? 32); [done|].
    destruct (parse_chars s) as [[cs' r']|] eqn:E; [|done].
    injection H as _ <-. apply IH in E; cbn [length] in *; lia.
Qed.

Lemma take_digits_length s :
  (length (take_digits s).2 <= length s)%nat
  /\ ((take_digits s).1 ≠ [] -> length (take_digits s).2 < length s)%nat.
Proof.
  induction s as [|c s [IH1 IH2]]; [done|]. cbn [take_digits].
  destruct (is_digit c); [|done].
  destruct (take_digits s) as [ds r]. cbn [fst snd length] in *. lia.
Qed.

Lemma parse_unsigned_length neg s n r :
  parse_unsigned neg s = Some (n, r) -> (length r < length s)%nat.
Proof.
  unfold parse_unsigned, parse_int_part. intros H.
  pose proof (take_digits_length s) as [_ Hint].
  destruct (take_digits s) as [ints s2]. cbn [fst snd] in Hint.
  assert (Hrest : forall ints' : list N,
             ('(fracs, s3) ← parse_frac_part s2;
              '(e, s4) ← parse_exp_part s3;
              Some (make_number neg (ints' ++ fracs)
                      (e - Z.of_nat (length fracs))%Z, s4)) = Some (n, r) ->
             (length r <= length s2)%nat).
  { intros ints' H'. unfold parse_frac_part in H'.
    assert (Hfrac : forall fracs s3,
               ('(e, s4) ← parse_exp_part s3;
                Some (make_number neg (ints' ++ fracs)
                        (e - Z.of_nat (length fracs))%Z, s4)) = Some (n, r) ->
               (length r <= length s3)%nat).
    { intros fracs s3 He. unfold parse_exp_part in He.
      destruct s3 as [|c s3]; [by injection He as _ <-|].
      destruct ((c =? ch "e") || (c =? ch "E")).
      - set (sg := match s3 with
                   | [] => (false, s3)
                   | sg :: r' =>
                       if sg =? ch "-" then (true, r')
                       else if sg =? ch "+" then (false, r') else (false, s3)
                   end) in He.
        assert (Hsg : (length sg.2 <= length s3)%nat).
        { subst sg. destruct s3 as [|a s3]; [done|].
          destruct (a =? ch "-"); [cbn; lia|].
          destruct (a =? ch "+"); cbn; lia. }
        destruct sg as [ng r1]. cbn [snd] in Hsg.
        pose proof (take_digits_length r1) as [Hd _].
        destruct (take_digits r1) as [[|d ds] rest]; [done|].
        injection He as _ <-. cbn [snd length] in *. lia.
      - injection He as _ <-. done. }
    destruct s2 as [|c s2]; [by apply (Hfrac [] [])|].
    destruct (c =? ch ".").
    - pose proof (take_digits_length s2) as [Hd _].
      destruct (take_digits s2) as [[|d ds] rest]; [done|].
      apply Hfrac in H'. cbn [snd length] in *. lia.
    - by apply (Hfrac [] (c :: s2)). }
  destruct ints as [|d [|d' ints]]; [done| |].
  - apply Hrest in H. specialize (Hint ltac:(done)). lia.
  - destruct (d =? 0); [done|]. apply Hrest in H.
    specialize (Hint ltac:(done)). lia.
Qed.

Lemma parse_number_length s n r :
  parse_number s = Some (n, r) -> (length r < length s)%nat.
Proof.
  unfold parse_number. destruct s as [|c s]; [done|].
  destruct (c =? ch "-"); intros H%parse_unsigned_length; cbn [length] in *;
    lia.
Qed.

Lemma strip_prefix_length lit : forall s r,
  strip_prefix lit s = Some r -> (length r <= length s)%nat.
Proof.
  induction lit as [|a lit IH]; intros s r H.
  - by injection H as <-.
  - destruct s as [|c s]; [done|]. cbn [strip_prefix] in H.
    destruct (a =? c); [|done]. apply IH in H. cbn [length]. lia.
Qed.

Lemma parse_value_unfold fuel s :
  parse_value (S fuel) s =
    match skip_ws s with
    | [] => None
    | c :: r =>
        if c =? dquote then
          '(cs, rest) ← parse_chars r; Some (VStr cs, rest)
        else if c =? ch "[" then
          match skip_ws r with
          | [] => None
          | c' :: r' =>
              if c' =? ch "]" then Some (VArr [], r')
              else '(vs, rest) ← parse_elements fuel r; Some (VArr vs, rest)
          end
        else if c =? ch "{" then
          match skip_ws r with
          | [] => None
          | c' :: r' =>
              if c' =? ch "}" then Some (VObj [], r')
              else '(ps, rest) ← parse_members fuel [] r; Some (VObj ps, rest)
          end
        else if c =? ch "t" then
          rest ← strip_prefix (str "rue") r; Some (VBool true, rest)
        else if c =? ch "f" then
          rest ← strip_prefix (str "alse") r; Some (VBool false, rest)
        else if c =? ch "n" then
          rest ← strip_prefix (str "ull") r; Some (VNull, rest)
        else
          '(n, rest) ← parse_number (c :: r); Some (VNum n, rest)
    end.
Proof. reflexivity. Qed.

(** Every parser leaves less than it was given. *)
Lemma parse_length fuel :
  (forall s v r, parse_value fuel s = Some (v, r) ->
                 (length r < length s)%nat)
  /\ (forall s vs r, parse_elements fuel s = Some (vs, r) ->
                     (length r < length s)%nat)
  /\ (forall acc s ps r, parse_members fuel acc s = Some (ps, r) ->
                         (length r < length s)%nat).
Proof.
  induction fuel as [|fuel (IHv & IHe & IHm)]; [done|].
  assert (Hv : forall s v r, parse_value (S fuel) s = Some (v, r) ->
                             (length r < length s)%nat).
  { intros s v r H. rewrite parse_value_unfold in H.
    pose proof (skip_ws_length s) as Hs.
    destruct (skip_ws s) as [|c s1]; [done|]. cbn [length] in Hs.
    destruct (c =? dquote).
    { destruct (parse_chars s1) as [[cs r']|] eqn:E; [|done].
      injection H as _ <-. apply parse_chars_length in E. lia. }
    destruct (c =? ch "[").
    { pose proof (skip_ws_length s1) as Hs1.
      destruct (skip_ws s1) as [|c' s2]; [done|]. cbn [length] in Hs1.
      destruct (c' =? ch "]"); [injection H as _ <-; lia|].
      destruct (parse_elements fuel s1) as [[vs r']|] eqn:E; [|done].
      injection H as _ <-. apply IHe in E. lia. }
    destruct (c =? ch "{").
    { pose proof (skip_ws_length s1) as Hs1.
      destruct (skip_ws s1) as [|c' s2]; [done|]. cbn [length] in Hs1.
      destruct (c' =? ch "}"); [injection H as _ <-; lia|].
      destruct (parse_members fuel [] s1) as [[ps r']|] eqn:E; [|done].
      injection H as _ <-. apply IHm in E. lia. }
    destruct (c =? ch "t").
    { destruct (strip_prefix _ s1) as [r'|] eqn:E; [|done].
      injection H as _ <-. apply strip_prefix_length in E. lia. }
    destruct (c =? ch "f").
    { destruct (strip_prefix _ s1) as [r'|] eqn:E; [|done].
      injection H as _ <-. apply strip_prefix_length in E. lia. }
    destruct (c =? ch "n").
    { destruct (strip_prefix _ s1) as [r'|] eqn:E; [|done].
      injection H as _ <-. apply strip_prefix_length in E. lia. }
    destruct (parse_number (c :: s1)) as [[n r']|] eqn:E; [|done].
    injection H as _ <-. apply parse_number_length in E. cbn [length] in E.
    lia. }
  split; [exact Hv|]. split.
  - intros s vs r H. rewrite parse_elements_step in H.
    destruct (parse_value fuel s) as [[v r1]|] eqn:E; [|done].
    cbn [mbind option_bind] in H. apply IHv in E.
    pose proof (skip_ws_length r1) as Hr1.
    destruct (skip_ws r1) as [|c r2]; [done|]. cbn [length] in Hr1.
    destruct (c =? ch ",").
    + destruct (parse_elements fuel r2) as [[vs' r']|] eqn:E2; [|done].
      injection H as _ <-. apply IHe in E2. lia.
    + destruct (c =? ch "]"); [|done]. injection H as _ <-. lia.
  - intros acc s ps r H. rewrite parse_members_step in H.
    pose proof (skip_ws_length s) as Hs.
    destruct (skip_ws s) as [|q s1]; [done|]. cbn [length] in Hs.
    destruct (q =? dquote); [|done].
    destruct (parse_chars s1) as [[k r1]|] eqn:E; [|done].
    cbn [mbind option_bind] in H. apply parse_chars_length in E.
    pose proof (skip_ws_length r1) as Hr1.
    destruct (skip_ws r1) as [|c r2]; [done|]. cbn [length] in Hr1.
    destruct (c =? ch ":"); [|done].
    destruct (parse_value fuel r2) as [[v r3]|] eqn:E2; [|done].
    cbn [mbind option_bind] in H. apply IHv in E2.
    pose proof (skip_ws_length r3) as Hr3.
    destruct (skip_ws r3) as [|d r4]; [done|]. cbn [length] in Hr3.
    destruct (d =? ch ",").
    + apply IHm in H. lia.
    + destruct (d =? ch "}"); [|done]. injection H as _ <-. lia.
Qed.

(** With [2 * n + 1] units for a value of a text of [n] code units, and
    [2 * n + 2] for elements or members, the fuel never runs out: more fuel
    gives the same result. *)
Lemma parse_fuel_enough fuel1 : forall fuel2,
  (forall s, (2 * length s + 1 <= fuel1)%nat ->
             (2 * length s + 1 <= fuel2)%nat ->
             parse_value fuel1 s = parse_value fuel2 s)
  /\ (forall s, (2 * length s + 2 <= fuel1)%nat ->
                (2 * length s + 2 <= fuel2)%nat ->
                parse_elements fuel1 s = parse_elements fuel2 s)
  /\ (forall acc s, (2 * length s + 2 <= fuel1)%nat ->
                    (2 * length s + 2 <= fuel2)%nat ->
                    parse_members fuel1 acc s = parse_members fuel2 acc s).
Proof.
  induction fuel1 as [|fuel1 IH]; intros fuel2.
  { repeat split; intros; lia. }
  destruct fuel2 as [|fuel2]; [repeat split; intros; lia|].
  destruct (IH fuel2) as (IHv & IHe & IHm). clear IH.
  repeat split.
  - intros s H1 H2. rewrite !parse_value_unfold.
    pose proof (skip_ws_length s) as Hs.
    destruct (skip_ws s) as [|c s1]; [done|]. cbn [length] in Hs.
    pose proof (skip_ws_length s1) as Hs1.
    rewrite (IHe s1) by lia. rewrite (IHm [] s1) by lia. done.
  - intros s H1 H2. rewrite !parse_elements_step.
    rewrite (IHv s) by lia.
    destruct (parse_value fuel2 s) as [[v r1]|] eqn:E; [|done].
    cbn [mbind option_bind].
    apply (proj1 (parse_length fuel2)) in E.
    pose proof (skip_ws_length r1) as Hr1.
    destruct (skip_ws r1) as [|c r2]; [done|]. cbn [length] in Hr1.
    rewrite (IHe r2) by lia. done.
  - intros acc s H1 H2. rewrite !parse_members_step.
    pose proof (skip_ws_length s) as Hs.
    destruct (skip_ws s) as [|q s1]; [done|]. cbn [length] in Hs.
    destruct (q =? dquote); [|done].
    destruct (parse_chars s1) as [[k r1]|] eqn:E; [|done].
    cbn [mbind option_bind]. apply parse_chars_length in E.
    pose proof (skip_ws_length r1) as Hr1.
    destruct (skip_ws r1) as [|c r2]; [done|]. cbn [length] in Hr1.
    destruct (c =? ch ":"); [|done].
    rewrite (IHv r2) by lia.
    destruct (parse_value fuel2 r2) as [[v r3]|] eqn:E2; [|done].
    cbn [mbind option_bind]. apply (proj1 (parse_length fuel2)) in E2.
    pose proof (skip_ws_length r3) as Hr3.
    destruct (skip_ws r3) as [|d r4]; [done|]. cbn [length] in Hr3.
    rewrite (IHm _ r4) by lia. done.
Qed.

(** [parse_json] gives what any larger fuel gives. *)
Lemma parse_json_fuel text fuel :
  (2 * length text + 2 <= fuel)%nat ->
  parse_value fuel text = parse_value (2 * length text + 2) text.
Proof. intros H. apply parse_fuel_enough; lia. Qed.

(** ** Well-formed worlds *)

Lemma world_ok_mono n n' h l s r o pl lg :
  (n <= n')%nat ->
  world_ok (World n h l s r o pl lg) -> world_ok (World n' h l s r o pl lg).
Proof.
  intros Hn (Hs & Hl & Hr & Ho). cbn in *. repeat split.
  - eapply Forall_impl; [exact Hs|]. cbn. intros. lia.
  - eapply Forall_impl; [exact Hl|]. intros [[? ?] [? ? ?]]; cbn. lia.
  - eapply Forall_impl; [exact Hr|]. intros [? [? ? ?]]; cbn. lia.
  - eapply Forall_impl; [exact Ho|]. intros [? ?]; cbn. lia.
Qed.

Section KeepsOk.
Variable ids : list nat.

Lemma keeps_ok_ret {A} (a : A) : keeps_ok ids (ret a).
Proof. by intros n w H _. Qed.

Lemma keeps_ok_throw {A} e : keeps_ok ids (throw (A:=A) e).
Proof. by intros n w H _. Qed.

Lemma keeps_ok_get {A} (f : world -> A) : keeps_ok ids (get f).
Proof. by intros n w H _. Qed.

Lemma keeps_ok_emit e : keeps_ok ids (emit e).
Proof. by intros n [] H _. Qed.

Lemma keeps_ok_set_head f : keeps_ok ids (set_head f).
Proof. by intros n [] H _. Qed.

Lemma keeps_ok_add_player t : keeps_ok ids (add_player t).
Proof. by intros n [] H _. Qed.

Lemma keeps_ok_bind {A B} (c : M A) (k : A -> M B) :
  keeps_ok ids c -> (forall a, keeps_ok ids (k a)) -> keeps_ok ids (bind c k).
Proof.
  intros Hc Hk n w Hw Hids. unfold bind. specialize (Hc n w Hw Hids).
  destruct (c w) as [[a|e] w']; cbn in *; [|done]. by apply Hk.
Qed.

Lemma keeps_ok_for_each {A} (f : A -> M unit) (l : list A) :
  Forall (fun a => keeps_ok ids (f a)) l -> keeps_ok ids (for_each f l).
Proof.
  induction 1 as [|a l Ha _ IH]; [apply keeps_ok_ret|].
  cbn [for_each]. apply keeps_ok_bind; [done|]. by intros.
Qed.

Lemma keeps_ok_mark_settled p : p ∈ ids -> keeps_ok ids (mark_settled p).
Proof.
  intros Hp n [nx h l s r o pl lg] [(Hs & Hl & Hr & Ho) Hn] Hids.
  cbn in *. rewrite Forall_forall in Hids. apply Hids in Hp.
  repeat split; try done. cbn. constructor; [lia | done].
Qed.

Lemma keeps_ok_settle p e : p ∈ ids -> keeps_ok ids (settle p e).
Proof.
  intros Hp. unfold settle. apply keeps_ok_bind; [apply keeps_ok_get|].
  intros []; [apply keeps_ok_ret|].
  apply keeps_ok_bind; [by apply keeps_ok_mark_settled|].
  intros. apply keeps_ok_emit.
Qed.

Lemma keeps_ok_add_listener el type scriptEl cb p :
  el ∈ ids -> scriptEl ∈ ids -> p ∈ ids ->
  keeps_ok ids (add_listener el type (ScriptLoaded scriptEl cb p)).
Proof.
  intros H1 H2 H3 n [nx h l s r o pl lg] [(Hs & Hl & Hr & Ho) Hn] Hids.
  cbn in *. rewrite Forall_forall in Hids.
  apply Hids in H1, H2, H3.
  repeat split; try done. cbn. apply Forall_app. split; [done|].
  repeat constructor; cbn; lia.
Qed.

Lemma keeps_ok_add_reaction p vboxes opts q :
  p ∈ ids -> q ∈ ids ->
  keeps_ok ids (add_reaction p (VimeoObserve vboxes opts q)).
Proof.
  intros H1 H2 n [nx h l s r o pl lg] [(Hs & Hl & Hr & Ho) Hn] Hids.
  cbn in *. rewrite Forall_forall in Hids. apply Hids in H1, H2.
  repeat split; try done. cbn. apply Forall_app. split; [done|].
  repeat constructor; cbn; lia.
Qed.

Lemma keeps_ok_add_observer io cb :
  io ∈ ids -> keeps_ok ids (add_observer io cb).
Proof.
  intros H1 n [nx h l s r o pl lg] [(Hs & Hl & Hr & Ho) Hn] Hids.
  cbn in *. rewrite Forall_forall in Hids. apply Hids in H1.
  repeat split; try done. cbn. apply Forall_app. split; [done|].
  repeat constructor; cbn; lia.
Qed.
End KeepsOk.

Lemma keeps_ok_weaken ids ids' {A} (c : M A) :
  ids ⊆ ids' -> keeps_ok ids c -> keeps_ok ids' c.
Proof.
  intros Hsub Hc n w Hw Hids. apply Hc; [done|].
  rewrite Forall_forall in *. intros i Hi. by apply Hids, Hsub.
Qed.

(** A fresh identifier is taken from then on. *)
Lemma keeps_ok_bind_fresh ids {B} (k : nat -> M B) :
  (forall a, keeps_ok (a :: ids) (k a)) -> keeps_ok ids (bind fresh k).
Proof.
  intros Hk n [nx h l s r o pl lg] [Hok Hn] Hids. unfold bind, fresh.
  cbn [next_id head listeners settled reactions observers players log] in *.
  destruct (Hk nx (S nx) (World (S nx) h l s r o pl lg)) as [Hok' Hn'].
  - split; [|done]. eapply world_ok_mono; [|exact Hok]. lia.
  - constructor; [lia|]. eapply Forall_impl; [exact Hids|]. cbn. lia.
  - split; [done | lia].
Qed.

(** Identifiers read from a well-formed world are taken. *)
Lemma keeps_ok_bind_get ids {A B} (f : world -> A) (k : A -> M B)
    (ids_of : A -> list nat) :
  (forall w, world_ok w ->
             Forall (fun i => (i < next_id w)%nat) (ids_of (f w))) ->
  (forall a, keeps_ok (ids_of a ++ ids) (k a)) ->
  keeps_ok ids (bind (get f) k).
Proof.
  intros Hf Hk n w [Hok Hn] Hids. unfold bind, get.
  destruct (Hk (f w) (next_id w) w) as [Hok' Hn'].
  - by split.
  - apply Forall_app. split; [by apply Hf|].
    eapply Forall_impl; [exact Hids|]. cbn. lia.
  - split; [done | lia].
Qed.

(** A computation that returns an identifier it has taken. *)
Lemma keeps_ok_bind_id {B} ids (c : M nat) (k : nat -> M B) :
  keeps_ok ids c ->
  (forall w a, (c w).1 = Ok a -> (a < next_id (c w).2)%nat) ->
  (forall a, keeps_ok (a :: ids) (k a)) ->
  keeps_ok ids (bind c k).
Proof.
  intros Hc Hr Hk n w Hw Hids.
  specialize (Hc n w Hw Hids). specialize (Hr w). unfold bind.
  destruct (c w) as [[a|e] w']; [|exact Hc].
  destruct Hc as [Hok Hn]. cbn [fst snd] in *.
  destruct (Hk a (next_id w') w') as [Hok' Hn'].
  - by split.
  - constructor; [by apply Hr|].
    eapply Forall_impl; [exact Hids|]. cbn. intros. lia.
  - split; [done | lia].
Qed.

Lemma keeps_ok_new_observer ids cb init : keeps_ok ids (new_observer cb init).
Proof.
  unfold new_observer. apply keeps_ok_bind_fresh. intros io.
  apply keeps_ok_bind; [apply keeps_ok_add_observer; left|]. intros.
  apply keeps_ok_bind; [apply keeps_ok_emit|]. intros. apply keeps_ok_ret.
Qed.

Lemma new_observer_id cb init w a :
  (new_observer cb init w).1 = Ok a ->
  (a < next_id (new_observer cb init w).2)%nat.
Proof.
  destruct w as [n h l s r o pl lg]. unfold new_observer. run_world.
  cbn [fst snd]. intros [= <-]. lia.
Qed.

Lemma keeps_ok_run_continuation ids k :
  match k with VimeoObserve _ _ q => q ∈ ids end ->
  keeps_ok ids (run_continuation k).
Proof.
  destruct k as [vboxes opts q]. intros Hq. cbn [run_continuation].
  apply keeps_ok_bind_id;
    [apply keeps_ok_new_observer | apply new_observer_id |]. intros io.
  apply keeps_ok_bind.
  - apply keeps_ok_for_each, Forall_forall. intros. apply keeps_ok_emit.
  - intros. apply keeps_ok_settle. by right.
Qed.

Lemma keeps_ok_resolve ids p : p ∈ ids -> keeps_ok ids (resolve p).
Proof.
  intros Hp. unfold resolve. apply keeps_ok_bind; [apply keeps_ok_get|].
  intros []; [apply keeps_ok_ret|].
  apply keeps_ok_bind; [by apply keeps_ok_settle|]. intros _.
  apply (keeps_ok_bind_get _ _ _ returned).
  - intros w (_ & _ & Hr & _). unfold returned. apply Forall_map.
    apply Forall_forall. intros pk [_ Hpk]%list_elem_of_filter.
    rewrite Forall_forall in Hr. specialize (Hr pk Hpk).
    destruct pk as [? [? ? ?]]. cbn in *. lia.
  - intros ks. apply keeps_ok_for_each, Forall_forall. intros pk Hpk.
    apply keeps_ok_run_continuation.
    assert (Hin : match pk.2 with VimeoObserve _ _ q => q end ∈ returned ks).
    { unfold returned. apply list_elem_of_In, in_map_iff. exists pk.
      split; [done | by apply list_elem_of_In]. }
    destruct pk as [? [? ? q]]. cbn in *. apply elem_of_app. by left.
Qed.

Lemma keeps_ok_run_listener ids l :
  match l with ScriptLoaded _ _ p => p ∈ ids end ->
  keeps_ok ids (run_listener l).
Proof.
  destruct l as [el cb p]. intros Hp. cbn [run_listener].
  apply keeps_ok_bind; [apply keeps_ok_set_head|]. intros.
  apply keeps_ok_bind; [apply keeps_ok_emit|]. intros.
  apply keeps_ok_bind; [|intros; by apply keeps_ok_resolve].
  destruct cb; [apply keeps_ok_emit | apply keeps_ok_ret].
Qed.

Lemma keeps_ok_dispatch ids target type : keeps_ok ids (dispatch target type).
Proof.
  unfold dispatch. apply (keeps_ok_bind_get _ _ _ resolved_by).
  - intros w (_ & Hl & _). unfold resolved_by. apply Forall_map.
    apply Forall_forall. intros l [_ Hin]%list_elem_of_filter.
    rewrite Forall_forall in Hl. specialize (Hl l Hin).
    destruct l as [[? ?] [? ? ?]]. cbn in *. lia.
  - intros ls. apply keeps_ok_for_each, Forall_forall. intros l Hin.
    apply keeps_ok_run_listener.
    assert (H : match l.2 with ScriptLoaded _ _ p => p end ∈ resolved_by ls).
    { unfold resolved_by. apply list_elem_of_In, in_map_iff. exists l.
      split; [done | by apply list_elem_of_In]. }
    destruct l as [[? ?] [? ? p]]. cbn in *. apply elem_of_app. by left.
Qed.

Lemma keeps_ok_deliver ids doc io entries :
  keeps_ok ids (deliver doc io entries).
Proof.
  unfold deliver. apply keeps_ok_bind; [apply keeps_ok_get|].
  intros cbs. apply keeps_ok_for_each, Forall_forall.
  intros [io' [|yes no]] _; cbn [snd];
    apply keeps_ok_for_each, Forall_forall; intros [t b] _; cbn [fst snd].
  - unfold vimeo_entry. apply keeps_ok_bind; [apply keeps_ok_get|].
    intros has. destruct b.
    + apply keeps_ok_bind; [|intros; apply keeps_ok_emit].
      destruct has; [apply keeps_ok_ret|].
      apply keeps_ok_bind; [apply keeps_ok_add_player|].
      intros. apply keeps_ok_bind; intros; apply keeps_ok_emit.
    + destruct has; [apply keeps_ok_emit | apply keeps_ok_ret].
  - unfold watch_entry.
    destruct (if b then yes else no); [apply keeps_ok_emit|apply keeps_ok_ret].
Qed.

Lemma keeps_ok_player_played ids doc target :
  keeps_ok ids (player_played doc target).
Proof.
  unfold player_played. apply keeps_ok_bind; [apply keeps_ok_get|].
  intros has. destruct has; [|apply keeps_ok_ret].
  destruct (parentElement doc target);
    [apply keeps_ok_emit | apply keeps_ok_throw].
Qed.

Lemma keeps_ok_preloadScript ids url cb : keeps_ok ids (preloadScript url cb).
Proof.
  unfold preloadScript. apply keeps_ok_bind_fresh. intros p.
  apply keeps_ok_bind_fresh. intros el.
  apply keeps_ok_bind; [apply keeps_ok_emit|]. intros.
  apply keeps_ok_bind; [apply keeps_ok_emit|]. intros.
  apply keeps_ok_bind.
  { apply keeps_ok_add_listener; [left | left | right; left]. }
  intros. apply keeps_ok_bind; [apply keeps_ok_emit|]. intros.
  apply keeps_ok_bind; [apply keeps_ok_set_head|]. intros.
  apply keeps_ok_bind; [apply keeps_ok_emit|]. intros. apply keeps_ok_ret.
Qed.

Lemma preloadScript_id url cb w a :
  (preloadScript url cb w).1 = Ok a ->
  (a < next_id (preloadScript url cb w).2)%nat.
Proof.
  rewrite preloadScript_world. cbn [fst snd next_id]. intros [= <-]. lia.
Qed.

Lemma keeps_ok_vimeoAutoPlay ids doc observerOptions :
  keeps_ok ids (vimeoAutoPlay doc observerOptions).
Proof.
  unfold vimeoAutoPlay. apply keeps_ok_bind_fresh. intros r.
  destruct (querySelectorAll doc vimeo_selector) as [[|b bs]|e].
  - apply keeps_ok_bind; [apply keeps_ok_settle; left|].
    intros. apply keeps_ok_ret.
  - apply keeps_ok_bind_id;
      [apply keeps_ok_preloadScript | apply preloadScript_id |]. intros p.
    apply keeps_ok_bind; [|intros; apply keeps_ok_ret].
    apply keeps_ok_add_reaction; [left | right; left].
  - apply keeps_ok_bind; [apply keeps_ok_settle; left|].
    intros. apply keeps_ok_ret.
Qed.

Lemma keeps_ok_watchIntersection ids doc targets options yesHandler noHandler :
  keeps_ok ids (watchIntersection doc targets options yesHandler noHandler).
Proof.
  unfold watchIntersection. apply keeps_ok_bind_id;
    [apply keeps_ok_new_observer | apply new_observer_id |]. intros io.
  destruct (arrayOfNodesWith doc targets) as [nodes|e];
    [|apply keeps_ok_throw].
  apply keeps_ok_bind; [|intros; apply keeps_ok_ret].
  apply keeps_ok_for_each, Forall_forall. intros. apply keeps_ok_emit.
Qed.

(** Every call of the module and every step of the browser keeps the world
    well-formed. *)
Lemma world_ok_perform doc c w : world_ok w -> world_ok (perform doc c w).
Proof.
  intros Hok.
  assert (Hw : taken 0 w) by (split; [done | lia]).
  destruct c as [url cb|opts|targets options yes no|[t ty|io es|t]];
    cbn [perform step].
  - apply (keeps_ok_preloadScript [] url cb 0%nat w Hw). constructor.
  - apply (keeps_ok_vimeoAutoPlay [] doc opts 0%nat w Hw). constructor.
  - apply (keeps_ok_watchIntersection [] doc targets options yes no 0%nat w Hw).
    constructor.
  - apply (keeps_ok_dispatch [] t ty 0%nat w Hw). constructor.
  - apply (keeps_ok_deliver [] doc io es 0%nat w Hw). constructor.
  - apply (keeps_ok_player_played [] doc t 0%nat w Hw). constructor.
Qed.

(** The worlds that arise from the empty page satisfy [world_ok]. *)
Lemma world_ok_reachable doc (calls : list call) :
  world_ok (fold_left (fun w c => perform doc c w) calls initial).
Proof.
  assert (H : forall w, world_ok w ->
                world_ok (fold_left (fun w c => perform doc c w) calls w)).
  { induction calls as [|c calls IH]; intros w Hw; [done|].
    cbn [fold_left]. by apply IH, world_ok_perform. }
  apply H, world_ok_initial.
Qed.

(** ** More on [queryParam]: what it reads, what it skips, when it throws *)

Lemma query_string_marks pre q rest :
  ch "?" ∉ pre -> ch "?" ∉ q ->
  query_string (pre ++ ch "?" :: q ++ ch "?" :: rest) = q
  /\ query_string (pre ++ ch "?" :: q) = q.
Proof.
  intros Hpre Hq. unfold query_string. split.
  - rewrite split_on_app by done. rewrite split_on_app by done.
    by destruct (split_on (ch "?") rest).
  - rewrite split_on_app by done. by rewrite split_on_whole.
Qed.

Lemma for_each_pair_skips kvs : forall params,
  for_each_pair params (filter (fun kv => kv ≠ []) kvs)
    = for_each_pair params kvs.
Proof.
  induction kvs as [|kv kvs IH]; intros params; [done|].
  destruct kv as [|c kv].
  - rewrite filter_cons_False by (by intros H). cbn. apply IH.
  - rewrite filter_cons_True by done. cbn [for_each_pair].
    destruct (set_pair params (c :: kv)) as [params'|e]; [|done].
    cbn. apply IH.
Qed.

Lemma decode_value_throws text e :
  decode_value text = Throw e <-> e = URIError /\ decode text = None.
Proof.
  unfold decode_value, decodeURIComponent.
  destruct (decode text) as [s|]; cbn.
  - destruct (JSON_parse s); cbn; split; try done; by intros [_ ?].
  - split; [by intros [= <-] | by intros [-> _]].
Qed.

Lemma for_each_pair_throws kvs : forall params e,
  for_each_pair params kvs = Throw e
  <-> e = URIError
      /\ exists kv, kv ∈ kvs /\ kv ≠ [] /\ decode (pair_text kv) = None.
Proof.
  induction kvs as [|kv kvs IH]; intros params e.
  { split; [done|]. by intros (_ & kv & ?%elem_of_nil & _). }
  cbn [for_each_pair]. destruct kv as [|c kv].
  - cbn [set_pair mbind result_bind]. rewrite IH. split.
    + intros (-> & kv' & Hin & Hne & Hd). split; [done|].
      exists kv'. split; [by right | done].
    + intros (-> & kv' & Hin & Hne & Hd). split; [done|].
      exists kv'. apply elem_of_cons in Hin as [->|Hin]; [done|]. done.
  - cbn [set_pair].
    destruct (decode_value (pair_text (c :: kv))) as [v|e'] eqn:Hv;
      cbn [mbind result_bind].
    + rewrite IH. split.
      * intros (-> & kv' & Hin & Hne & Hd). split; [done|].
        exists kv'. split; [by right | done].
      * intros (-> & kv' & Hin & Hne & Hd). split; [done|].
        exists kv'. apply elem_of_cons in Hin as [->|Hin]; [|done].
        assert (Ht : decode_value (pair_text (c :: kv)) = Throw URIError)
          by by apply decode_value_throws.
        by rewrite Hv in Ht.
    + apply decode_value_throws in Hv as [-> Hd]. split.
      * intros [= <-]. split; [done|]. exists (c :: kv).
        split; [left | done].
      * by intros [-> _].
Qed.

Lemma queryParam_parse p source :
  queryParam p source
  = match parse_query source with
    | Ok params =>
        match p with
        | Some (c :: k) => Ok (get_property params (c :: k))
        | _ => Ok (AllParams params)
        end
    | Throw e => Throw e
    end.
Proof. unfold queryParam. by destruct (parse_query source). Qed.

(** X1: a source without [?] has no query, and nothing is assigned:
    [queryParam] returns the empty object, and for a name it returns what the
    empty object has under that name, which is nothing of its own: the
    lookup goes on to %Object.prototype% (whose getter of [__proto__] returns
    the prototype of the empty object, %Object.prototype% itself).  So does
    a source that ends with its first [?]. *)
Theorem X1_no_query_mark (p : option (list N)) (source : list N) :
  ch "?" ∉ source ->
  let nothing := match p with
                 | Some (c :: k) =>
                     if bool_decide (c :: k = proto_key)
                     then ThePrototype ObjectPrototype
                     else Inherited ObjectProto (c :: k)
                 | _ => AllParams empty_object
                 end in
  queryParam p source = Ok nothing
  /\ queryParam p (source ++ [ch "?"]) = Ok nothing.
Proof.
  intros Hno nothing.
  assert (H1 : parse_query source = Ok empty_object).
  { unfold parse_query, query_string.
    by rewrite (split_on_whole (ch "?")). }
  assert (H2 : parse_query (source ++ [ch "?"]) = Ok empty_object).
  { unfold parse_query.
    destruct (query_string_marks source [] [] Hno (not_elem_of_nil _))
      as [_ ->]. done. }
  rewrite !queryParam_parse, H1, H2. subst nothing.
  by destruct p as [[|c k]|].
Qed.

Lemma X1_no_query_mark_witness :
  queryParam None (str "https://sunmar.ru/a=1&b=2") = Ok (AllParams empty_object)
  /\ queryParam (Some (str "a")) (str "a=1&b=2")
     = Ok (Inherited ObjectProto (str "a"))
  /\ queryParam (Some (str "constructor")) (str "a=1&b=2")
     = Ok (Inherited ObjectProto (str "constructor")).
Proof.
  split; [|split].
  - refine (proj1 (X1_no_query_mark None (str "https://sunmar.ru/a=1&b=2") _)).
    compute_done.
  - refine (proj1 (X1_no_query_mark (Some (str "a")) (str "a=1&b=2") _)).
    compute_done.
  - refine (proj1 (X1_no_query_mark (Some (str "constructor"))
                     (str "a=1&b=2") _)).
    compute_done.
Defined.

(** X2: only the text between the first [?] and the second one is read:
    what precedes the first [?] and what follows a second [?] change
    nothing. *)
Theorem X2_between_the_marks (p : option (list N)) (pre q rest : list N) :
  ch "?" ∉ pre -> ch "?" ∉ q ->
  queryParam p (pre ++ ch "?" :: q ++ ch "?" :: rest)
    = queryParam p (ch "?" :: q)
  /\ queryParam p (pre ++ ch "?" :: q) = queryParam p (ch "?" :: q).
Proof.
  intros Hpre Hq.
  destruct (query_string_marks pre q rest Hpre Hq) as [H1 H2].
  destruct (query_string_marks [] q [] (not_elem_of_nil _) Hq) as [_ H3].
  cbn [app] in H3.
  unfold queryParam, parse_query. by rewrite H1, H2, H3.
Qed.

Lemma X2_between_the_marks_witness :
  queryParam None (str "/tours?a=1&b=x?c=3") = queryParam None (str "?a=1&b=x")
  /\ queryParam None (str "/tours?a=1&b=x") = queryParam None (str "?a=1&b=x").
Proof.
  apply (X2_between_the_marks None (str "/tours") (str "a=1&b=x") (str "c=3"));
    compute_done.
Defined.

(** X3: [queryParam] throws nothing but [URIError], and throws it exactly
    when the value text of some non-empty pair is not valid
    percent-encoding; a value that is not JSON never makes it throw. *)
Theorem X3_throws_on_bad_escapes_only (p : option (list N)) (source : list N) :
  (forall e, queryParam p source = Throw e -> e = URIError)
  /\ (queryParam p source = Throw URIError
      <-> exists kv, kv ∈ split_on (ch "&") (query_string source)
                     /\ kv ≠ [] /\ decode (pair_text kv) = None).
Proof.
  assert (H : forall e, queryParam p source = Throw e
                        <-> parse_query source = Throw e).
  { intros e. rewrite queryParam_parse.
    destruct (parse_query source) as [params|e'];
      [|split; intros [= <-]; reflexivity].
    destruct p as [[|c k]|]; by split. }
  split.
  - intros e He. apply H in He. unfold parse_query in He.
    by apply for_each_pair_throws in He as [-> _].
  - rewrite H. unfold parse_query. rewrite for_each_pair_throws.
    split; [by intros [_ ?] | done].
Qed.

(** X4: empty pairs count for nothing: two sources whose queries have the
    same non-empty pairs, in the same order, give the same result. *)
Theorem X4_empty_pairs_are_skipped (p : option (list N)) (s1 s2 : list N) :
  filter (fun kv => kv ≠ []) (split_on (ch "&") (query_string s1))
    = filter (fun kv => kv ≠ []) (split_on (ch "&") (query_string s2)) ->
  queryParam p s1 = queryParam p s2.
Proof.
  intros Heq. unfold queryParam, parse_query.
  rewrite <- (for_each_pair_skips (split_on _ (query_string s1))).
  rewrite <- (for_each_pair_skips (split_on _ (query_string s2))).
  by rewrite Heq.
Qed.

Lemma X4_empty_pairs_are_skipped_witness :
  queryParam None (str "?&a=1&&b=2&") = queryParam None (str "?a=1&b=2").
Proof.
  apply (X4_empty_pairs_are_skipped None (str "?&a=1&&b=2&") (str "?a=1&b=2")).
  by vm_compute.
Defined.

(** ** More on [params2query]: when it throws, and reading one parameter
    back *)

Lemma encode_well_formed s :
  Forall code_unit s -> forall e, encode s = Some e ->
  well_formed_utf16 s = true.
Proof.
  induction s as [s IH] using (induction_ltof1 _ length). unfold ltof in IH.
  destruct s as [|c r]; intros Hcu e He; [done|].
  apply Forall_cons in Hcu as [Hc Hcu]. unfold code_unit in Hc.
  cbn [encode] in He. cbn [well_formed_utf16].
  destruct (unreserved c) eqn:Hu.
  - apply unreserved_ascii in Hu as Hasc.
    assert (Hl : is_lead c = false) by (unfold is_lead; decide_tests; done).
    assert (Ht : is_trail c = false) by (unfold is_trail; decide_tests; done).
    rewrite Hl, Ht. destruct (encode r) as [e'|] eqn:Hr; [|done].
    rewrite (IH r) with (e := e') by (done || cbn; lia).
    rewrite andb_true_r. by apply N.ltb_lt.
  - destruct (is_lead c).
    + destruct r as [|c2 r']; [done|].
      apply Forall_cons in Hcu as [_ Hcu].
      destruct (is_trail c2); [|done].
      destruct (encode r') as [e'|] eqn:Hr; [|done].
      by rewrite (IH r') with (e := e') by (done || cbn; lia).
    + destruct (is_trail c); [done|].
      destruct (encode r) as [e'|] eqn:Hr; [|done].
      rewrite (IH r) with (e := e') by (done || cbn; lia).
      rewrite andb_true_r. by apply N.ltb_lt.
Qed.

Lemma encode_fails_iff s :
  Forall code_unit s -> (encode s = None <-> well_formed_utf16 s = false).
Proof.
  intros Hcu. split.
  - intros He. destruct (well_formed_utf16 s) eqn:Hwf; [|done].
    destruct (encode_decode_tokens s Hwf) as (e & _ & He' & _). congruence.
  - intros Hwf. destruct (encode s) as [e|] eqn:He; [|done].
    by rewrite (encode_well_formed s Hcu e He) in Hwf.
Qed.

Lemma map_result_throws {A B} (f : A -> result B) (l : list A) e :
  map_result f l = Throw e -> exists a, a ∈ l /\ f a = Throw e.
Proof.
  induction l as [|a l IH]; [done|]. cbn [map_result].
  destruct (f a) as [b|e'] eqn:Ha; cbn [mbind result_bind].
  - destruct (map_result f l) as [bs|e'']; [done|]. cbn [mbind result_bind].
    intros [= <-]. destruct IH as (a' & Hin & Ha'); [done|].
    exists a'. split; [by right | done].
  - intros [= <-]. exists a. split; [left | done].
Qed.

Lemma map_result_Throw_elem {A B} (f : A -> result B) (l : list A) a e :
  a ∈ l -> f a = Throw e -> (forall a' e', f a' = Throw e' -> e' = e) ->
  map_result f l = Throw e.
Proof.
  intros Hin Ha Hone. induction l as [|a0 l IH]; [by apply elem_of_nil in Hin|].
  cbn [map_result]. destruct (f a0) as [b|e0] eqn:H0; cbn [mbind result_bind].
  - apply elem_of_cons in Hin as [->|Hin]; [congruence|].
    by rewrite IH.
  - f_equal. by apply (Hone a0).
Qed.

Lemma param_pair_throws kv e :
  param_pair kv = Throw e <-> e = URIError /\ encode (param_text kv.2) = None.
Proof.
  unfold param_pair, encodeURIComponent.
  destruct (encode (param_text kv.2)); cbn; split; try done.
  - by intros [_ ?].
  - by intros [= <-].
  - by intros [-> _].
Qed.

(** X5: [params2query] throws nothing but [URIError], and throws it exactly
    when the text of some value has an unpaired surrogate. *)
Theorem X5_params2query_throws (p : list (list N * value)) :
  Forall (fun kv => Forall code_unit (param_text kv.2)) p ->
  (forall e, params2query p = Throw e -> e = URIError)
  /\ (params2query p = Throw URIError
      <-> exists kv, kv ∈ p /\ well_formed_utf16 (param_text kv.2) = false).
Proof.
  intros Hcu. rewrite Forall_forall in Hcu.
  assert (H : forall e, params2query p = Throw e
                        <-> map_result param_pair p = Throw e).
  { intros e. unfold params2query.
    destruct (map_result param_pair p); cbn; split; by try intros [= <-]. }
  split.
  - intros e (kv & _ & Hkv)%H%map_result_throws.
    by apply param_pair_throws in Hkv as [-> _].
  - rewrite H. split.
    + intros (kv & Hin & Hkv)%map_result_throws. exists kv. split; [done|].
      apply param_pair_throws in Hkv as [_ Hkv].
      by apply encode_fails_iff; [apply Hcu|].
    + intros (kv & Hin & Hwf).
      apply (map_result_Throw_elem _ _ kv); [done| |].
      * apply param_pair_throws. split; [done|].
        by apply encode_fails_iff; [apply Hcu|].
      * intros kv' e' Hkv'. by apply param_pair_throws in Hkv' as [-> _].
Qed.

Lemma X5_params2query_throws_witness :
  params2query [(str "a", VNum (Num 1 0)); (str "b", VStr [55357])]
    = Throw URIError.
Proof.
  apply (X5_params2query_throws
           [(str "a", VNum (Num 1 0)); (str "b", VStr [55357])]).
  - repeat constructor; by vm_compute.
  - exists (str "b", VStr [55357]). split; [|by vm_compute].
    right. left.
Defined.



(** ** More on [arrayOfNodesWith]: arrays *)

Lemma arrayOfNodesWith_cons doc item items :
  arrayOfNodesWith doc (AArr (item :: items))
  = (ns ← arrayOfNodesWith doc item;
     rest ← arrayOfNodesWith doc (AArr items); Ok (ns ++ rest)).
Proof. reflexivity. Qed.

Lemma arrayOfNodesWith_app doc xs ys :
  arrayOfNodesWith doc (AArr (xs ++ ys))
  = (ns ← arrayOfNodesWith doc (AArr xs);
     rest ← arrayOfNodesWith doc (AArr ys); Ok (ns ++ rest)).
Proof.
  induction xs as [|x xs IH].
  - cbn [app]. change (arrayOfNodesWith doc (AArr [])) with (Ok (@nil nat)).
    cbn [mbind result_bind].
    by destruct (arrayOfNodesWith doc (AArr ys)).
  - cbn [app]. rewrite !arrayOfNodesWith_cons, IH.
    destruct (arrayOfNodesWith doc x) as [n1|]; [|done].
    cbn [mbind result_bind].
    destruct (arrayOfNodesWith doc (AArr xs)) as [n2|]; [|done].
    cbn [mbind result_bind].
    destruct (arrayOfNodesWith doc (AArr ys)) as [n3|]; [|done].
    cbn [mbind result_bind]. by rewrite app_assoc.
Qed.

(** X7: an array inside an array is spliced in place: the result, or the
    error, is the same as for the array with the inner items written out, at
    any depth. *)
Theorem X7_nested_arrays_are_spliced (doc : document)
    (before inner after : list jsany) :
  arrayOfNodesWith doc (AArr (before ++ AArr inner :: after))
  = arrayOfNodesWith doc (AArr (before ++ inner ++ after)).
Proof.
  rewrite !arrayOfNodesWith_app, arrayOfNodesWith_cons.
  destruct (arrayOfNodesWith doc (AArr before)) as [n1|]; [|done].
  cbn [mbind result_bind].
  by destruct (arrayOfNodesWith doc (AArr inner)) as [n2|].
Qed.

(** X8: an array gives the nodes of its items, concatenated in order, when
    every item is accepted; otherwise the call throws what the first
    rejected item throws, and returns no part of the result. *)
Theorem X8_array_all_or_nothing (doc : document) (items : list jsany) :
  (forall ns, arrayOfNodesWith doc (AArr items) = Ok ns
     <-> exists nss, Forall2 (fun item ns' => arrayOfNodesWith doc item = Ok ns')
                       items nss
                     /\ ns = concat nss)
  /\ (forall e, arrayOfNodesWith doc (AArr items) = Throw e
     <-> exists before item after,
           items = before ++ item :: after
           /\ Forall (fun x => exists ns', arrayOfNodesWith doc x = Ok ns')
                before
           /\ arrayOfNodesWith doc item = Throw e).
Proof.
  induction items as [|item items [IHok IHthrow]].
  { split.
    - intros ns. split.
      + intros [= <-]. exists []. by split; [constructor|].
      + intros (nss & ->%Forall2_nil_inv_l & ->). done.
    - intros e. split; [done|].
      by intros ([|? ?] & ? & ? & ? & _). }
  split.
  - intros ns. rewrite arrayOfNodesWith_cons. split.
    + destruct (arrayOfNodesWith doc item) as [n1|] eqn:H1; [|done].
      cbn [mbind result_bind].
      destruct (arrayOfNodesWith doc (AArr items)) as [n2|] eqn:H2; [|done].
      cbn [mbind result_bind]. intros [= <-].
      destruct (proj1 (IHok n2) eq_refl) as (nss & Hall & ->).
      exists (n1 :: nss). by split; [constructor|].
    + intros (nss & Hall & ->).
      apply Forall2_cons_inv_l in Hall as (n1 & nss' & H1 & Hall & ->).
      rewrite H1. cbn [mbind result_bind].
      rewrite (proj2 (IHok (concat nss'))) by by exists nss'.
      done.
  - intros e. rewrite arrayOfNodesWith_cons. split.
    + destruct (arrayOfNodesWith doc item) as [n1|e1] eqn:H1;
        cbn [mbind result_bind].
      * destruct (arrayOfNodesWith doc (AArr items)) as [n2|e2] eqn:H2;
          [done|]. cbn [mbind result_bind]. intros [= <-].
        destruct (proj1 (IHthrow e2) eq_refl)
          as (before & bad & after & -> & Hbefore & Hbad).
        exists (item :: before), bad, after.
        split; [done|]. split; [|done]. constructor; [by exists n1 | done].
      * intros [= <-]. exists [], item, items.
        by split; [|split; [constructor|]].
    + intros (before & bad & after & Heq & Hbefore & Hbad).
      destruct before as [|x before]; cbn [app] in Heq;
        injection Heq as -> ->.
      * by rewrite Hbad.
      * apply Forall_cons in Hbefore as [[n1 H1] Hbefore]. rewrite H1.
        cbn [mbind result_bind].
        rewrite (proj2 (IHthrow e)) by by exists before, bad, after.
        done.
Qed.

(** X9: an array of nodes comes back as it is, whatever the page: applying
    [arrayOfNodesWith] to an array it returned changes nothing. *)
Theorem X9_result_is_a_fixed_point (doc : document) (ns : list node) :
  arrayOfNodesWith doc (AArr (ANode <$> ns)) = Ok ns.
Proof.
  induction ns as [|n ns IH]; [done|].
  rewrite fmap_cons, arrayOfNodesWith_cons, IH. done.
Qed.

(** ** More on [watchIntersection]: what it observes, and what a bad target
    leaves behind *)

Lemma watchIntersection_world doc targets options yesHandler noHandler w :
  watchIntersection doc targets options yesHandler noHandler w
  = let io := next_id w in
    let init := with_threshold (Num 1 0) (default ∅ options) in
    let after nodes :=
      World (S io) (head w) (listeners w) (settled w) (reactions w)
        (observers w ++ [(io, Watch yesHandler noHandler)]) (players w)
        (log w ++ NewObserver io init :: map (Observe io) nodes) in
    match arrayOfNodesWith doc targets with
    | Ok nodes => (Ok io, after nodes)
    | Throw e => (Throw e, after [])
    end.
Proof.
  destruct w as [n h l s r o pl lg].
  unfold watchIntersection, new_observer. unfold bind at 1. unfold fresh at 1.
  unfold bind at 1. unfold add_observer at 1. unfold bind at 1.
  unfold emit at 1. unfold bind at 1. unfold ret at 1.
  cbn [next_id head listeners settled reactions observers players log].
  destruct (arrayOfNodesWith doc targets) as [nodes|e].
  - unfold bind, observe. rewrite for_each_emit_log. unfold ret.
    cbn [next_id head listeners settled reactions observers players log].
    by rewrite <- app_assoc.
  - done.
Qed.





(** ** [vimeoAutoPlay] on a page with video boxes *)

Section Guard.
Variable L : list (node * list N * listener).
Variable R : list (promise * continuation).
Variable P : list promise.

Local Abbreviation guarded := (all_pending L R P).
Local Abbreviation guards := (keeps_all_pending L R P).

Lemma guards_pure {A} (c : M A) :
  (forall w, listeners (c w).2 = listeners w
             /\ reactions (c w).2 = reactions w
             /\ settled (c w).2 = settled w) ->
  guards c.
Proof.
  intros Hc w (HL & HR & HP). destruct (Hc w) as (H1 & H2 & H3).
  unfold all_pending. by rewrite H1, H2, H3.
Qed.

Lemma guards_bind {A B} (c : M A) (k : A -> M B) :
  guards c ->
  (forall w a, guarded w -> (c w).1 = Ok a -> guards (k a)) ->
  guards (bind c k).
Proof.
  intros Hc Hk w Hw. unfold bind. specialize (Hc w Hw).
  specialize (Hk w). destruct (c w) as [[a|e] w']; cbn in *; [|done].
  by apply (Hk a).
Qed.

Lemma guards_for_each {A} (f : A -> M unit) (l : list A) :
  Forall (fun a => guards (f a)) l -> guards (for_each f l).
Proof.
  induction 1 as [|a l Ha _ IH]; [by apply guards_pure|].
  cbn [for_each]. apply guards_bind; [done|]. by intros.
Qed.

Lemma guards_settle q e : q ∉ P -> guards (settle q e).
Proof.
  intros Hq w (HL & HR & HP). unfold settle, bind, get.
  cbn. destruct (is_settled q w); cbn; [done|].
  repeat split; try done. rewrite Forall_forall in HP |- *.
  intros p Hp [->|?]%elem_of_cons; [done | by apply (HP p)].
Qed.

Hypothesis R_returns :
  Forall (fun r => r.1 ∉ P ->
                   match r.2 with VimeoObserve _ _ q => q ∉ P end) R.

Lemma guards_run_continuation k :
  match k with VimeoObserve _ _ q => q ∉ P end ->
  guards (run_continuation k).
Proof.
  destruct k as [vboxes opts q]. intros Hq. cbn.
  apply guards_bind; [by apply guards_pure|].
  intros. apply guards_bind; [|intros; by apply guards_settle].
  apply guards_for_each, Forall_forall. intros. by apply guards_pure.
Qed.

Lemma guards_resolve q : q ∉ P -> guards (resolve q).
Proof.
  intros Hq. unfold resolve. apply guards_bind; [by apply guards_pure|].
  intros w [] Hw _; [by apply guards_pure|].
  apply guards_bind; [by apply guards_settle|].
  intros. apply guards_bind; [by apply guards_pure|].
  intros w1 ks (_ & HR & _) [= <-].
  apply guards_for_each, Forall_forall. intros pk Hpk.
  apply guards_run_continuation.
  apply list_elem_of_filter in Hpk as [Hkey Hpk]. rewrite HR in Hpk.
  rewrite Forall_forall in R_returns. apply (R_returns pk Hpk).
  by rewrite Hkey.
Qed.

Lemma guards_run_listener l :
  match l with ScriptLoaded _ _ q => q ∉ P end -> guards (run_listener l).
Proof.
  destruct l as [el cb q]. intros Hq. cbn.
  apply guards_bind; [by apply guards_pure|].
  intros. apply guards_bind; [by apply guards_pure|].
  intros. apply guards_bind; [|intros; by apply guards_resolve].
  destruct cb; by apply guards_pure.
Qed.

Lemma guards_dispatch target type :
  Forall (fun l => l.1 = (target, type) ->
                   match l.2 with ScriptLoaded _ _ q => q ∉ P end) L ->
  guards (dispatch target type).
Proof.
  intros HL. unfold dispatch. apply guards_bind; [by apply guards_pure|].
  intros w ls (Hlist & _) [= <-].
  apply guards_for_each, Forall_forall. intros l Hl.
  apply guards_run_listener.
  apply list_elem_of_filter in Hl as [[H1 H2] Hl]. rewrite Hlist in Hl.
  rewrite Forall_forall in HL. apply (HL l Hl).
  destruct l as [[? ?] ?]. cbn in *. by subst.
Qed.

Lemma guards_deliver doc io entries : guards (deliver doc io entries).
Proof.
  unfold deliver. apply guards_bind; [by apply guards_pure|].
  intros w cbs _ _. apply guards_for_each, Forall_forall.
  intros [io' [|yes no]] _; cbn [snd];
    apply guards_for_each, Forall_forall; intros [t b] _; cbn [fst snd].
  - unfold vimeo_entry. apply guards_bind; [by apply guards_pure|].
    intros w1 has _ _. destruct b.
    + apply guards_bind; [|intros; by apply guards_pure].
      destruct has; [by apply guards_pure|].
      apply guards_bind; [by apply guards_pure|].
      intros. apply guards_bind; intros; by apply guards_pure.
    + destruct has; by apply guards_pure.
  - unfold watch_entry.
    destruct (if b then yes else no); by apply guards_pure.
Qed.

Lemma guards_player_played doc target : guards (player_played doc target).
Proof.
  unfold player_played. apply guards_bind; [by apply guards_pure|].
  intros w has _ _. destruct has; [|by apply guards_pure].
  destruct (parentElement doc target); by apply guards_pure.
Qed.

Lemma guards_step doc s :
  (forall target type, s = Dispatch target type ->
     Forall (fun l => l.1 = (target, type) ->
                      match l.2 with ScriptLoaded _ _ q => q ∉ P end) L) ->
  forall w, guarded w -> guarded (step doc s w).
Proof.
  intros HL w Hw. destruct s as [target type|io entries|target]; cbn.
  - apply guards_dispatch; [by apply HL | done].
  - by apply guards_deliver.
  - by apply guards_player_played.
Qed.
End Guard.

Lemma old_listeners_elsewhere (ls : list (node * list N * listener)) n el type :
  Forall (fun l => match l.2 with
                   | ScriptLoaded el' _ p =>
                       (l.1.1 < n /\ el' < n /\ p < n)%nat
                   end) ls ->
  (n <= el)%nat ->
  filter (fun l : node * list N * listener => l.1.1 = el /\ l.1.2 = type) ls
    = [].
Proof.
  intros Hls Hel. induction Hls as [|[[el0 ty] [el' cb' q]] ls Hx _ IH]; [done|].
  rewrite filter_cons. cbn [fst snd] in *. case_decide as Hd; [|done].
  exfalso. lia.
Qed.

Lemma old_reactions_elsewhere (rs : list (promise * continuation)) n p :
  Forall (fun r => match r.2 with
                   | VimeoObserve _ _ q => (r.1 < n /\ q < n)%nat
                   end) rs ->
  (n <= p)%nat ->
  filter (fun pk : promise * continuation => pk.1 = p) rs = [].
Proof.
  intros Hrs Hp. induction Hrs as [|[q [? ? q']] rs Hx _ IH]; [done|].
  rewrite filter_cons. cbn [fst snd] in *. case_decide as Hd; [|done].
  exfalso. lia.
Qed.




(** ** The players of [vimeoAutoPlay] *)

Lemma players_made_app l1 l2 :
  players_made (l1 ++ l2) = players_made l1 ++ players_made l2.
Proof. apply omap_app. Qed.

Lemma player_log_ok_app l1 : forall have l2,
  player_log_ok have (l1 ++ l2)
  <-> player_log_ok have l1 /\ player_log_ok (have ++ players_made l1) l2.
Proof.
  induction l1 as [|e l1 IH]; intros have l2.
  { cbn. rewrite app_nil_r. tauto. }
  destruct e; cbn [app player_log_ok players_made omap];
    rewrite ?IH, ?app_nil_r, <- ?app_assoc; cbn [app]; tauto.
Qed.

Lemma player_safe_quiet {A} (c : M A) :
  (forall w, log (c w).2 = log w /\ players (c w).2 = players w) ->
  player_safe c.
Proof.
  intros Hc w. destruct (Hc w) as [H1 H2]. exists [].
  by rewrite H1, H2, !app_nil_r.
Qed.

Lemma player_safe_emit e : no_player_effect e -> player_safe (emit e).
Proof.
  intros He w. exists [e]. cbn [emit snd log players].
  split; [done|]. by destruct e; cbn; rewrite ?app_nil_r.
Qed.

Lemma player_safe_bind {A B} (c : M A) (k : A -> M B) :
  player_safe c -> (forall a, player_safe (k a)) -> player_safe (bind c k).
Proof.
  intros Hc Hk w. unfold bind. destruct (Hc w) as (e1 & Hl1 & Hp1 & Hok1).
  destruct (c w) as [[a|e] w1]; cbn [snd] in *; [|by exists e1].
  destruct (Hk a w1) as (e2 & Hl2 & Hp2 & Hok2).
  exists (e1 ++ e2). rewrite Hl2, Hl1, Hp2, Hp1, players_made_app, !app_assoc.
  split; [done|]. split; [done|].
  apply player_log_ok_app. split; [done|]. by rewrite <- Hp1.
Qed.

Lemma player_safe_for_each {A} (f : A -> M unit) (l : list A) :
  (forall a, player_safe (f a)) -> player_safe (for_each f l).
Proof.
  intros Hf. induction l as [|a l IH]; [by apply player_safe_quiet|].
  cbn [for_each]. by apply player_safe_bind.
Qed.

Lemma player_safe_settle p e :
  no_player_effect e -> player_safe (settle p e).
Proof.
  intros He. unfold settle. apply player_safe_bind; [by apply player_safe_quiet|].
  intros []; [by apply player_safe_quiet|].
  apply player_safe_bind; [by apply player_safe_quiet|].
  intros. by apply player_safe_emit.
Qed.

Lemma player_safe_new_observer cb init : player_safe (new_observer cb init).
Proof.
  unfold new_observer. apply player_safe_bind; [by apply player_safe_quiet|].
  intros. apply player_safe_bind; [by apply player_safe_quiet|].
  intros. apply player_safe_bind; [by apply player_safe_emit|].
  intros. by apply player_safe_quiet.
Qed.

Lemma player_safe_resolve p : player_safe (resolve p).
Proof.
  unfold resolve. apply player_safe_bind; [by apply player_safe_quiet|].
  intros []; [by apply player_safe_quiet|].
  apply player_safe_bind; [by apply player_safe_settle|].
  intros. apply player_safe_bind; [by apply player_safe_quiet|].
  intros ks. apply player_safe_for_each. intros [q [vboxes opts r]].
  cbn [snd run_continuation].
  apply player_safe_bind; [apply player_safe_new_observer|].
  intros. apply player_safe_bind; [|intros; by apply player_safe_settle].
  apply player_safe_for_each. intros. by apply player_safe_emit.
Qed.

Lemma player_safe_dispatch target type : player_safe (dispatch target type).
Proof.
  unfold dispatch. apply player_safe_bind; [by apply player_safe_quiet|].
  intros ls. apply player_safe_for_each. intros [[el ty] [scriptEl cb p]].
  cbn [snd run_listener].
  apply player_safe_bind; [by apply player_safe_quiet|].
  intros. apply player_safe_bind; [by apply player_safe_emit|].
  intros. apply player_safe_bind; [|intros; apply player_safe_resolve].
  destruct cb; [by apply player_safe_emit | by apply player_safe_quiet].
Qed.

Lemma player_safe_vimeo_entry doc target isIntersecting :
  player_safe (vimeo_entry doc target isIntersecting).
Proof.
  intros [n h l s r o pl lg]. unfold vimeo_entry. run_world.
  destruct (bool_decide (target ∈ pl)) eqn:Hhas.
  - apply bool_decide_eq_true in Hhas. destruct isIntersecting; run_world.
    + exists [Play target]. by rewrite app_nil_r.
    + exists [Pause target]. by rewrite app_nil_r.
  - apply bool_decide_eq_false in Hhas. destruct isIntersecting; run_world.
    + exists [NewPlayer target (vimeoVid doc target);
              PlayerOn target (str "play"); Play target].
      cbn [snd log players players_made omap player_log_ok].
      split; [by rewrite <- !app_assoc|]. split; [done|].
      assert (Hin : target ∈ pl ++ [target])
        by (apply elem_of_app; right; left).
      split; [done|]. split; [exact Hin|]. split; [exact Hin | done].
    + exists []. by rewrite !app_nil_r.
Qed.

Lemma player_safe_deliver doc io entries : player_safe (deliver doc io entries).
Proof.
  unfold deliver. apply player_safe_bind; [by apply player_safe_quiet|].
  intros cbs. apply player_safe_for_each. intros [io' [|yes no]]; cbn [snd];
    apply player_safe_for_each; intros [t b]; cbn [fst snd].
  - apply player_safe_vimeo_entry.
  - unfold watch_entry. destruct (if b then yes else no);
      [by apply player_safe_emit | by apply player_safe_quiet].
Qed.

Lemma player_safe_player_played doc target :
  player_safe (player_played doc target).
Proof.
  unfold player_played. apply player_safe_bind; [by apply player_safe_quiet|].
  intros []; [|by apply player_safe_quiet].
  destruct (parentElement doc target);
    [by apply player_safe_emit | by apply player_safe_quiet].
Qed.

Lemma player_safe_preloadScript url cb : player_safe (preloadScript url cb).
Proof.
  intros w. rewrite preloadScript_world. eexists. cbn [snd log players].
  split; [reflexivity|]. by rewrite app_nil_r.
Qed.

Lemma observing_makes_no_player io init (nodes : list node) :
  players_made (NewObserver io init :: map (Observe io) nodes) = [].
Proof. cbn. induction nodes as [|x nodes IH]; [done | exact IH]. Qed.

Lemma observing_is_in_order have io init (nodes : list node) :
  player_log_ok have (NewObserver io init :: map (Observe io) nodes).
Proof. cbn. induction nodes as [|x nodes IH]; [done | exact IH]. Qed.

Lemma player_safe_perform doc c w :
  exists ext,
    log (perform doc c w) = log w ++ ext
    /\ players (perform doc c w) = players w ++ players_made ext
    /\ player_log_ok (players w) ext.
Proof.
  destruct c as [url cb|opts|targets options yes no|[t ty|io es|t]];
    cbn [perform step].
  - apply player_safe_preloadScript.
  - revert w. change (player_safe (vimeoAutoPlay doc opts)).
    unfold vimeoAutoPlay. apply player_safe_bind; [by apply player_safe_quiet|].
    intros r. destruct (querySelectorAll doc vimeo_selector) as [[|b bs]|e].
    + apply player_safe_bind; [by apply player_safe_settle|].
      intros. by apply player_safe_quiet.
    + apply player_safe_bind; [apply player_safe_preloadScript|].
      intros. apply player_safe_bind; by intros; apply player_safe_quiet.
    + apply player_safe_bind; [by apply player_safe_settle|].
      intros. by apply player_safe_quiet.
  - rewrite watchIntersection_world. cbv zeta.
    destruct (arrayOfNodesWith doc targets) as [nodes|e];
      cbn [snd log players]; eexists; (split; [reflexivity|]).
    + rewrite observing_makes_no_player, app_nil_r. split; [done|].
      apply observing_is_in_order.
    + by rewrite app_nil_r.
  - apply player_safe_dispatch.
  - apply player_safe_deliver.
  - apply player_safe_player_played.
Qed.

(** X13: in every log that calls of the module and steps of the browser
    can produce from the empty page, a player is constructed at most once
    for a target, and every [on], [play] and [pause] goes to the player of a
    target for which one was constructed before. *)
Theorem X13_one_player_per_target (doc : document) (calls : list call) :
  let w := fold_left (fun w c => perform doc c w) calls initial in
  player_log_ok [] (log w)
  /\ players w = players_made (log w)
  /\ NoDup (players w).
Proof.
  cbv zeta.
  assert (H : forall w,
             player_log_ok [] (log w) /\ players w = players_made (log w) ->
             player_log_ok []
               (log (fold_left (fun w c => perform doc c w) calls w))
             /\ players (fold_left (fun w c => perform doc c w) calls w)
                = players_made
                    (log (fold_left (fun w c => perform doc c w) calls w))).
  { induction calls as [|c calls IH]; intros w Hw; [done|].
    cbn [fold_left]. apply IH. destruct Hw as [Hok Hpl].
    destruct (player_safe_perform doc c w) as (ext & -> & -> & Hext).
    split.
    - apply player_log_ok_app. split; [done|]. cbn [app]. by rewrite <- Hpl.
    - by rewrite players_made_app, Hpl. }
  destruct (H initial) as [Hok Hpl]; [done|]. split; [done|]. split; [done|].
  rewrite Hpl. revert Hok. generalize (log (fold_left (fun w c => perform doc c w) calls initial)).
  intros lg. change (players_made lg) with ([] ++ players_made lg) at 1.
  assert (Hnil : NoDup (@nil node)) by constructor. revert Hnil.
  generalize (@nil node) as have. induction lg as [|e lg IH]; intros have Hnd Hok.
  { by rewrite app_nil_r. }
  destruct e; cbn [players_made omap player_log_ok] in *;
    try (apply IH; tauto).
  destruct Hok as [Hnew Hok]. specialize (IH (have ++ [target])).
  rewrite <- app_assoc in IH. apply IH; [|done].
  apply NoDup_app. split; [done|]. split; [|apply NoDup_singleton].
  intros x Hx ->%list_elem_of_singleton. done.
Qed.

(** ** [getNextData] *)

Lemma skip_ws_all_space s : Forall (fun c => is_ws c = true) s -> skip_ws s = [].
Proof. induction 1 as [|c s Hc _ IH]; [done|]. cbn. by rewrite Hc. Qed.

(** X14: when the page has the element [__NEXT_DATA__] and its text is what
    [JSON.stringify] writes for a value, [getNextData] returns that value,
    whatever [window.__NEXT_DATA__] holds. *)
Theorem X14_next_data_read_back (page : next_page) (v : value) (t : list N) :
  json_ok v -> JSON_stringify v = Some t ->
  getElementById page (str "__NEXT_DATA__") = Some t ->
  getNextData page = Ok v.
Proof.
  intros Hok Ht Hel. unfold getNextData, JSON_parse. rewrite Hel.
  by rewrite (parse_json_serialize v t).
Qed.

Lemma X14_next_data_read_back_witness :
  getNextData
    (NextPage (fun _ => Some (str "[7,null,[true,1.5]]")) (VStr (str "stale")))
  = Ok (VArr [VNum (Num 7 0); VNull; VArr [VBool true; VNum (Num 15 (-1))]]).
Proof.
  apply (X14_next_data_read_back _ _ (str "[7,null,[true,1.5]]")).
  - repeat constructor; try compute_done; by vm_compute.
  - by vm_compute.
  - reflexivity.
Defined.

(** X15: there is no falling back: when the element [__NEXT_DATA__] exists
    but its text is empty or only white space, [getNextData] throws a
    [SyntaxError], even if [window.__NEXT_DATA__] is set. *)
Theorem X15_next_data_no_fallback (page : next_page) (text : list N) :
  getElementById page (str "__NEXT_DATA__") = Some text ->
  Forall (fun c => is_ws c = true) text ->
  getNextData page = Throw SyntaxError.
Proof.
  intros Hel Hws. unfold getNextData, JSON_parse, parse_json. rewrite Hel.
  replace (2 * length text + 2)%nat with (S (2 * length text + 1)) by lia.
  cbn [parse_value]. by rewrite skip_ws_all_space.
Qed.

Lemma X15_next_data_no_fallback_witness :
  getNextData (NextPage (fun _ => Some [10; 32; 32]) (VObj [])) = Throw SyntaxError.
Proof.
  apply (X15_next_data_no_fallback _ [10; 32; 32]); [reflexivity|].
  repeat constructor.
Defined.

(** ** [insertVimeoBox] *)

Section InsertVimeoBox.
Import Dom.

(** Induction on a tree of nodes, with the property of every child at
    hand. *)
Lemma dom_induction (P : dom -> Prop) :
  (forall data, P (Text data)) ->
  (forall tag classes dataset children,
     Forall P children -> P (Element tag classes dataset children)) ->
  forall n, P n.
Proof.
  intros Htext Hel. fix IH 1. intros [data|tag classes dataset children].
  - apply Htext.
  - apply Hel. induction children as [|c cs IHcs].
    + constructor.
    + constructor; [apply IH | exact IHcs].
Qed.

Lemma query_element cls tag classes dataset children :
  query cls (Element tag classes dataset children)
  = if bool_decide (cls ∈ classes) then Some []
    else first_match cls O children.
Proof.
  cbn [query]. destruct (bool_decide (cls ∈ classes)); [done|].
  generalize O. induction children as [|c cs IH]; intros i; [done|].
  cbn [first_match]. destruct (query cls c); [done|]. apply IH.
Qed.

Lemma first_match_shift cls i l : forall k,
  first_match cls (i + k) l
  = (fun p => match p with
              | j :: q => (i + j)%nat :: q
              | [] => []
              end) <$> first_match cls k l.
Proof.
  induction l as [|c l IH]; intros k; [done|]. cbn [first_match].
  destruct (query cls c) as [q|]; [done|].
  by rewrite <- IH, Nat.add_succ_r.
Qed.

Lemma first_match_cons cls c l :
  first_match cls O (c :: l)
  = match query cls c with
    | Some p => Some (O :: p)
    | None => (fun p => match p with
                        | j :: q => S j :: q
                        | [] => []
                        end) <$> first_match cls O l
    end.
Proof.
  cbn [first_match]. destruct (query cls c); [done|].
  apply (first_match_shift cls 1 l O).
Qed.

Lemma first_match_nonempty cls l : first_match cls O l ≠ Some [].
Proof.
  destruct l as [|c l]; [done|]. rewrite first_match_cons.
  destruct (query cls c); [done|].
  destruct (first_match cls O l) as [[|? ?]|] eqn:Hl; cbn; try done.
  intros _. revert Hl. clear. generalize O.
  induction l as [|c l IH]; intros i; [done|]. cbn [first_match].
  destruct (query cls c); [done | apply IH].
Qed.

(** The path that [querySelector] returns leads to an element with the
    class. *)
Lemma querySelector_finds cls : forall l p,
  querySelector cls l = Some p ->
  exists classes, classes_at p l = Some classes /\ cls ∈ classes.
Proof.
  unfold querySelector.
  assert (H : forall n, forall p,
             query cls n = Some p ->
             match p with
             | [] => exists tag classes d cs,
                       n = Element tag classes d cs /\ cls ∈ classes
             | _ :: _ => exists classes,
                       classes_at p (children_of n) = Some classes
                       /\ cls ∈ classes
             end).
  { induction n as [data|tag classes d cs IH] using dom_induction; [done|].
    intros p. rewrite query_element. case_bool_decide as Hcls.
    - intros [= <-]. by exists tag, classes, d, cs.
    - cbn [children_of]. clear Hcls. revert p.
      induction IH as [|c cs Hc _ IHcs]; intros p; [done|].
      rewrite first_match_cons. destruct (query cls c) as [q|] eqn:Hq.
      + intros [= <-]. specialize (Hc q eq_refl). destruct q as [|j q].
        * destruct Hc as (t & cl & d' & cs' & -> & Hin). by exists cl.
        * destruct Hc as (cl & Hat & Hin). exists cl. split; [|done].
          unfold classes_at in *. done.
      + destruct (first_match cls O cs) as [[|j q]|] eqn:Hrest; [|  |done].
        { by apply first_match_nonempty in Hrest. }
        cbn. intros [= <-]. destruct (IHcs (j :: q) eq_refl) as (cl & Hat & Hin).
        exists cl. split; [|done]. exact Hat. }
  intros l p Hp.
  specialize (H (Element [] [] [] l) p). rewrite query_element in H.
  rewrite bool_decide_eq_false_2 in H by by intros ?%elem_of_nil.
  specialize (H Hp). destruct p as [|j q]; [|exact H].
  by apply first_match_nonempty in Hp.
Qed.

Lemma first_match_alter cls (g : dom -> dom) :
  (forall n, query cls (g n) = query cls n) ->
  forall l i j, first_match cls i (alter g j l) = first_match cls i l.
Proof.
  intros Hg. induction l as [|c l IH]; intros i j; [done|].
  destruct j as [|j]; cbn [alter list_alter first_match].
  - by rewrite Hg.
  - destruct (query cls c); [done|]. apply IH.
Qed.

(** Writing a video id changes no class, so it changes nothing of what
    [querySelector] finds. *)
Lemma query_update cls v : forall p n,
  query cls (update p (set_vimeoVid v) n) = query cls n.
Proof.
  induction p as [|i p IH]; intros [data|tag classes d cs]; try done.
  cbn [update]. rewrite !query_element.
  destruct (bool_decide (cls ∈ classes)); [done|].
  by apply first_match_alter.
Qed.

Lemma querySelector_update_at cls v p l :
  querySelector cls (update_at p (set_vimeoVid v) l) = querySelector cls l.
Proof.
  unfold querySelector. destruct p as [|i p]; [done|]. cbn [update_at].
  apply first_match_alter. intros n. apply query_update.
Qed.

Lemma first_match_app cls l1 l2 : forall i p,
  first_match cls i l1 = Some p -> first_match cls i (l1 ++ l2) = Some p.
Proof.
  induction l1 as [|c l1 IH]; intros i p; [done|].
  cbn [app first_match]. destruct (query cls c); [done|]. apply IH.
Qed.

Lemma descend_update_same f : forall p n,
  descend p (update p f n) = f <$> descend p n.
Proof.
  induction p as [|i p IH]; intros n; [done|].
  destruct n as [data|tag classes d cs]; [by cbn|].
  cbn [update descend children_of]. rewrite list_lookup_alter_eq.
  destruct (cs !! i) as [c|]; [|reflexivity]. cbn. apply IH.
Qed.

Lemma descend_update_other f :
  (forall n, children_of (f n) = children_of n) ->
  forall p q n, q ≠ p ->
  own <$> descend q (update p f n) = own <$> descend q n.
Proof.
  intros Hf. induction p as [|i p IH]; intros q n Hq.
  - destruct q as [|j q]; [done|]. cbn [update descend]. by rewrite Hf.
  - destruct n as [data|tag classes d cs]; [done|].
    destruct q as [|j q]; [done|].
    cbn [update descend children_of].
    destruct (decide (j = i)) as [->|Hj].
    + rewrite list_lookup_alter_eq. destruct (cs !! i) as [c|]; [|reflexivity].
      cbn. apply IH. congruence.
    + by rewrite list_lookup_alter_ne.
Qed.

Lemma node_at_update_same f p l :
  node_at p (update_at p f l) = f <$> node_at p l.
Proof.
  destruct p as [|i p]; [done|]. cbn [node_at update_at].
  rewrite list_lookup_alter_eq. destruct (l !! i) as [c|]; [|reflexivity].
  cbn. apply descend_update_same.
Qed.

Lemma node_at_update_other f p q l :
  (forall n, children_of (f n) = children_of n) -> q ≠ p ->
  own <$> node_at q (update_at p f l) = own <$> node_at q l.
Proof.
  intros Hf Hq. destruct q as [|j q]; [by destruct p|].
  destruct p as [|i p]; [done|]. cbn [node_at update_at].
  destruct (decide (j = i)) as [->|Hj].
  - rewrite list_lookup_alter_eq. destruct (l !! i) as [c|]; [|reflexivity].
    cbn. apply descend_update_other; [done|]. congruence.
  - by rewrite list_lookup_alter_ne.
Qed.

Lemma classes_at_update v p q l :
  classes_at q (update_at p (set_vimeoVid v) l) = classes_at q l.
Proof.
  unfold classes_at. destruct (decide (q = p)) as [->|Hq].
  - rewrite node_at_update_same.
    by destruct (node_at p l) as [[|? ? ? ?]|].
  - pose proof (node_at_update_other (set_vimeoVid v) p q l) as H.
    destruct (node_at q (update_at p (set_vimeoVid v) l)) as [[|? ? ? ?]|],
      (node_at q l) as [[|? ? ? ?]|];
      cbn in H; try done;
      (discriminate H + (injection H as <-; done) + idtac);
      try (by (specialize (H ltac:(by intros []) Hq))).
    specialize (H ltac:(by intros []) Hq). by injection H as _ <- _.
Qed.

Lemma dataset_at_update_other v p q l :
  q ≠ p ->
  dataset_at q (update_at p (set_vimeoVid v) l) = dataset_at q l.
Proof.
  intros Hq. unfold dataset_at.
  pose proof (node_at_update_other (set_vimeoVid v) p q l
                ltac:(by intros []) Hq) as H.
  destruct (node_at q (update_at p (set_vimeoVid v) l)) as [[|? ? ? ?]|],
    (node_at q l) as [[|? ? ? ?]|]; cbn in H; try done.
  by injection H as _ _ <-.
Qed.

Lemma dataset_at_update_same v p l classes :
  classes_at p l = Some classes ->
  exists d, dataset_at p l = Some d
            /\ dataset_at p (update_at p (set_vimeoVid v) l)
               = Some (dataset_set (str "vimeoVid") v d).
Proof.
  unfold classes_at, dataset_at. rewrite node_at_update_same.
  destruct (node_at p l) as [[|tag cl d cs]|]; try done.
  intros _. by exists d.
Qed.

Lemma dataset_get_set k v d : dataset_get k (dataset_set k v d) = Some v.
Proof.
  induction d as [|[k' v'] d IH]; cbn.
  - by rewrite decide_True.
  - destruct (decide (k' = k)) as [->|Hk]; cbn.
    + by rewrite decide_True.
    + by rewrite decide_False.
Qed.

Lemma node_at_app p l1 l2 n :
  node_at p l1 = Some n -> node_at p (l1 ++ l2) = Some n.
Proof.
  destruct p as [|i p]; [done|]. cbn [node_at].
  destruct (l1 !! i) as [c|] eqn:Hi; [|done].
  by rewrite (lookup_app_l_Some _ _ _ _ Hi).
Qed.

Lemma update_at_length p f l : length (update_at p f l) = length l.
Proof. destruct p; [done|]. apply length_alter. Qed.

(** X16: when the page has the template [vimeoVideoBox] and its content
    has an element of class [hidden-on-mobile] and one of class
    [hidden-on-desktop], [insertVimeoBox] puts a copy of the content in
    front of the children of the container, which stay as they were.  In
    the container the first element of class [hidden-on-desktop] now carries
    the mobile id, and the first one of class [hidden-on-mobile] the desktop
    id, unless it is the same element, which then carries the mobile id.
    The copy differs from the content in nothing else: every other element
    has the dataset it had, and every element its classes. *)
Theorem X16_insert_writes_ids (pg : page) (ids : vimeo_ids)
    (content : list dom) (tag : list N) (classes : list (list N))
    (dataset : list (list N * list N)) (children : list dom)
    (p1 p2 : list nat) :
  getElementById pg (str "vimeoVideoBox") = Template content ->
  querySelector (str "hidden-on-mobile") content = Some p1 ->
  querySelector (str "hidden-on-desktop") content = Some p2 ->
  exists inserted,
    insertVimeoBox pg ids (Element tag classes dataset children)
      = (Ok tt, Element tag classes dataset (inserted ++ children))
    /\ length inserted = length content
    /\ querySelector (str "hidden-on-desktop") (inserted ++ children) = Some p2
    /\ dataset_at p2 (inserted ++ children) ≫= dataset_get (str "vimeoVid")
       = Some (mobileId ids)
    /\ querySelector (str "hidden-on-mobile") (inserted ++ children) = Some p1
    /\ (p1 ≠ p2 ->
        dataset_at p1 (inserted ++ children) ≫= dataset_get (str "vimeoVid")
        = Some (desktopId ids))
    /\ (forall q, q ≠ p1 -> q ≠ p2 ->
        dataset_at q inserted = dataset_at q content)
    /\ (forall q, classes_at q inserted = classes_at q content).
Proof.
  intros Htpl H1 H2.
  set (clone1 := update_at p1 (set_vimeoVid (desktopId ids)) content).
  set (clone2 := update_at p2 (set_vimeoVid (mobileId ids)) clone1).
  assert (H2' : querySelector (str "hidden-on-desktop") clone1 = Some p2)
    by (unfold clone1; by rewrite querySelector_update_at).
  exists clone2. split.
  { unfold insertVimeoBox. rewrite Htpl. cbv zeta. rewrite H1.
    fold clone1. rewrite H2'. done. }
  split; [unfold clone2, clone1; by rewrite !update_at_length|].
  assert (Hq2 : querySelector (str "hidden-on-desktop") clone2 = Some p2)
    by (unfold clone2; by rewrite querySelector_update_at).
  assert (Hq1 : querySelector (str "hidden-on-mobile") clone2 = Some p1)
    by (unfold clone2, clone1; by rewrite !querySelector_update_at).
  destruct (querySelector_finds _ _ _ H2') as (cl2 & Hcl2 & _).
  destruct (querySelector_finds _ _ _ H1) as (cl1 & Hcl1 & _).
  destruct (dataset_at_update_same (mobileId ids) p2 clone1 cl2 Hcl2)
    as (d2 & _ & Hd2). fold clone2 in Hd2.
  destruct (dataset_at_update_same (desktopId ids) p1 content cl1 Hcl1)
    as (d1 & _ & Hd1). fold clone1 in Hd1.
  assert (Happ : forall p d, dataset_at p clone2 = Some d ->
                             dataset_at p (clone2 ++ children) = Some d).
  { intros p d. unfold dataset_at.
    destruct (node_at p clone2) as [n|] eqn:Hn; [|done].
    by rewrite (node_at_app p clone2 children n Hn). }
  split; [by apply first_match_app|].
  split; [rewrite (Happ _ _ Hd2); cbn; apply dataset_get_set|].
  split; [by apply first_match_app|].
  split.
  { intros Hne. rewrite (Happ p1 (dataset_set (str "vimeoVid") (desktopId ids) d1)).
    - cbn. apply dataset_get_set.
    - unfold clone2. by rewrite dataset_at_update_other. }
  split.
  - intros q Hq1' Hq2'. unfold clone2, clone1.
    by rewrite !dataset_at_update_other.
  - intros q. unfold clone2, clone1. by rewrite !classes_at_update.
Qed.

Lemma X16_insert_writes_ids_witness :
  exists inserted,
    insertVimeoBox
      (Page (fun _ =>
         Template
           [Text (str " ");
            Element (str "div") [str "vimeo-video-box"] []
              [Element (str "div") [str "hidden-on-mobile"] [] [];
               Element (str "div") [str "hidden-on-desktop"] [] []]]))
      (VimeoIds (str "111") (str "222"))
      (Element (str "section") [] [] [Text (str "old")])
    = (Ok tt, Element (str "section") [] [] (inserted ++ [Text (str "old")]))
    /\ dataset_at [1; 1]%nat (inserted ++ [Text (str "old")])
         ≫= dataset_get (str "vimeoVid") = Some (str "222")
    /\ dataset_at [1; 0]%nat (inserted ++ [Text (str "old")])
         ≫= dataset_get (str "vimeoVid") = Some (str "111").
Proof.
  destruct (X16_insert_writes_ids
              (Page (fun _ =>
                 Template
                   [Text (str " ");
                    Element (str "div") [str "vimeo-video-box"] []
                      [Element (str "div") [str "hidden-on-mobile"] [] [];
                       Element (str "div") [str "hidden-on-desktop"] [] []]]))
              (VimeoIds (str "111") (str "222"))
              _ (str "section") [] [] [Text (str "old")]
              [1; 0]%nat [1; 1]%nat eq_refl)
    as (inserted & Hrun & _ & _ & Hmobile & _ & Hdesktop & _);
    [by vm_compute | by vm_compute|].
  exists inserted. split; [exact Hrun|]. split; [exact Hmobile|].
  apply Hdesktop. discriminate.
Defined.

(** X17: [insertVimeoBox] fails with a [TypeError], and leaves the
    container as it was, exactly when the page has no template
    [vimeoVideoBox], or the content of the template lacks an element of
    class [hidden-on-mobile] or one of class [hidden-on-desktop], or the
    container is not an element; it fails in no other way. *)
Theorem X17_insert_fails_before_it_inserts (pg : page) (ids : vimeo_ids)
    (container : dom) :
  (forall e, (insertVimeoBox pg ids container).1 = Throw e ->
     e = TypeError /\ (insertVimeoBox pg ids container).2 = container)
  /\ ((insertVimeoBox pg ids container).1 = Throw TypeError
      <-> match getElementById pg (str "vimeoVideoBox") with
          | Template content =>
              querySelector (str "hidden-on-mobile") content = None
              \/ querySelector (str "hidden-on-desktop") content = None
              \/ exists data, container = Text data
          | NotFound | NoTemplate => True
          end).
Proof.
  unfold insertVimeoBox.
  destruct (getElementById pg (str "vimeoVideoBox")) as [| |content];
    [by split; [intros e [= <-]|] ..|].
  cbv zeta.
  destruct (querySelector (str "hidden-on-mobile") content) as [p1|] eqn:H1;
    [|split; [by intros e [= <-] | split; [by left | done]]].
  rewrite querySelector_update_at.
  destruct (querySelector (str "hidden-on-desktop") content) as [p2|] eqn:H2;
    [|split; [by intros e [= <-] | split; [by right; left | done]]].
  destruct container as [data|tag classes dataset children]; cbn [fst snd].
  - split; [by intros e [= <-]|]. split; [|done].
    intros _. right. right. by exists data.
  - split; [done|]. split; [done|].
    intros [?|[?|[data ?]]]; done.
Qed.
End InsertVimeoBox.

(** ** The rest of the page *)

Section RestOfThePage.
Import Events.
Local Open Scope events_scope.

(** Runs the primitive operations on the world, one after the other. *)
Ltac run_page :=
  cbv beta iota delta
    [bind catch fresh emit read get ret throw set_page add_listener
     set_timers set_writes mark_settled call_if_given
     next_id page listeners timers writes settled log].

Lemma settle_world p e w :
  settle p e w
  = (Ok tt,
     if is_settled p w then w
     else World (next_id w) (page w) (listeners w) (timers w) (writes w)
            (p :: settled w) (log w ++ [e])).
Proof.
  destruct w as [n pg l t wr s lg]. unfold settle. run_page.
  by destruct (is_settled p _).
Qed.

Lemma settle_pending p e w :
  p ∉ settled w ->
  settle p e w
  = (Ok tt, World (next_id w) (page w) (listeners w) (timers w) (writes w)
              (p :: settled w) (log w ++ [e])).
Proof.
  intros Hp. rewrite settle_world. unfold is_settled.
  by rewrite bool_decide_eq_false_2.
Qed.

Lemma for_each_app {A} (f : A -> M unit) (l1 l2 : list A) (w : world) :
  for_each f (l1 ++ l2) w
  = match for_each f l1 w with
    | (Ok _, w') => for_each f l2 w'
    | (Throw e, w') => (Throw e, w')
    end.
Proof.
  revert w. induction l1 as [|a l1 IH]; intros w; [done|].
  cbn [app for_each]. unfold bind.
  destruct (f a w) as [[[]|e] w']; [apply IH | done].
Qed.

(** What running listeners leaves alone, and what it may settle. *)
Lemma run_listeners_footprint m (ls : list (target * list N * listener)) :
  forall w, exists s' ext,
    for_each (fun l => run_listener m l.2) ls w
    = (Ok tt, World (next_id w) (page w) (listeners w) (timers w) (writes w)
                (s' ++ settled w) (log w ++ ext))
    /\ s' ⊆ readied ls.
Proof.
  induction ls as [|[[t ty] l] ls IH]; intros w.
  { exists [], []. destruct w. cbn. unfold ret. by rewrite app_nil_r. }
  cbn [for_each snd]. unfold bind at 1.
  assert (Hone : exists s1 e1,
             run_listener m l w
             = (Ok tt, World (next_id w) (page w) (listeners w) (timers w)
                         (writes w) (s1 ++ settled w) (log w ++ e1))
             /\ s1 ⊆ readied [(t, ty, l)]).
  { destruct l as [cb p|f|id goal]; cbn [run_listener].
    - unfold bind at 1.
      assert (Hcall : exists e0,
                 call_if_given cb w
                 = (Ok tt, World (next_id w) (page w) (listeners w) (timers w)
                             (writes w) (settled w) (log w ++ e0))).
      { destruct cb as [f|]; [by exists [Call f []]|].
        exists []. destruct w. cbn. unfold ret. by rewrite app_nil_r. }
      destruct Hcall as (e0 & ->). rewrite settle_world. unfold is_settled.
      cbn [settled next_id page listeners timers writes log].
      case_bool_decide.
      + exists [], e0. split; [done|]. by intros ? ?%elem_of_nil.
      + exists [p], (e0 ++ [Resolve p]). rewrite <- app_assoc.
        split; [done|]. cbn. by intros ? ->%list_elem_of_singleton; left.
    - exists [], [Call f [ArgBool m]]. split; [done|].
      by intros ? ?%elem_of_nil.
    - exists [], [Ym id (str "reachGoal") goal]. split; [done|].
      by intros ? ?%elem_of_nil. }
  destruct Hone as (s1 & e1 & -> & Hs1).
  destruct (IH (World (next_id w) (page w) (listeners w) (timers w)
                  (writes w) (s1 ++ settled w) (log w ++ e1)))
    as (s2 & e2 & -> & Hs2).
  cbn [settled next_id page listeners timers writes log].
  exists (s2 ++ s1), (e1 ++ e2). rewrite <- !app_assoc. split; [done|].
  intros q [Hq|Hq]%elem_of_app.
  - apply Hs2 in Hq. unfold readied in *. cbn [omap snd].
    destruct l; [right|..]; done.
  - apply Hs1 in Hq. unfold readied in *. cbn [omap snd] in *.
    destruct l; [|by apply elem_of_nil in Hq..].
    apply list_elem_of_singleton in Hq as ->. left.
Qed.

Lemma dispatch_footprint t ty m w :
  exists s' ext,
    dispatch t ty m w
    = (Ok tt, World (next_id w) (page w) (listeners w) (timers w) (writes w)
                (s' ++ settled w) (log w ++ ext))
    /\ s' ⊆ readied (filter (fun l => l.1 = (t, ty)) (listeners w)).
Proof.
  unfold dispatch, bind, get.
  apply (run_listeners_footprint m).
Qed.

Lemma checkReady_world selector timeout p w :
  checkReady selector timeout p w
  = match height (page w) selector with
    | Throw e => (Throw e, w)
    | Ok h =>
        if truthy h then settle p (Resolve p) w
        else
          (Ok tt,
           World (S (next_id w)) (page w) (listeners w)
             (timers w ++ [(next_id w, CheckReady selector timeout p)])
             (writes w) (settled w)
             (log w ++ [SetTimeout (next_id w) timeout]))
    end.
Proof.
  destruct w as [n pg l t wr s lg]. unfold checkReady.
  unfold bind at 1. unfold read. cbn [page].
  destruct (height pg selector) as [h|e]; [|done].
  destruct (truthy h); [done|]. by run_page.
Qed.

(** What firing a timer does: nothing when no such timer is set; else the
    timer is spent and its task runs. *)
Lemma fire_world t w :
  fire t w
  = match list_find (fun x : nat * task => x.1 = t) (timers w) with
    | None => (Ok tt, w)
    | Some (_, (_, CheckReady selector timeout p)) =>
        checkReady selector timeout p
          (World (next_id w) (page w) (listeners w)
             (filter (fun x : nat * task => x.1 ≠ t) (timers w))
             (writes w) (settled w) (log w))
    end.
Proof.
  destruct w as [n pg l ts wr s lg]. unfold fire. unfold bind at 1.
  unfold get. cbn [timers].
  destruct (list_find _ ts) as [[i [t' [selector timeout p]]]|]; [|done].
  unfold bind, set_timers. done.
Qed.

Lemma write_ends_world wr reason w :
  write_ends wr reason w
  = match list_find (fun x : nat * list N * continuation => x.1.1 = wr)
            (writes w) with
    | None => (Ok tt, w)
    | Some (_, (_, text, AfterWrite p)) =>
        let rest := filter (fun x : nat * list N * continuation => x.1.1 ≠ wr)
                      (writes w) in
        match reason with
        | None =>
            settle p (Resolve p)
              (World (next_id w)
                 (Env (readyState (page w)) (height (page w))
                    (matches (page w)) (Some text))
                 (listeners w) (timers w) rest (settled w) (log w))
        | Some _ =>
            settle p (Reject p (Error clipboard_message))
              (World (next_id w) (page w) (listeners w) (timers w) rest
                 (settled w) (log w))
        end
    end.
Proof.
  destruct w as [n pg l ts ws s lg]. unfold write_ends. unfold bind at 1.
  unfold get. cbn [writes].
  destruct (list_find _ ws) as [[i [[wr' text] [p]]]|]; [|done].
  cbv zeta. destruct reason; by run_page.
Qed.

(** X18: when the document is already [interactive] or [complete], [asap]
    calls the callback at once, if there is one, and returns a promise that
    is resolved; it registers no listener. *)
Theorem X18_asap_when_ready (cb : option callback) (w : world) :
  world_ok w ->
  is_ready (readyState (page w)) = true ->
  exists w',
    asap cb w = (Ok (next_id w), w')
    /\ log w' = log w
                ++ match cb with Some f => [Call f []] | None => [] end
                ++ [Resolve (next_id w)]
    /\ is_settled (next_id w) w' = true
    /\ listeners w' = listeners w /\ timers w' = timers w.
Proof.
  intros (Hs & _) Hready. destruct w as [n pg l ts ws s lg].
  cbn [next_id page settled log listeners timers] in *.
  assert (Hn : n ∉ s).
  { intros Hin. rewrite Forall_forall in Hs. apply Hs in Hin. lia. }
  unfold asap. run_page. rewrite Hready.
  destruct cb as [f|]; run_page; rewrite settle_pending by done;
    (eexists; split; [reflexivity|]); cbn [log settled listeners timers];
    rewrite <- ?app_assoc, ?app_nil_r;
    (split; [done|]); (split; [|done]);
    apply bool_decide_eq_true; left.
Qed.

Lemma X18_asap_when_ready_witness :
  exists w',
    asap (Some 7%nat)
      (initial (Env (str "interactive") (fun _ => Ok None) (fun _ => false) None))
    = (Ok 0%nat, w')
    /\ log w' = [Call 7%nat []; Resolve 0%nat].
Proof.
  destruct (X18_asap_when_ready (Some 7%nat)
              (initial (Env (str "interactive") (fun _ => Ok None)
                          (fun _ => false) None)))
    as (w' & Hrun & Hlog & _).
  - repeat split; constructor.
  - reflexivity.
  - exists w'. split; [exact Hrun | exact Hlog].
Defined.

(** *** What a step of the browser changes *)

Lemma Forall_filter_keeps {A} (P Q : A -> Prop) `{!forall x, Decision (Q x)}
    (l : list A) :
  Forall P l -> Forall P (filter Q l).
Proof.
  rewrite !Forall_forall. intros Hall x [_ Hx]%list_elem_of_filter. by apply Hall.
Qed.

Lemma step_listeners s w : listeners (step s w) = listeners w.
Proof.
  destruct s as [t ty m|t|wr reason|e]; cbn [step].
  - by destruct (dispatch_footprint t ty m w) as (s' & ext & -> & _).
  - rewrite fire_world.
    destruct (list_find _ (timers w)) as [[i [t' [sel to p]]]|]; [|done].
    rewrite checkReady_world. cbn [page].
    destruct (height (page w) sel) as [h|]; [|done].
    destruct (truthy h); [|done]. rewrite settle_world.
    by destruct (is_settled p _).
  - rewrite write_ends_world.
    destruct (list_find _ (writes w)) as [[i [[wr' text] [p]]]|]; [|done].
    cbv zeta. destruct reason; rewrite settle_world;
      by destruct (is_settled p _).
  - done.
Qed.

Lemma step_timers (P : task -> Prop) s w :
  Forall (fun x => P x.2) (timers w) ->
  Forall (fun x => P x.2) (timers (step s w)).
Proof.
  intros Hts. destruct s as [t ty m|t|wr reason|e]; cbn [step].
  - by destruct (dispatch_footprint t ty m w) as (s' & ext & -> & _).
  - rewrite fire_world.
    destruct (list_find _ (timers w)) as [[i [t' [sel to p]]]|] eqn:Hfind;
      [|done].
    apply list_find_Some in Hfind as (Hi & _ & _).
    assert (Htask : P (CheckReady sel to p)).
    { rewrite Forall_forall in Hts.
      apply (Hts (t', CheckReady sel to p)). by eapply list_elem_of_lookup_2. }
    assert (Hrest : Forall (fun x : nat * task => P x.2)
                      (filter (fun x : nat * task => x.1 ≠ t) (timers w)))
      by by apply Forall_filter_keeps.
    rewrite checkReady_world. cbn [page].
    destruct (height (page w) sel) as [h|]; [|done].
    destruct (truthy h).
    + rewrite settle_world. by destruct (is_settled p _).
    + cbn [snd timers]. apply Forall_app. split; [done|].
      by repeat constructor.
  - rewrite write_ends_world.
    destruct (list_find _ (writes w)) as [[i [[wr' text] [p]]]|]; [|done].
    cbv zeta. destruct reason; rewrite settle_world;
      by destruct (is_settled p _).
  - done.
Qed.

Lemma step_writes (P : nat * list N * continuation -> Prop) s w :
  Forall P (writes w) -> Forall P (writes (step s w)).
Proof.
  intros Hws. destruct s as [t ty m|t|wr reason|e]; cbn [step].
  - by destruct (dispatch_footprint t ty m w) as (s' & ext & -> & _).
  - rewrite fire_world.
    destruct (list_find _ (timers w)) as [[i [t' [sel to p]]]|]; [|done].
    rewrite checkReady_world. cbn [page].
    destruct (height (page w) sel) as [h|]; [|done].
    destruct (truthy h); [|done]. rewrite settle_world.
    by destruct (is_settled p _).
  - rewrite write_ends_world.
    destruct (list_find _ (writes w)) as [[i [[wr' text] [p]]]|]; [|done].
    cbv zeta.
    assert (Hrest : Forall P (filter (fun x : nat * list N * continuation =>
                                        x.1.1 ≠ wr) (writes w)))
      by by apply Forall_filter_keeps.
    destruct reason; rewrite settle_world;
      by destruct (is_settled p _).
  - done.
Qed.

(** A step settles a promise only through a listener, a timer or a write
    that is for it. *)
Lemma step_settles p s w :
  p ∉ settled w -> p ∈ settled (step s w) ->
  match s with
  | Dispatch t ty _ =>
      p ∈ readied (filter (fun l => l.1 = (t, ty)) (listeners w))
  | Fire t =>
      exists selector timeout, (t, CheckReady selector timeout p) ∈ timers w
  | WriteEnds wr _ => exists text, (wr, text, AfterWrite p) ∈ writes w
  | PageChanges _ => False
  end.
Proof.
  intros Hp. destruct s as [t ty m|t|wr reason|e]; cbn [step].
  - destruct (dispatch_footprint t ty m w) as (s' & ext & -> & Hs').
    cbn [snd settled]. intros [Hin|Hin]%elem_of_app; [by apply Hs' | done].
  - rewrite fire_world.
    destruct (list_find _ (timers w)) as [[i [t' [sel to q]]]|] eqn:Hfind;
      [|done].
    apply list_find_Some in Hfind as (Hi & Ht' & _). cbn in Ht'. subst t'.
    rewrite checkReady_world. cbn [page].
    destruct (height (page w) sel) as [h|]; [|done].
    destruct (truthy h); [|done]. rewrite settle_world.
    destruct (is_settled q _); [done|]. cbn [snd settled].
    intros [->|Hin]%elem_of_cons; [|done].
    exists sel, to. by eapply list_elem_of_lookup_2.
  - rewrite write_ends_world.
    destruct (list_find _ (writes w)) as [[i [[wr' text] [q]]]|] eqn:Hfind;
      [|done].
    apply list_find_Some in Hfind as (Hi & Hwr & _). cbn in Hwr. subst wr'.
    cbv zeta.
    destruct reason; rewrite settle_world;
      (destruct (is_settled q _); [done|]); cbn [snd settled];
      (intros [->|Hin]%elem_of_cons; [|done]);
      exists text; by eapply list_elem_of_lookup_2.
  - done.
Qed.

Lemma readied_elem q (ls : list (target * list N * listener)) :
  q ∈ readied ls <-> exists k cb, (k, Ready cb q) ∈ ls.
Proof.
  unfold readied. rewrite list_elem_of_omap. split.
  - intros ([k [cb p|f|id goal]] & Hin & Hq); cbn in Hq; try done.
    injection Hq as ->. by exists k, cb.
  - intros (k & cb & Hin). by exists (k, Ready cb q).
Qed.

Lemma fresh_not_awaited w :
  world_ok w -> not_awaited (next_id w) w.
Proof.
  intros (_ & _ & Hts & _ & Hws & _). split.
  - eapply Forall_impl; [exact Hts|]. intros [t [sel to q]]; cbn. lia.
  - eapply Forall_impl; [exact Hws|]. intros [[wr text] [q]]; cbn. lia.
Qed.

Lemma step_not_awaited p s w : not_awaited p w -> not_awaited p (step s w).
Proof.
  intros [Hts Hws]. split.
  - by apply (step_timers
                (fun x => match x with CheckReady _ _ q => q ≠ p end)).
  - by apply step_writes.
Qed.

(** X19: while the document is still loading, [asap] calls nothing and
    returns a pending promise.  Whatever happens next (the ready state may
    change, other events, timers and clipboard writes may come), the
    promise stays pending until a [DOMContentLoaded] event is dispatched at
    the document; at that event, after the listeners registered before it,
    the callback is called, if there is one, and then the promise
    resolves. *)
Theorem X19_asap_waits_for_the_event (cb : option callback) (w : world) :
  world_ok w ->
  is_ready (readyState (page w)) = false ->
  let p := next_id w in
  exists w1,
    asap cb w = (Ok p, w1)
    /\ log w1
       = log w ++ [AddEventListener TheDocument (str "DOMContentLoaded")]
    /\ forall steps,
        (forall m, Dispatch TheDocument (str "DOMContentLoaded") m ∉ steps) ->
        is_settled p (run steps w1) = false
        /\ forall m, exists before w3,
            dispatch TheDocument (str "DOMContentLoaded") m (run steps w1)
              = (Ok tt, w3)
            /\ log w3 = log (run steps w1) ++ before
                        ++ match cb with Some f => [Call f []] | None => [] end
                        ++ [Resolve p]
            /\ is_settled p w3 = true.
Proof.
  intros Hok Hloading p.
  pose proof (fresh_not_awaited w Hok) as Hfree.
  destruct Hok as (Hs & Hl & _).
  set (L := listeners w
            ++ [(TheDocument, str "DOMContentLoaded", Ready cb p)]).
  assert (Hrun : exists w1,
             asap cb w = (Ok p, w1)
             /\ log w1 = log w ++ [AddEventListener TheDocument
                                     (str "DOMContentLoaded")]
             /\ listeners w1 = L /\ settled w1 = settled w
             /\ timers w1 = timers w /\ writes w1 = writes w).
  { destruct w as [n pg l ts ws s lg]. unfold asap. run_page.
    cbn [page] in Hloading. rewrite Hloading. eexists. by repeat split. }
  destruct Hrun as (w1 & Hcall & Hlog & HL1 & Hs1 & Ht1 & Hw1).
  exists w1. split; [done|]. split; [done|].
  assert (Hold : forall k cb' q,
             (k, Ready cb' q) ∈ listeners w ->
             k = (TheDocument, str "DOMContentLoaded") /\ (q < p)%nat).
  { intros k cb' q Hin. rewrite Forall_forall in Hl.
    by apply (Hl (k, Ready cb' q)). }
  assert (HL : forall k cb' q,
             (k, Ready cb' q) ∈ L -> k = (TheDocument, str "DOMContentLoaded")).
  { intros k cb' q [Hin|Hin]%elem_of_app; [by apply Hold in Hin as [? _]|].
    by apply list_elem_of_singleton in Hin as [= -> _ _]. }
  assert (Hp : p ∉ settled w).
  { intros Hin. rewrite Forall_forall in Hs. apply Hs in Hin. subst p. lia. }
  intros steps Hsteps.
  assert (Hw2 : (p ∉ settled (run steps w1))
                /\ listeners (run steps w1) = L
                /\ not_awaited p (run steps w1)).
  { assert (Hstart : (p ∉ settled w1) /\ listeners w1 = L
                     /\ not_awaited p w1).
    { rewrite Hs1. split; [done|]. split; [done|].
      unfold not_awaited. by rewrite Ht1, Hw1. }
    unfold run. revert Hstart Hsteps. generalize w1.
    induction steps as [|s steps IH]; intros w0 Hw0 Hsteps; [done|].
    cbn [fold_left]. apply IH; [|intros m ?; apply (Hsteps m); by right].
    destruct Hw0 as (Hp0 & HL0 & Hfree0).
    split; [|split; [by rewrite step_listeners | by apply step_not_awaited]].
    intros Hin. apply step_settles in Hin; [|done].
    destruct s as [t ty m|t|wr reason|e]; [| | |done].
    - rewrite HL0 in Hin. apply readied_elem in Hin as (k & cb' & Hin).
      apply list_elem_of_filter in Hin as [Hk Hin]. cbn in Hk. subst k.
      apply HL in Hin as [= -> ->]. apply (Hsteps m). left.
    - destruct Hin as (sel & to & Hin). destruct Hfree0 as [Hts _].
      rewrite Forall_forall in Hts. by apply Hts in Hin.
    - destruct Hin as (text & Hin). destruct Hfree0 as [_ Hws].
      rewrite Forall_forall in Hws. by apply Hws in Hin. }
  destruct Hw2 as (Hp2 & HL2 & _).
  split; [by apply bool_decide_eq_false|].
  intros m. unfold dispatch, bind, get. rewrite HL2. unfold L.
  rewrite filter_app, filter_cons_True, filter_nil by done.
  rewrite for_each_app.
  destruct (run_listeners_footprint m
              (filter (fun l : target * list N * listener =>
                         l.1 = (TheDocument, str "DOMContentLoaded"))
                 (listeners w)) (run steps w1))
    as (s' & ext & -> & Hs').
  assert (Hp3 : p ∉ s' ++ settled (run steps w1)).
  { intros [Hin|Hin]%elem_of_app; [|done]. apply Hs' in Hin.
    apply readied_elem in Hin as (k & cb' & Hin).
    apply list_elem_of_filter in Hin as [_ Hin].
    apply Hold in Hin as [_ Hlt]. lia. }
  cbn [for_each snd run_listener]. exists ext.
  destruct cb as [f|]; run_page; rewrite settle_pending by done;
    (eexists; split; [reflexivity|]); cbn [log settled];
    rewrite <- ?app_assoc; (split; [done|]);
    apply bool_decide_eq_true; left.
Qed.

Lemma X19_asap_waits_for_the_event_witness :
  is_settled 0%nat
    (run [PageChanges (Env (str "complete") (fun _ => Ok None)
                         (fun _ => false) None);
          Dispatch TheDocument (str "load") false]
       (asap (Some 7%nat)
          (initial (Env (str "loading") (fun _ => Ok None) (fun _ => false)
                      None))).2) = false.
Proof.
  destruct (X19_asap_waits_for_the_event (Some 7%nat)
              (initial (Env (str "loading") (fun _ => Ok None)
                          (fun _ => false) None)))
    as (w1 & Hrun & _ & Hsteps).
  - repeat split; constructor.
  - reflexivity.
  - rewrite Hrun. cbn [snd]. apply Hsteps.
    intros m [H|[H|H]%elem_of_cons]%elem_of_cons;
      [discriminate H | discriminate H | by apply elem_of_nil in H].
Defined.

(** *** Well-formed worlds *)

Lemma world_ok_parts n pg l ts ws s lg :
  world_ok (World n pg l ts ws s lg)
  <-> Forall (fun p => (p < n)%nat) s
      /\ Forall (fun l => match l.2 with
                          | Ready _ p =>
                              l.1 = (TheDocument, str "DOMContentLoaded")
                              /\ (p < n)%nat
                          | MediaChange _ =>
                              exists mql,
                                l.1 = (AMediaQueryList mql, str "change")
                                /\ (mql < n)%nat
                          | Goal _ _ =>
                              exists el, l.1 = (AnElement el, str "click")
                          end) l
      /\ Forall (fun t => (t.1 < n)%nat
                          /\ match t.2 with
                             | CheckReady _ _ p => (p < n)%nat
                             end) ts
      /\ NoDup ts.*1
      /\ Forall (fun x => (x.1.1 < n)%nat
                          /\ match x.2 with
                             | AfterWrite p => (p < n)%nat
                             end) ws
      /\ NoDup (ws.*1).*1.
Proof. reflexivity. Qed.

Lemma world_ok_grow n n' pg pg' l ts ws s lg lg' :
  (n <= n')%nat ->
  world_ok (World n pg l ts ws s lg) -> world_ok (World n' pg' l ts ws s lg').
Proof.
  intros Hn. rewrite !world_ok_parts.
  intros (Hs & Hl & Hts & Hnd & Hws & Hnd'). repeat split; try done.
  - eapply Forall_impl; [exact Hs|]. cbn. intros. lia.
  - eapply Forall_impl; [exact Hl|]. intros [k [cb p|f|id goal]]; cbn.
    + intros [? ?]. split; [done | lia].
    + intros (mql & ? & ?). exists mql. split; [done | lia].
    + done.
  - eapply Forall_impl; [exact Hts|]. intros [t [sel to p]]; cbn. lia.
  - eapply Forall_impl; [exact Hws|]. intros [[wr text] [p]]; cbn. lia.
Qed.

Lemma world_ok_settle p e w :
  world_ok w -> (p < next_id w)%nat -> world_ok (settle p e w).2.
Proof.
  intros Hok Hp. rewrite settle_world. destruct (is_settled p w); [done|].
  destruct w as [n pg l ts ws s lg]. cbn [snd next_id page listeners timers
    writes settled log] in *.
  rewrite world_ok_parts in *. destruct Hok as (Hs & Hrest).
  split; [by constructor | done].
Qed.

Lemma NoDup_fst_filter {A B} (P : A * B -> Prop) `{!forall x, Decision (P x)}
    (l : list (A * B)) :
  NoDup l.*1 -> NoDup (filter P l).*1.
Proof.
  induction l as [|x l IH]; [done|]. rewrite fmap_cons.
  intros [Hx Hnd]%NoDup_cons. rewrite filter_cons.
  destruct (decide (P x)); [|by apply IH].
  rewrite fmap_cons. apply NoDup_cons. split; [|by apply IH].
  intros (y & Hy & Hin)%list_elem_of_fmap.
  apply list_elem_of_filter in Hin as [_ Hin]. apply Hx.
  apply list_elem_of_fmap. by exists y.
Qed.

Lemma world_ok_step s w : world_ok w -> world_ok (step s w).
Proof.
  intros Hok. destruct s as [t ty m|t|wr reason|e]; cbn [step].
  - destruct (dispatch_footprint t ty m w) as (s' & ext & -> & Hs').
    destruct w as [n pg l ts ws s lg]. cbn [snd next_id page listeners timers
      writes settled log] in *.
    rewrite world_ok_parts in *. destruct Hok as (Hs & Hl & Hrest).
    split; [|done]. apply Forall_app. split; [|done].
    apply Forall_forall. intros q Hq%Hs'.
    apply readied_elem in Hq as (k & cb & Hin).
    apply list_elem_of_filter in Hin as [_ Hin].
    rewrite Forall_forall in Hl. by apply (Hl (k, Ready cb q)).
  - rewrite fire_world.
    destruct (list_find _ (timers w)) as [[i [t' [sel to p]]]|] eqn:Hfind;
      [|done].
    apply list_find_Some in Hfind as (Hi & _ & _).
    apply list_elem_of_lookup_2 in Hi.
    destruct w as [n pg l ts ws s lg]. cbn [next_id page listeners timers
      writes settled log] in *.
    assert (Hp : (p < n)%nat).
    { apply world_ok_parts in Hok as (_ & _ & Hts & _).
      rewrite Forall_forall in Hts. by apply Hts in Hi as [_ ?]. }
    assert (Hok' : world_ok (World n pg l
                     (filter (fun x : nat * task => x.1 ≠ t) ts) ws s lg)).
    { rewrite world_ok_parts in *.
      destruct Hok as (Hs & Hl & Hts & Hnd & Hrest).
      split; [done|]. split; [done|].
      split; [by apply Forall_filter_keeps|].
      split; [by apply NoDup_fst_filter | done]. }
    rewrite checkReady_world. cbn [page next_id listeners timers writes
      settled log].
    destruct (height pg sel) as [h|]; [|done].
    destruct (truthy h); [by apply world_ok_settle|].
    cbn [snd].
    pose proof (world_ok_grow n (S n) pg pg _ _ _ _ lg
                  (lg ++ [SetTimeout n to]) ltac:(lia) Hok') as Hbig.
    rewrite world_ok_parts in *.
    destruct Hbig as (Hs & Hl & Hts & Hnd & Hrest).
    split; [done|]. split; [done|]. split; [|split; [|done]].
    + apply Forall_app. split; [done|]. repeat constructor; cbn; lia.
    + rewrite fmap_app.
      change ([(n, CheckReady sel to p)].*1) with [n].
      apply NoDup_app. split; [done|].
      split; [|apply NoDup_singleton].
      intros x Hx ->%list_elem_of_singleton.
      apply list_elem_of_fmap in Hx as ([x1 x2] & -> & Hx).
      destruct Hok' as (_ & _ & Hts' & _). rewrite Forall_forall in Hts'.
      apply Hts' in Hx as [Hlt _]. cbn in Hlt. lia.
  - rewrite write_ends_world.
    destruct (list_find _ (writes w)) as [[i [[wr' text] [p]]]|] eqn:Hfind;
      [|done].
    apply list_find_Some in Hfind as (Hi & _ & _).
    apply list_elem_of_lookup_2 in Hi.
    destruct w as [n pg l ts ws s lg]. cbn [next_id page listeners timers
      writes settled log] in *.
    assert (Hp : (p < n)%nat).
    { apply world_ok_parts in Hok as (_ & _ & _ & _ & Hws & _).
      rewrite Forall_forall in Hws. by apply Hws in Hi as [_ ?]. }
    assert (Hok' : forall pg',
               world_ok (World n pg' l ts
                 (filter (fun x : nat * list N * continuation => x.1.1 ≠ wr) ws)
                 s lg)).
    { intros pg'. rewrite world_ok_parts in *.
      destruct Hok as (Hs & Hl & Hts & Hnd & Hws & Hnd').
      repeat split; try done; [by apply Forall_filter_keeps|].
      clear -Hnd'. induction ws as [|x ws IH]; [done|].
      rewrite !fmap_cons in Hnd'. apply NoDup_cons in Hnd' as [Hx Hnd'].
      rewrite filter_cons. destruct (decide (x.1.1 ≠ wr)); [|by apply IH].
      rewrite !fmap_cons. apply NoDup_cons. split; [|by apply IH].
      intros Hin. apply Hx.
      apply list_elem_of_fmap in Hin as (y & Hy & Hin).
      apply list_elem_of_fmap in Hin as (z & -> & Hin).
      apply list_elem_of_filter in Hin as [_ Hin].
      apply list_elem_of_fmap. exists z.1. split; [done|].
      apply list_elem_of_fmap. by exists z. }
    cbv zeta. destruct reason; by apply world_ok_settle.
  - destruct w as [n pg l ts ws s lg]. exact Hok.
Qed.

Lemma world_ok_run steps : forall w, world_ok w -> world_ok (run steps w).
Proof.
  induction steps as [|s steps IH]; intros w Hw; [done|].
  cbn [run fold_left]. by apply IH, world_ok_step.
Qed.

(** *** [hostReactAppReady] *)

Lemma hostReactAppReady_world selector timeout w :
  let sel := default (str "#__next > div") selector in
  let delay := default (Num 2 2) timeout in
  let p := next_id w in
  let w0 := World (S p) (page w) (listeners w) (timers w) (writes w)
              (settled w) (log w) in
  hostReactAppReady selector timeout w
  = (Ok p,
     match height (page w) sel with
     | Throw e => (settle p (Reject p e) w0).2
     | Ok h =>
         if truthy h then (settle p (Resolve p) w0).2
         else World (S (S p)) (page w) (listeners w)
                (timers w ++ [(S p, CheckReady sel delay p)]) (writes w)
                (settled w) (log w ++ [SetTimeout (S p) delay])
     end).
Proof.
  destruct w as [n pg l ts ws s lg]. cbv zeta.
  unfold hostReactAppReady. cbv zeta.
  unfold bind at 1. unfold fresh. cbn [next_id page listeners timers writes
    settled log]. unfold bind, catch. rewrite checkReady_world.
  cbn [next_id page listeners timers writes settled log].
  destruct (height pg _) as [h|e]; [destruct (truthy h)|];
    rewrite ?settle_world; done.
Qed.

(** X20: [hostReactAppReady] looks for the host element once before it
    returns.  If the element is there and has a height, the promise is
    resolved at once and no timer is set; if the selector is not valid, the
    promise is rejected with the exception of [querySelector]; otherwise
    one timer is set, with the given delay (200 by default), and the
    promise is pending. *)
Theorem X20_host_first_check (selector : option (list N))
    (timeout : option number) (w : world) :
  world_ok w ->
  let sel := default (str "#__next > div") selector in
  let delay := default (Num 2 2) timeout in
  let p := next_id w in
  exists w1,
    hostReactAppReady selector timeout w = (Ok p, w1)
    /\ match height (page w) sel with
       | Throw e =>
           log w1 = log w ++ [Reject p e] /\ timers w1 = timers w
           /\ is_settled p w1 = true
       | Ok h =>
           if truthy h then
             log w1 = log w ++ [Resolve p] /\ timers w1 = timers w
             /\ is_settled p w1 = true
           else
             log w1 = log w ++ [SetTimeout (S p) delay]
             /\ timers w1 = timers w ++ [(S p, CheckReady sel delay p)]
             /\ is_settled p w1 = false
       end.
Proof.
  intros (Hs & _) sel delay p.
  assert (Hp : p ∉ settled w).
  { intros Hin. rewrite Forall_forall in Hs. apply Hs in Hin. subst p. lia. }
  eexists. split; [apply hostReactAppReady_world|]. cbv zeta. fold sel delay p.
  destruct (height (page w) sel) as [h|e].
  - destruct (truthy h).
    + rewrite settle_pending by done. cbn. split; [done|]. split; [done|].
      apply bool_decide_eq_true. left.
    + cbn. split; [done|]. split; [done|]. by apply bool_decide_eq_false.
  - rewrite settle_pending by done. cbn. split; [done|]. split; [done|].
    apply bool_decide_eq_true. left.
Qed.

Lemma X20_host_first_check_witness :
  exists w1,
    hostReactAppReady None None
      (initial (Env (str "loading") (fun _ => Ok (Some (Num 0 0)))
                  (fun _ => false) None))
    = (Ok 0%nat, w1)
    /\ log w1 = [SetTimeout 1%nat (Num 2 2)]
    /\ timers w1 = [(1%nat, CheckReady (str "#__next > div") (Num 2 2) 0%nat)]
    /\ is_settled 0%nat w1 = false.
Proof.
  destruct (X20_host_first_check None None
              (initial (Env (str "loading") (fun _ => Ok (Some (Num 0 0)))
                          (fun _ => false) None)))
    as (w1 & Hrun & Hrest).
  - repeat split; constructor.
  - exists w1. split; [exact Hrun | exact Hrest].
Defined.

Lemma find_timer t task ts :
  NoDup ts.*1 -> (t, task) ∈ ts ->
  exists i, list_find (fun x : nat * Events.task => x.1 = t) ts
            = Some (i, (t, task)).
Proof.
  intros Hnd Hin.
  destruct (list_find (fun x : nat * Events.task => x.1 = t) ts)
    as [[i [t' task']]|] eqn:Hfind.
  - apply list_find_Some in Hfind as (Hi & Ht & _). cbn in Ht. subst t'.
    apply list_elem_of_lookup_2 in Hi. exists i. do 3 f_equal.
    clear -Hnd Hin Hi. induction ts as [|x ts IH]; [by apply elem_of_nil in Hin|].
    rewrite fmap_cons in Hnd. apply NoDup_cons in Hnd as [Hx Hnd].
    apply elem_of_cons in Hin as [<-|Hin], Hi as [Heq|Hi].
    + by injection Heq.
    + destruct Hx. apply list_elem_of_fmap. by exists (t, task').
    + destruct Hx. subst x. apply list_elem_of_fmap. by exists (t, task).
    + by apply IH.
  - apply list_find_None in Hfind. rewrite Forall_forall in Hfind.
    by destruct (Hfind _ Hin).
Qed.

(** X22: when the timer of [hostReactAppReady] fires, the host element
    is looked for again.  If it is there and has a height, the promise
    resolves and no timer is set; if not, one new timer is set with the same
    delay, and the promise stays pending: the delay is the time between two
    checks. *)
Theorem X22_host_timer_fires (selector : list N) (delay : number)
    (p : promise) (t : nat) (w : world) (h : option number) :
  world_ok w ->
  (t, CheckReady selector delay p) ∈ timers w ->
  p ∉ settled w ->
  height (page w) selector = Ok h ->
  let spent := filter (fun x : nat * task => x.1 ≠ t) (timers w) in
  if truthy h then
    log (step (Fire t) w) = log w ++ [Resolve p]
    /\ timers (step (Fire t) w) = spent
    /\ is_settled p (step (Fire t) w) = true
  else
    log (step (Fire t) w) = log w ++ [SetTimeout (next_id w) delay]
    /\ timers (step (Fire t) w)
       = spent ++ [(next_id w, CheckReady selector delay p)]
    /\ is_settled p (step (Fire t) w) = false.
Proof.
  intros (_ & _ & _ & Hnd & _) Hin Hp Hh spent.
  destruct (find_timer t _ _ Hnd Hin) as [i Hfind].
  cbn [step]. rewrite fire_world, Hfind, checkReady_world.
  cbn [next_id page listeners timers writes settled log]. rewrite Hh.
  destruct (truthy h).
  - rewrite settle_pending by done. cbn. split; [done|]. split; [done|].
    apply bool_decide_eq_true. left.
  - cbn. split; [done|]. split; [done|]. by apply bool_decide_eq_false.
Qed.

Lemma X22_host_timer_fires_witness :
  let w := (hostReactAppReady None (Some (Num 5 1))
              (initial (Env (str "complete") (fun _ => Ok None)
                          (fun _ => false) None))).2 in
  log (step (Fire 1%nat) w) = log w ++ [SetTimeout 2%nat (Num 5 1)]
  /\ timers (step (Fire 1%nat) w)
     = [(2%nat, CheckReady (str "#__next > div") (Num 5 1) 0%nat)]
  /\ is_settled 0%nat (step (Fire 1%nat) w) = false.
Proof.
  apply (X22_host_timer_fires (str "#__next > div") (Num 5 1) 0%nat 1%nat
           (hostReactAppReady None (Some (Num 5 1))
              (initial (Env (str "complete") (fun _ => Ok None)
                          (fun _ => false) None))).2 None).
  - cbn. repeat split; try apply NoDup_singleton;
      repeat constructor; cbn; lia.
  - left.
  - by intros ?%elem_of_nil.
  - reflexivity.
Defined.

Lemma step_log s w : exists ext, log (step s w) = log w ++ ext.
Proof.
  destruct s as [t ty m|t|wr reason|e]; cbn [step].
  - destruct (dispatch_footprint t ty m w) as (s' & ext & -> & _).
    by exists ext.
  - rewrite fire_world.
    destruct (list_find _ (timers w)) as [[i [t' [sel to p]]]|];
      [|exists []; by rewrite app_nil_r].
    rewrite checkReady_world. cbn [page].
    destruct (height (page w) sel) as [h|];
      [|exists []; by rewrite app_nil_r].
    destruct (truthy h); [|by eexists].
    rewrite settle_world. destruct (is_settled p _);
      [exists []; by rewrite app_nil_r | by eexists].
  - rewrite write_ends_world.
    destruct (list_find _ (writes w)) as [[i [[wr' text] [p]]]|];
      [|exists []; by rewrite app_nil_r].
    cbv zeta. destruct reason; rewrite settle_world;
      (destruct (is_settled p _);
       [exists []; by rewrite app_nil_r | by eexists]).
  - exists []. by rewrite app_nil_r.
Qed.

Lemma poll_state_step selector delay p s w :
  world_ok w ->
  (exists h, height (page w) selector = Ok h) ->
  (forall k cb, (k, Ready cb p) ∉ listeners w) ->
  Forall (fun x => match x.2 with AfterWrite q => q ≠ p end) (writes w) ->
  poll_state selector delay p w ->
  poll_state selector delay p (step s w).
Proof.
  intros Hok [h Hh] Hl Hws Hpoll.
  assert (Hothers : forall t' sel' to' q,
             q ≠ p ->
             filter (fun x : nat * task => task_promise x.2 = p)
               (filter (fun x : nat * task => x.1 ≠ t') (timers w)
                ++ [(next_id w, CheckReady sel' to' q)])
             = filter (fun x : nat * task => x.1 ≠ t') (timers_for p w)).
  { intros t' sel' to' q Hq. unfold timers_for.
    rewrite filter_app, filter_cons_False, filter_nil, app_nil_r by done.
    rewrite !list_filter_filter. apply list_filter_iff. tauto. }
  destruct s as [t ty m|t|wr reason|e]; cbn [step].
  - destruct (dispatch_footprint t ty m w) as (s' & ext & -> & Hs').
    cbn [snd]. unfold poll_state, timers_for in *.
    cbn [settled timers log].
    assert (Hp : p ∉ s').
    { intros Hin%Hs'%readied_elem. destruct Hin as (k & cb & Hin).
      apply list_elem_of_filter in Hin as [_ Hin]. by apply Hl in Hin. }
    destruct Hpoll as [(Hdone & Hnone & Hlog)|(Hp0 & t0 & Ht0)].
    + left. split; [apply elem_of_app; by right|]. split; [done|].
      apply elem_of_app. by left.
    + right. split; [|by exists t0].
      by intros [?|?]%elem_of_app.
  - rewrite fire_world.
    destruct (list_find _ (timers w)) as [[i [t' [sel to q]]]|] eqn:Hfind;
      [|done].
    apply list_find_Some in Hfind as (Hi & Ht & _). cbn in Ht. subst t'.
    apply list_elem_of_lookup_2 in Hi.
    rewrite checkReady_world.
    cbn [next_id page listeners timers writes settled log].
    destruct (decide (q = p)) as [->|Hq].
    + destruct Hpoll as [(Hdone & Hnone & Hlog)|(Hp0 & t0 & Ht0)].
      { exfalso. assert (Hin : (t, CheckReady sel to p) ∈ timers_for p w)
          by by apply list_elem_of_filter.
        rewrite Hnone in Hin. by apply elem_of_nil in Hin. }
      assert (Hin : (t, CheckReady sel to p) ∈ timers_for p w)
        by by apply list_elem_of_filter.
      rewrite Ht0 in Hin. apply list_elem_of_singleton in Hin as [= <- -> ->].
      assert (Hspent : filter (fun x : nat * task => task_promise x.2 = p)
                         (filter (fun x : nat * task => x.1 ≠ t) (timers w))
                       = []).
      { rewrite list_filter_filter.
        rewrite (list_filter_iff _
                   (fun x : nat * task => x.1 ≠ t /\ task_promise x.2 = p))
          by tauto.
        rewrite <- list_filter_filter. fold (timers_for p w). rewrite Ht0.
        by rewrite filter_cons_False, filter_nil by (cbn; tauto). }
      rewrite Hh. destruct (truthy h).
      * rewrite settle_pending by done. cbn [snd]. left.
        unfold timers_for. cbn [settled timers log].
        split; [left|]. split; [done|]. apply elem_of_app. right. left.
      * cbn [snd]. right. unfold timers_for. cbn [settled timers].
        split; [done|]. exists (next_id w).
        by rewrite filter_app, Hspent, filter_cons_True, filter_nil.
    + assert (Hkeep : filter (fun x : nat * task => x.1 ≠ t) (timers_for p w)
                      = timers_for p w).
      { destruct Hpoll as [(_ & -> & _)|(_ & t0 & Ht0)]; [done|].
        rewrite Ht0. rewrite filter_cons_True, filter_nil; [done|].
        cbn. intros ->.
        assert (Hin : (t, CheckReady selector delay p) ∈ timers w).
        { assert (H0 : (t, CheckReady selector delay p) ∈ timers_for p w)
            by (rewrite Ht0; left).
          by apply list_elem_of_filter in H0 as [_ ?]. }
        destruct Hok as (_ & _ & _ & Hnd & _).
        destruct (find_timer t _ _ Hnd Hin) as [j Hj].
        destruct (find_timer t _ _ Hnd Hi) as [j' Hj'].
        rewrite Hj in Hj'. by injection Hj' as _ _ _ ->. }
      assert (Hrest : filter (fun x : nat * task => task_promise x.2 = p)
                        (filter (fun x : nat * task => x.1 ≠ t) (timers w))
                      = timers_for p w).
      { etrans; [|exact Hkeep]. unfold timers_for.
        rewrite !list_filter_filter. apply list_filter_iff. tauto. }
      destruct (height (page w) sel) as [h'|]; [|].
      * destruct (truthy h').
        -- rewrite settle_world. unfold poll_state, timers_for in *.
           destruct (is_settled q _); cbn [snd settled timers log];
             rewrite Hrest.
           ++ done.
           ++ destruct Hpoll as [(Hdone & Hnone & Hlog)|(Hp0 & t0 & Ht0)].
              ** left. split; [by right|]. split; [done|].
                 apply elem_of_app. by left.
              ** right. split; [|by exists t0].
                 by intros [?|?]%elem_of_cons.
        -- cbn [snd]. unfold poll_state. unfold timers_for at 1 2.
           cbn [settled log timers].
           rewrite (Hothers t sel to q Hq), Hkeep.
           destruct Hpoll as [(Hdone & Hnone & Hlog)|(Hp0 & t0 & Ht0)].
           ++ left. split; [done|]. split; [done|].
              apply elem_of_app. by left.
           ++ right. split; [done|]. by exists t0.
      * cbn [snd]. unfold poll_state, timers_for in *.
        cbn [settled timers log]. by rewrite Hrest.
  - rewrite write_ends_world.
    destruct (list_find _ (writes w)) as [[i [[wr' text] [q]]]|] eqn:Hfind;
      [|done].
    apply list_find_Some in Hfind as (Hi & _ & _).
    apply list_elem_of_lookup_2 in Hi.
    assert (Hq : q ≠ p).
    { rewrite Forall_forall in Hws. by apply Hws in Hi. }
    cbv zeta. unfold poll_state, timers_for in *.
    destruct reason; rewrite settle_world;
      (destruct (is_settled q _); cbn [snd settled timers log]; [done|]);
      (destruct Hpoll as [(Hdone & Hnone & Hlog)|(Hp0 & t0 & Ht0)];
       [left; split; [by right|]; split; [done|]; apply elem_of_app; by left
       |right; split; [|by exists t0]; by intros [?|?]%elem_of_cons]).
  - by destruct w.
Qed.

Lemma step_height s w selector :
  height (page (step s w)) selector
  = match s with
    | PageChanges e => height e selector
    | _ => height (page w) selector
    end.
Proof.
  destruct s as [t ty m|t|wr reason|e]; cbn [step].
  - by destruct (dispatch_footprint t ty m w) as (s' & ext & -> & _).
  - rewrite fire_world.
    destruct (list_find _ (timers w)) as [[i [t' [sel to p]]]|]; [|done].
    rewrite checkReady_world. cbn [page].
    destruct (height (page w) sel) as [h|]; [|done].
    destruct (truthy h); [|done]. rewrite settle_world.
    by destruct (is_settled p _).
  - rewrite write_ends_world.
    destruct (list_find _ (writes w)) as [[i [[wr' text] [p]]]|]; [|done].
    cbv zeta. destruct reason; rewrite settle_world;
      by destruct (is_settled p _).
  - done.
Qed.

Lemma world_ok_hostReactAppReady selector timeout w :
  world_ok w -> world_ok (hostReactAppReady selector timeout w).2.
Proof.
  intros Hok. rewrite hostReactAppReady_world. cbv zeta. cbn [snd].
  destruct w as [n pg l ts ws s lg].
  cbn [next_id page listeners timers writes settled log].
  pose proof (world_ok_grow n (S n) pg pg l ts ws s lg lg ltac:(lia) Hok)
    as Hok1.
  destruct (height pg _) as [h|e].
  - destruct (truthy h); [apply world_ok_settle; [done | cbn; lia]|].
    apply (world_ok_grow (S n) (S (S n)) pg pg _ _ _ _ lg
             (lg ++ [SetTimeout (S n) (default (Num 2 2) timeout)]))
      in Hok1 as Hok2; [|lia].
    rewrite world_ok_parts in *.
    destruct Hok2 as (Hs & Hl & Hts & Hnd & Hrest).
    split; [done|]. split; [done|]. split; [|split; [|done]].
    + apply Forall_app. split; [done|]. repeat constructor; cbn; lia.
    + rewrite fmap_app. apply NoDup_app. split; [done|].
      split; [|apply NoDup_singleton].
      intros x Hx Hx'. apply list_elem_of_singleton in Hx'. cbn in Hx'.
      subst x. apply list_elem_of_fmap in Hx as ([x1 x2] & Heq & Hx).
      destruct Hok as (_ & _ & Hts' & _). rewrite Forall_forall in Hts'.
      apply Hts' in Hx as [Hlt _]. cbn in Hlt, Heq. lia.
  - apply world_ok_settle; [done | cbn; lia].
Qed.

Lemma fresh_timers_for w :
  world_ok w -> timers_for (next_id w) w = [].
Proof.
  intros (_ & _ & Hts & _). unfold timers_for.
  induction Hts as [|[t [sel to q]] ts [_ Hq] _ IH]; [done|].
  rewrite filter_cons_False; [done|]. cbn in *. lia.
Qed.

Lemma fresh_not_readied w k cb :
  world_ok w -> (k, Ready cb (next_id w)) ∉ listeners w.
Proof.
  intros (_ & Hl & _) Hin. rewrite Forall_forall in Hl.
  apply Hl in Hin as [_ Hlt]. lia.
Qed.

Lemma poll_state_run selector delay p steps : forall w,
  stays_valid selector steps ->
  world_ok w ->
  (exists h, height (page w) selector = Ok h) ->
  (forall k cb, (k, Ready cb p) ∉ listeners w) ->
  Forall (fun x => match x.2 with AfterWrite q => q ≠ p end) (writes w) ->
  poll_state selector delay p w ->
  poll_state selector delay p (run steps w).
Proof.
  induction steps as [|s steps IH]; intros w Hvalid Hok Hh Hl Hws Hstart;
    [done|].
  apply Forall_cons in Hvalid as [Hs Hvalid]. cbn [run fold_left].
  apply (IH (step s w) Hvalid).
  - by apply world_ok_step.
  - rewrite step_height. destruct s; by eauto.
  - intros k cb. rewrite step_listeners. apply Hl.
  - by apply step_writes.
  - by apply poll_state_step.
Qed.

Lemma run_listeners_reject m (ls : list (target * list N * listener)) q e :
  forall w,
    Reject q e ∈ log (for_each (fun l => run_listener m l.2) ls w).2 ->
    Reject q e ∈ log w.
Proof.
  induction ls as [|[k l] ls IH]; intros w; [done|].
  cbn [for_each snd]. unfold bind.
  assert (Hone : exists ext,
             run_listener m l w
             = (Ok tt, World (next_id w) (page w) (listeners w) (timers w)
                         (writes w)
                         (settled (run_listener m l w).2) (log w ++ ext))
             /\ Reject q e ∉ ext).
  { destruct l as [cb p|f|id goal]; cbn [run_listener].
    - unfold bind.
      destruct cb as [f|]; cbn [call_if_given]; unfold emit, ret;
        rewrite settle_world; unfold is_settled;
        cbn [settled next_id page listeners timers writes log];
        case_bool_decide; cbn [snd settled].
      + exists [Call f []]. split; [done|].
        by intros [?|[]%elem_of_nil]%elem_of_cons.
      + exists [Call f []; Resolve p]. rewrite <- app_assoc. split; [done|].
        intros [?|[?|[]%elem_of_nil]%elem_of_cons]%elem_of_cons; done.
      + exists []. rewrite app_nil_r. split; [by destruct w|].
        by intros ?%elem_of_nil.
      + exists [Resolve p]. split; [done|].
        by intros [?|[]%elem_of_nil]%elem_of_cons.
    - exists [Call f [ArgBool m]]. split; [done|].
      by intros [?|[]%elem_of_nil]%elem_of_cons.
    - exists [Ym id (str "reachGoal") goal]. split; [done|].
      by intros [?|[]%elem_of_nil]%elem_of_cons. }
  destruct Hone as (ext & -> & Hext). intros Hin%IH. cbn [log] in Hin.
  by apply elem_of_app in Hin as [?|?].
Qed.

(** A step rejects a promise only when a clipboard write that is for it
    fails. *)
Lemma step_rejects q e s w :
  Reject q e ∈ log (step s w) ->
  Reject q e ∈ log w \/ exists wr text, (wr, text, AfterWrite q) ∈ writes w.
Proof.
  destruct s as [t ty m|t|wr reason|pg]; cbn [step].
  - intros Hin. left. unfold dispatch, bind, get in Hin.
    by apply run_listeners_reject in Hin.
  - rewrite fire_world.
    destruct (list_find _ (timers w)) as [[i [t' [sel to p]]]|]; [|by left].
    rewrite checkReady_world. cbn [page].
    destruct (height (page w) sel) as [h|]; [|by left].
    destruct (truthy h).
    + rewrite settle_world. destruct (is_settled p _); [by left|].
      cbn [snd log].
      intros [?|[?|[]%elem_of_nil]%elem_of_cons]%elem_of_app; [by left|done].
    + cbn [snd log].
      intros [?|[?|[]%elem_of_nil]%elem_of_cons]%elem_of_app; [by left|done].
  - rewrite write_ends_world.
    destruct (list_find _ (writes w)) as [[i [[wr' text] [p]]]|] eqn:Hfind;
      [|by left].
    apply list_find_Some in Hfind as (Hi & _ & _).
    apply list_elem_of_lookup_2 in Hi. cbv zeta.
    destruct reason; rewrite settle_world;
      (destruct (is_settled p _); [by left|]); cbn [snd log];
      (intros [?|[Heq|[]%elem_of_nil]%elem_of_cons]%elem_of_app;
       [by left|]); [|done].
    injection Heq as -> _. right. by exists wr', text.
  - by left.
Qed.

Lemma never_rejected_run p steps : forall w (old : list effect),
  Forall (fun x => match x.2 with AfterWrite q => q ≠ p end) (writes w) ->
  (forall e, Reject p e ∈ log w -> Reject p e ∈ old) ->
  forall e, Reject p e ∈ log (run steps w) -> Reject p e ∈ old.
Proof.
  induction steps as [|s steps IH]; intros w old Hws Hold e; [apply Hold|].
  cbn [run fold_left]. apply (IH (step s w)); [by apply step_writes|].
  intros e' [Hin|(wr & text & Hin)]%step_rejects; [by apply Hold|].
  rewrite Forall_forall in Hws. by apply Hws in Hin.
Qed.

(** X21: [hostReactAppReady] polls for as long as it takes.  With a
    selector that [querySelector] accepts, whatever the browser does after
    the call, the returned promise is either resolved, with no timer left
    for it, or pending with exactly one timer set for it, with the given
    delay; and it is never rejected.  So the polling never stops before the
    promise resolves. *)
Theorem X21_host_polls_until_ready (selector : option (list N))
    (timeout : option number) (w : world) (h : option number)
    (steps : list browser_step) :
  world_ok w ->
  let sel := default (str "#__next > div") selector in
  let delay := default (Num 2 2) timeout in
  let p := next_id w in
  height (page w) sel = Ok h ->
  stays_valid sel steps ->
  let w2 := run steps (hostReactAppReady selector timeout w).2 in
  ((is_settled p w2 = true /\ timers_for p w2 = [] /\ (Resolve p ∈ log w2))
   \/ (is_settled p w2 = false
       /\ exists t, timers_for p w2 = [(t, CheckReady sel delay p)]))
  /\ forall e, Reject p e ∈ log w2 -> Reject p e ∈ log w.
Proof.
  intros Hok sel delay p Hh Hvalid w2.
  pose proof (world_ok_hostReactAppReady selector timeout w Hok) as Hok1.
  pose proof (fresh_timers_for w Hok) as Hnone.
  change (timers_for p w = []) in Hnone.
  pose proof (fresh_not_awaited w Hok) as [_ Hws].
  change (Forall (fun x : nat * list N * continuation =>
                    match x.2 with AfterWrite q => q ≠ p end) (writes w))
    in Hws.
  assert (Hl : forall k cb, (k, Ready cb p) ∉ listeners w)
    by (intros; by apply fresh_not_readied).
  assert (Hp : p ∉ settled w).
  { destruct Hok as (Hs & _). intros Hin. rewrite Forall_forall in Hs.
    apply Hs in Hin. subst p. lia. }
  subst w2. rewrite hostReactAppReady_world in *. cbv zeta in *.
  cbn [snd] in *. fold sel delay p in Hok1 |- *. rewrite Hh in *.
  set (w1 := if truthy h then _ else _) in *.
  assert (Hstart : poll_state sel delay p w1
                   /\ listeners w1 = listeners w /\ writes w1 = writes w
                   /\ height (page w1) sel = Ok h
                   /\ forall e, Reject p e ∈ log w1 -> Reject p e ∈ log w).
  { subst w1. unfold poll_state, timers_for in *. destruct (truthy h).
    - rewrite settle_pending by done. cbn.
      split; [|split; [done|]; split; [done|]; split; [done|]].
      + left. split; [left|]. split; [done|]. apply elem_of_app. right. left.
      + intros e [?|[?|[]%elem_of_nil]%elem_of_cons]%elem_of_app; done.
    - cbn. split; [|split; [done|]; split; [done|]; split; [done|]].
      + right. split; [done|]. exists (S p).
        by rewrite filter_app, Hnone, filter_cons_True.
      + intros e [?|[?|[]%elem_of_nil]%elem_of_cons]%elem_of_app; done. }
  clearbody w1. destruct Hstart as (Hstart & Hl1 & Hw1 & Hh1 & Hrej).
  rewrite <- Hl1 in Hl. rewrite <- Hw1 in Hws. split.
  - assert (Hpoll : poll_state sel delay p (run steps w1))
      by (apply poll_state_run; by eauto).
    destruct Hpoll as [(Hdone & Hnone' & Hlog)|(Hp' & t & Ht)].
    + left. split; [by apply bool_decide_eq_true | done].
    + right. split; [by apply bool_decide_eq_false | by exists t].
  - by apply never_rejected_run.
Qed.

Lemma X21_host_polls_until_ready_witness :
  let w2 :=
    run [Fire 1%nat;
         PageChanges (Env (str "complete")
                        (fun _ => Ok (Some (Num 48 0))) (fun _ => false) None);
         Dispatch TheDocument (str "load") false]
      (hostReactAppReady None None
         (initial (Env (str "loading") (fun _ => Ok None) (fun _ => false)
                     None))).2 in
  (is_settled 0%nat w2 = true /\ timers_for 0%nat w2 = []
   /\ (Resolve 0%nat ∈ log w2))
  \/ (is_settled 0%nat w2 = false
      /\ exists t, timers_for 0%nat w2
                   = [(t, CheckReady (str "#__next > div") (Num 2 2) 0%nat)]).
Proof.
  refine (proj1 (X21_host_polls_until_ready None None
                   (initial (Env (str "loading") (fun _ => Ok None)
                               (fun _ => false) None)) None
                   [Fire 1%nat;
                    PageChanges (Env (str "complete")
                                   (fun _ => Ok (Some (Num 48 0)))
                                   (fun _ => false) None);
                    Dispatch TheDocument (str "load") false] _ _ _)).
  - repeat split; constructor.
  - reflexivity.
  - repeat constructor. by exists (Some (Num 48 0)).
Defined.

(** *** [mediaMatcher] and [setYMTarget] *)

Lemma run_steps_listeners steps : forall w,
  listeners (run steps w) = listeners w.
Proof.
  induction steps as [|s steps IH]; intros w; [done|].
  cbn [run fold_left]. etrans; [apply IH | apply step_listeners].
Qed.

Lemma dispatch_log t ty m w :
  log (step (Dispatch t ty m) w)
  = log (for_each (fun l => run_listener m l.2)
           (filter (fun l => l.1 = (t, ty)) (listeners w)) w).2.
Proof. reflexivity. Qed.

(** X23: [mediaMatcher] asks for the media query [(max-width: <size>px)],
    calls the callback once with its current state before it returns, and
    from then on calls it once for every [change] event of that query, with
    the state that the event carries. *)
Theorem X23_media_matcher_reports (size : number) (callback : callback)
    (w : world) :
  world_ok w ->
  let mql := next_id w in
  let query := str "(max-width: " ++ number_to_string size ++ str "px)" in
  exists w1,
    mediaMatcher size callback w = (Ok tt, w1)
    /\ log w1 = log w ++ [MatchMedia mql query;
                          Call callback [ArgBool (matches (page w) query)];
                          AddEventListener (AMediaQueryList mql) (str "change")]
    /\ forall steps m,
        log (step (Dispatch (AMediaQueryList mql) (str "change") m)
               (run steps w1))
        = log (run steps w1) ++ [Call callback [ArgBool m]].
Proof.
  intros (_ & Hl & _) mql query.
  assert (Hrun : exists w1,
             mediaMatcher size callback w = (Ok tt, w1)
             /\ log w1 = log w ++ [MatchMedia mql query;
                                   Call callback
                                     [ArgBool (matches (page w) query)];
                                   AddEventListener (AMediaQueryList mql)
                                     (str "change")]
             /\ listeners w1
                = listeners w ++ [(AMediaQueryList mql, str "change",
                                   MediaChange callback)]).
  { destruct w as [n pg l ts ws s lg]. unfold mediaMatcher. run_page.
    eexists. split; [reflexivity|]. cbn [log listeners].
    by rewrite <- !app_assoc. }
  destruct Hrun as (w1 & Hcall & Hlog & HL).
  exists w1. split; [done|]. split; [done|]. intros steps m.
  rewrite dispatch_log, run_steps_listeners, HL.
  assert (Hold : filter (fun l : target * list N * listener =>
                           l.1 = (AMediaQueryList mql, str "change"))
                   (listeners w) = []).
  { clear -Hl. induction Hl as [|[k l] ls Hx _ IH]; [done|].
    rewrite filter_cons. case_decide as Hk; [|done]. exfalso.
    cbn in Hk. subst k. destruct l as [cb p|f|id goal]; cbn in Hx.
    - by destruct Hx as [[=] _].
    - destruct Hx as (mql' & [= <-] & Hlt). subst mql. lia.
    - by destruct Hx as (el & [=]). }
  rewrite filter_app, Hold, filter_cons_True, filter_nil by done.
  cbn [app for_each snd run_listener]. by destruct (run steps w1).
Qed.

Lemma X23_media_matcher_reports_witness :
  exists w1,
    mediaMatcher (Num 768 0) 3%nat
      (initial (Env (str "complete") (fun _ => Ok None) (fun _ => true) None))
    = (Ok tt, w1)
    /\ log w1 = [MatchMedia 0%nat (str "(max-width: 768px)");
                 Call 3%nat [ArgBool true];
                 AddEventListener (AMediaQueryList 0%nat) (str "change")]
    /\ log (step (Dispatch (AMediaQueryList 0%nat) (str "change") false) w1)
       = log w1 ++ [Call 3%nat [ArgBool false]].
Proof.
  destruct (X23_media_matcher_reports (Num 768 0) 3%nat
              (initial (Env (str "complete") (fun _ => Ok None)
                          (fun _ => true) None)))
    as (w1 & Hrun & Hlog & Hchange).
  - repeat split; constructor.
  - exists w1. split; [exact Hrun|]. split; [exact Hlog|].
    exact (Hchange [] false).
Defined.

Lemma goals_run m (ls : list (target * list N * listener)) :
  Forall (fun l => match l.2 with Goal _ _ => True | _ => False end) ls ->
  forall w,
    for_each (fun l => run_listener m l.2) ls w
    = (Ok tt, World (next_id w) (page w) (listeners w) (timers w) (writes w)
                (settled w) (log w ++ goals_sent ls)).
Proof.
  induction 1 as [|[k l] ls Hl _ IH]; intros w.
  { destruct w. cbn. unfold ret. by rewrite app_nil_r. }
  destruct l as [| |id goal]; cbn in Hl; try done.
  cbn [for_each snd run_listener]. unfold bind, emit. rewrite IH.
  cbn [next_id page listeners timers writes settled log goals_sent omap snd].
  by rewrite <- app_assoc.
Qed.

(** X24: [setYMTarget] sends nothing when it registers.  From then on
    every click on the element sends the goal once for every registration:
    first the goals registered on the element before, in the order of
    their registration (a goal registered twice is sent twice), then this
    one. *)
Theorem X24_goal_sent_on_every_click (selector : node)
    (targetId target : value) (w : world) :
  world_ok w ->
  exists w1,
    setYMTarget selector targetId target w = (Ok tt, w1)
    /\ log w1 = log w ++ [AddEventListener (AnElement selector) (str "click")]
    /\ forall steps m,
        log (step (Dispatch (AnElement selector) (str "click") m)
               (run steps w1))
        = log (run steps w1)
          ++ goals_sent (filter (fun l => l.1 = (AnElement selector, str "click"))
                           (listeners w))
          ++ [Ym targetId (str "reachGoal") target].
Proof.
  intros (_ & Hl & _).
  assert (Hrun : exists w1,
             setYMTarget selector targetId target w = (Ok tt, w1)
             /\ log w1 = log w ++ [AddEventListener (AnElement selector)
                                     (str "click")]
             /\ listeners w1
                = listeners w ++ [(AnElement selector, str "click",
                                   Goal targetId target)]).
  { destruct w as [n pg l ts ws s lg]. unfold setYMTarget. run_page.
    by eexists. }
  destruct Hrun as (w1 & Hcall & Hlog & HL).
  exists w1. split; [done|]. split; [done|]. intros steps m.
  rewrite dispatch_log, run_steps_listeners, HL.
  rewrite filter_app, filter_cons_True, filter_nil by done.
  rewrite goals_run.
  - cbn [snd log]. unfold goals_sent. by rewrite omap_app.
  - apply Forall_app. split; [|by repeat constructor].
    apply Forall_forall. intros [k l] [Hk Hin]%list_elem_of_filter.
    rewrite Forall_forall in Hl. apply Hl in Hin. cbn in Hk, Hin. subst k.
    destruct l as [cb p|f|id goal]; cbn in *; [|  |done].
    + by destruct Hin as [[=] _].
    + by destruct Hin as (mql & [=] & _).
Qed.

Lemma X24_goal_sent_on_every_click_witness :
  exists w1,
    setYMTarget 4%nat (VNum (Num 1234 0)) (VStr (str "order"))
      (setYMTarget 4%nat (VNum (Num 1234 0)) (VStr (str "order"))
         (initial (Env (str "complete") (fun _ => Ok None) (fun _ => true)
                     None))).2
    = (Ok tt, w1)
    /\ log (step (Dispatch (AnElement 4%nat) (str "click") false) w1)
       = log w1 ++ [Ym (VNum (Num 1234 0)) (str "reachGoal") (VStr (str "order"));
                    Ym (VNum (Num 1234 0)) (str "reachGoal") (VStr (str "order"))].
Proof.
  destruct (X24_goal_sent_on_every_click 4%nat (VNum (Num 1234 0))
              (VStr (str "order"))
              (setYMTarget 4%nat (VNum (Num 1234 0)) (VStr (str "order"))
                 (initial (Env (str "complete") (fun _ => Ok None)
                             (fun _ => true) None))).2)
    as (w1 & Hrun & _ & Hclick).
  - cbn. repeat split; repeat constructor. by exists 4%nat.
  - exists w1. split; [exact Hrun|]. exact (Hclick [] false).
Defined.

(** *** [copyToClipboard] *)

(** X25: without [navigator.clipboard] the promise of [copyToClipboard]
    is rejected at once, with the [Error] whose message is the fixed text;
    nothing is written. *)
Theorem X25_copy_without_clipboard (text : list N) (w : world) :
  world_ok w ->
  clipboard (page w) = None ->
  exists w1,
    copyToClipboard text w = (Ok (next_id w), w1)
    /\ log w1 = log w ++ [Reject (next_id w) (Error clipboard_message)]
    /\ writes w1 = writes w /\ page w1 = page w.
Proof.
  intros (Hs & _) Hnone. destruct w as [n pg l ts ws s lg].
  cbn [next_id page settled log writes] in *.
  assert (Hn : n ∉ s).
  { intros Hin. rewrite Forall_forall in Hs. apply Hs in Hin. lia. }
  unfold copyToClipboard. run_page. rewrite Hnone. run_page.
  rewrite settle_pending by done. by eexists.
Qed.

Lemma X25_copy_without_clipboard_witness :
  exists w1,
    copyToClipboard (str "promo")
      (initial (Env (str "complete") (fun _ => Ok None) (fun _ => true) None))
    = (Ok 0%nat, w1)
    /\ log w1 = [Reject 0%nat (Error clipboard_message)].
Proof.
  destruct (X25_copy_without_clipboard (str "promo")
              (initial (Env (str "complete") (fun _ => Ok None)
                          (fun _ => true) None)))
    as (w1 & Hrun & Hlog & _).
  - repeat split; constructor.
  - reflexivity.
  - exists w1. split; [exact Hrun | exact Hlog].
Defined.

Lemma step_writes_eq s w :
  writes (step s w)
  = match s with
    | WriteEnds wr _ =>
        filter (fun x : nat * list N * continuation => x.1.1 ≠ wr) (writes w)
    | _ => writes w
    end.
Proof.
  destruct s as [t ty m|t|wr reason|e]; cbn [step].
  - by destruct (dispatch_footprint t ty m w) as (s' & ext & -> & _).
  - rewrite fire_world.
    destruct (list_find _ (timers w)) as [[i [t' [sel to p]]]|]; [|done].
    rewrite checkReady_world. cbn [page].
    destruct (height (page w) sel) as [h|]; [|done].
    destruct (truthy h); [|done]. rewrite settle_world.
    by destruct (is_settled p _).
  - rewrite write_ends_world.
    destruct (list_find _ (writes w)) as [[i [[wr' text] [p]]]|] eqn:Hfind.
    + cbv zeta. destruct reason; rewrite settle_world;
        by destruct (is_settled p _).
    + cbn [snd]. apply list_find_None in Hfind. symmetry.
      clear -Hfind. induction Hfind as [|x ws Hx _ IH]; [done|].
      rewrite filter_cons_True; [by f_equal | done].
  - done.
Qed.

Lemma find_first {A} (P : A -> Prop) `{!forall x, Decision (P x)}
    (l : list A) x rest :
  filter P l = x :: rest -> exists i, list_find P l = Some (i, x).
Proof.
  induction l as [|y l IH]; [done|]. rewrite filter_cons. cbn [list_find].
  destruct (decide (P y)) as [Hy|Hy].
  - intros [= -> _]. by exists O.
  - intros (i & ->)%IH. by exists (S i).
Qed.

(** X26: with a clipboard, [copyToClipboard] asks for one write of the
    text and returns a pending promise.  Whatever happens next, the promise
    stays pending until that write ends.  When the write succeeds the
    promise resolves and the text is on the clipboard; when it fails the
    promise is rejected with the [Error] whose message is the fixed text,
    whatever the reason of the failure, and the clipboard is as it was. *)
Theorem X26_copy_follows_the_write (text : list N) (w : world)
    (current : list N) :
  world_ok w ->
  clipboard (page w) = Some current ->
  let p := next_id w in
  let wr := S (next_id w) in
  exists w1,
    copyToClipboard text w = (Ok p, w1)
    /\ log w1 = log w ++ [WriteText wr text]
    /\ page w1 = page w
    /\ forall steps,
        (forall reason, WriteEnds wr reason ∉ steps) ->
        is_settled p (run steps w1) = false
        /\ forall reason,
            let w2 := run steps w1 in
            let w3 := step (WriteEnds wr reason) w2 in
            is_settled p w3 = true
            /\ log w3
               = log w2
                 ++ [match reason with
                     | None => Resolve p
                     | Some _ => Reject p (Error clipboard_message)
                     end]
            /\ clipboard (page w3)
               = match reason with
                 | None => Some text
                 | Some _ => clipboard (page w2)
                 end.
Proof.
  intros Hok Hsome p wr.
  pose proof (fresh_not_awaited w Hok) as [Hts Hws].
  pose proof (fun k cb => fresh_not_readied w k cb Hok) as Hl.
  change (Forall (fun x : nat * task =>
                    match x.2 with CheckReady _ _ q => q ≠ p end) (timers w))
    in Hts.
  change (Forall (fun x : nat * list N * continuation =>
                    match x.2 with AfterWrite q => q ≠ p end) (writes w))
    in Hws.
  change (forall k cb, (k, Ready cb p) ∉ listeners w) in Hl.
  assert (Hp : p ∉ settled w).
  { destruct Hok as (Hs & _). intros Hin. rewrite Forall_forall in Hs.
    apply Hs in Hin. subst p. lia. }
  assert (Hids : filter (fun x : nat * list N * continuation => x.1.1 = wr)
                   (writes w) = []).
  { destruct Hok as (_ & _ & _ & _ & Hwr & _). clear -Hwr.
    induction Hwr as [|x ws [Hx _] _ IH]; [done|].
    rewrite filter_cons_False; [done|]. subst wr. lia. }
  assert (Hrun : exists w1,
             copyToClipboard text w = (Ok p, w1)
             /\ log w1 = log w ++ [WriteText wr text]
             /\ page w1 = page w
             /\ listeners w1 = listeners w /\ timers w1 = timers w
             /\ settled w1 = settled w
             /\ writes w1 = writes w ++ [(wr, text, AfterWrite p)]).
  { destruct w as [n pg l ts ws s lg]. unfold copyToClipboard. run_page.
    cbn [page] in Hsome. rewrite Hsome. run_page. by eexists. }
  destruct Hrun as (w1 & Hcall & Hlog & Hpg & Hl1 & Ht1 & Hs1 & Hw1).
  exists w1. split; [done|]. split; [done|]. split; [done|].
  intros steps Hsteps.
  set (inv := fun w' : world =>
         (p ∉ settled w')
         /\ (forall k cb, (k, Ready cb p) ∉ listeners w')
         /\ Forall (fun x : nat * task =>
                      match x.2 with CheckReady _ _ q => q ≠ p end) (timers w')
         /\ Forall (fun x : nat * list N * continuation =>
                      x.1.1 ≠ wr -> match x.2 with AfterWrite q => q ≠ p end)
              (writes w')
         /\ filter (fun x : nat * list N * continuation => x.1.1 = wr)
              (writes w') = [(wr, text, AfterWrite p)]).
  assert (Hw2 : inv (run steps w1)).
  { assert (Hstart : inv w1).
    { unfold inv. rewrite Hs1, Hl1, Ht1, Hw1. repeat split; try done.
      - apply Forall_app. split; [|by repeat constructor].
        eapply Forall_impl; [exact Hws|]. by intros.
      - by rewrite filter_app, Hids, filter_cons_True. }
    unfold run. revert Hstart Hsteps. generalize w1. clear -inv.
    induction steps as [|s steps IH]; intros w0 Hw0 Hsteps; [done|].
    cbn [fold_left]. apply IH; [|intros r ?; apply (Hsteps r); by right].
    destruct Hw0 as (Hp0 & Hl0 & Ht0 & Hw0 & Hmine).
    assert (Hs : forall r, s ≠ WriteEnds wr r)
      by (intros r ->; apply (Hsteps r); left).
    unfold inv. split; [|split; [|split; [|split]]].
    - intros Hin. apply step_settles in Hin; [|done].
      destruct s as [t ty m|t|wr' reason|e]; [| | |done].
      + apply readied_elem in Hin as (k & cb & Hin).
        apply list_elem_of_filter in Hin as [_ Hin]. by apply Hl0 in Hin.
      + destruct Hin as (sel & to & Hin). rewrite Forall_forall in Ht0.
        by apply Ht0 in Hin.
      + destruct Hin as (text' & Hin). rewrite Forall_forall in Hw0.
        apply Hw0 in Hin; [done|]. cbn. intros ->. by apply (Hs reason).
    - intros k cb. rewrite step_listeners. apply Hl0.
    - by apply (step_timers
                  (fun x => match x with CheckReady _ _ q => q ≠ p end)).
    - by apply step_writes.
    - rewrite step_writes_eq. destruct s as [t ty m|t|wr' reason|e]; try done.
      rewrite list_filter_filter.
      rewrite (list_filter_iff _
                 (fun x : nat * list N * continuation => x.1.1 = wr)); [done|].
      intros x. split; [tauto|]. intros ->. split; [done|].
      intros <-. by apply (Hs reason). }
  destruct Hw2 as (Hp2 & _ & _ & _ & Hmine).
  split; [by apply bool_decide_eq_false|].
  intros reason. cbv zeta. cbn [step]. rewrite write_ends_world.
  destruct (find_first _ _ _ _ Hmine) as [i ->]. cbv zeta.
  destruct reason as [e|]; rewrite settle_pending by done;
    cbn [snd settled log page clipboard];
    (split; [apply bool_decide_eq_true; left | done]).
Qed.

Lemma X26_copy_follows_the_write_witness :
  let w1 := (copyToClipboard (str "promo")
               (initial (Env (str "complete") (fun _ => Ok None)
                           (fun _ => true) (Some [])))).2 in
  let w2 := run [Dispatch TheDocument (str "click") false] w1 in
  is_settled 0%nat w2 = false
  /\ log (step (WriteEnds 1%nat (Some TypeError)) w2)
     = log w2 ++ [Reject 0%nat (Error clipboard_message)]
  /\ clipboard (page (step (WriteEnds 1%nat None) w2)) = Some (str "promo").
Proof.
  destruct (X26_copy_follows_the_write (str "promo")
              (initial (Env (str "complete") (fun _ => Ok None)
                          (fun _ => true) (Some []))) [])
    as (w1 & Hrun & _ & _ & Hsteps).
  - repeat split; constructor.
  - reflexivity.
  - cbv zeta. rewrite Hrun. cbn [snd].
    destruct (Hsteps [Dispatch TheDocument (str "click") false])
      as [Hpending Hends].
    { intros r [H|H]%elem_of_cons; [discriminate H | by apply elem_of_nil in H]. }
    split; [exact Hpending|]. split.
    + exact (proj1 (proj2 (Hends (Some TypeError)))).
    + exact (proj2 (proj2 (Hends None))).
Defined.

(** *** Every world that can arise is well-formed *)

Lemma world_ok_settled p e w :
  world_ok w -> (p < next_id w)%nat ->
  world_ok (if is_settled p w then w
            else World (next_id w) (page w) (listeners w) (timers w)
                   (writes w) (p :: settled w) (log w ++ [e])).
Proof.
  intros Hok Hp. pose proof (world_ok_settle p e w Hok Hp) as H.
  by rewrite settle_world in H.
Qed.

Lemma page_world_ok_perform c w : world_ok w -> world_ok (perform c w).
Proof.
  intros Hok. destruct c as [cb|selector timeout|size f|el id goal|text|s];
    cbn [perform].
  - destruct w as [n pg l ts ws s lg]. unfold asap. run_page.
    pose proof (world_ok_grow n (S n) pg pg l ts ws s lg lg ltac:(lia) Hok)
      as Hok1.
    destruct (is_ready (readyState pg)).
    + destruct cb as [f|]; run_page; rewrite settle_world; run_page;
        apply world_ok_settled;
        solve [cbn; lia | by eapply world_ok_grow; [|exact Hok]; lia].
    + cbn [snd]. rewrite world_ok_parts in *.
      destruct Hok1 as (Hs & Hl & Hrest). split; [done|]. split; [|done].
      apply Forall_app. split; [done|]. apply Forall_singleton. cbn.
      split; [done | lia].
  - by apply world_ok_hostReactAppReady.
  - destruct w as [n pg l ts ws s lg]. unfold mediaMatcher. run_page.
    cbn [snd].
    pose proof (world_ok_grow n (S n) pg pg l ts ws s lg lg ltac:(lia) Hok)
      as Hok1.
    rewrite world_ok_parts in *.
    destruct Hok1 as (Hs & Hl & Hrest). split; [done|]. split; [|done].
    apply Forall_app. split; [done|]. apply Forall_singleton. cbn.
    exists n. split; [done | lia].
  - destruct w as [n pg l ts ws s lg]. unfold setYMTarget. run_page.
    cbn [snd]. rewrite world_ok_parts in *.
    destruct Hok as (Hs & Hl & Hrest). split; [done|]. split; [|done].
    apply Forall_app. split; [done|]. apply Forall_singleton. cbn.
    by exists el.
  - destruct w as [n pg l ts ws s lg]. unfold copyToClipboard. run_page.
    pose proof (world_ok_grow n (S n) pg pg l ts ws s lg lg ltac:(lia) Hok)
      as Hok1.
    destruct (clipboard pg); run_page.
    + cbn [snd].
      pose proof (world_ok_grow n (S (S n)) pg pg l ts ws s lg
                    (lg ++ [WriteText (S n) text]) ltac:(lia) Hok) as Hok2.
      rewrite world_ok_parts in *.
      destruct Hok2 as (Hs & Hl & Hts & Hnd & Hws & Hnd').
      repeat split; try done.
      * apply Forall_app. split; [done|]. apply Forall_singleton. cbn. lia.
      * rewrite !fmap_app. apply NoDup_app. split; [done|].
        split; [|apply NoDup_singleton].
        intros x Hx Hx'. apply list_elem_of_singleton in Hx'. cbn in Hx'.
        subst x. apply list_elem_of_fmap in Hx as (y & Hy & Hx).
        apply list_elem_of_fmap in Hx as (z & -> & Hx).
        destruct Hok as (_ & _ & _ & _ & Hws' & _).
        rewrite Forall_forall in Hws'. apply Hws' in Hx as [Hlt _].
        cbn in Hlt. lia.
    + rewrite settle_world. run_page.
      apply world_ok_settled; [done | cbn; lia].
  - by apply world_ok_step.
Qed.

(** The worlds that arise from a page on which nothing is registered yet
    satisfy [world_ok]. *)
Lemma page_world_ok_reachable (e : env) (calls : list call) :
  world_ok (fold_left (fun w c => perform c w) calls (initial e)).
Proof.
  assert (H : forall w, world_ok w ->
                world_ok (fold_left (fun w c => perform c w) calls w)).
  { induction calls as [|c calls IH]; intros w Hw; [done|].
    cbn [fold_left]. by apply IH, page_world_ok_perform. }
  apply H. repeat split; constructor.
Qed.
End RestOfThePage.

(** ** Values that need no decoding *)

Lemma unescape_literal s :
  ch "%" ∉ s -> unescape s = Some (Lit <$> s).
Proof.
  induction s as [|c s IH]; [done|]. intros Hno. cbn [unescape].
  assert (Hc : c ≠ ch "%") by (intros ->; apply Hno; left).
  apply N.eqb_neq in Hc. rewrite Hc. rewrite IH; [done|].
  intros ?. apply Hno. by right.
Qed.

Lemma utf8_decode_literal s : utf8_decode (Lit <$> s) = Some s.
Proof.
  induction s as [|c s IH]; [done|]. rewrite fmap_cons. cbn [utf8_decode].
  by rewrite IH.
Qed.

Lemma decode_literal s : ch "%" ∉ s -> decode s = Some s.
Proof.
  intros Hno. unfold decode. rewrite unescape_literal by done.
  apply utf8_decode_literal.
Qed.

(** X27: a value text without [%] that is not a JSON text is taken as it is
    written: nothing is unescaped, and in particular a [+] stays a [+] (it
    does not become a space).  The key, when it is not [__proto__], becomes
    an own property that holds the text as a string. *)
Theorem X27_literal_values (params : object) (k v : list N) :
  ch "=" ∉ k -> ch "=" ∉ v -> ch "%" ∉ v ->
  parse_json v = None -> k ≠ proto_key ->
  set_pair params (k ++ ch "=" :: v)
  = Ok (Object (<[k := VStr v]> (properties params)) (prototype params)).
Proof.
  intros Hk Hv Hpct Hjson Hkey. rewrite set_pair_nonempty by by destruct k.
  rewrite pair_key_eq, pair_text_eq by done.
  unfold decode_value, decodeURIComponent, JSON_parse.
  rewrite decode_literal by done. cbn [or_throw mbind result_bind].
  rewrite Hjson. cbn [or_throw fmap result_fmap mbind result_bind].
  by rewrite set_property_stores.
Qed.

Lemma X27_literal_values_witness :
  queryParam None (str "?q=sea+view&n=+1")
  = Ok (AllParams
          (Object (<[str "n" := VStr (str "+1")]>
                     (<[str "q" := VStr (str "sea+view")]> ∅))
             ObjectPrototype)).
Proof.
  unfold queryParam, parse_query.
  change (split_on (ch "&") (query_string (str "?q=sea+view&n=+1")))
    with [str "q" ++ ch "=" :: str "sea+view"; str "n" ++ ch "=" :: str "+1"].
  cbn [for_each_pair].
  rewrite (X27_literal_values empty_object (str "q") (str "sea+view"))
    by compute_done.
  cbn [mbind result_bind].
  rewrite (X27_literal_values _ (str "n") (str "+1"))
    by compute_done.
  reflexivity.
Defined.

(** ** The head of the document around [preloadScript] *)

(** X28: [preloadScript] puts its script element last in the head and
    leaves the other children as they are; the [load] event of the script
    element, whenever it comes, takes that element out of the head and
    touches no other child.  So a script that loads at once leaves the head
    as [preloadScript] found it. *)
Theorem X28_preload_leaves_the_head
    (doc : document) (url : list N) (cb : option callback) (w : world) :
  world_ok w ->
  let scriptEl := S (next_id w) in
  scriptEl ∉ head w ->
  let w1 := (preloadScript url cb w).2 in
  head w1 = head w ++ [scriptEl]
  /\ (forall steps,
        Dispatch scriptEl (str "load") ∉ steps ->
        head (step doc (Dispatch scriptEl (str "load")) (run doc steps w1))
        = filter (fun n => n ≠ scriptEl) (head (run doc steps w1)))
  /\ head (step doc (Dispatch scriptEl (str "load")) w1) = head w.
Proof.
  intros (Hs & Hl & Hr & Ho) scriptEl Hnew w1.
  set (p := next_id w).
  assert (Hsame : filter (fun n : node => n ≠ scriptEl) (head w) = head w).
  { clear -Hnew. induction (head w) as [|x h IH]; [done|].
    rewrite filter_cons_True.
    - f_equal. apply IH. intros ?. apply Hnew. by right.
    - intros ->. apply Hnew. left. }
  assert (Hw1 : w1 = World (S (S p)) (head w ++ [scriptEl])
                       (listeners w
                        ++ [(scriptEl, str "load", ScriptLoaded scriptEl cb p)])
                       (settled w) (reactions w) (observers w) (players w)
                       (log w ++ [CreateElement (str "script") scriptEl;
                                  SetSrc scriptEl url;
                                  AddEventListener scriptEl (str "load");
                                  HeadAppend scriptEl])).
  { subst w1. rewrite preloadScript_world. cbn [snd].
    unfold scriptEl in Hsame. by rewrite Hsame. }
  set (L := listeners w
            ++ [(scriptEl, str "load", ScriptLoaded scriptEl cb p)]).
  assert (Hload : forall w2,
             all_pending L (reactions w) [p] w2 ->
             head (step doc (Dispatch scriptEl (str "load")) w2)
             = filter (fun n => n ≠ scriptEl) (head w2)).
  { intros [n2 h2 l2 s2 r2 o2 pl2 lg2] (HL2 & HR2 & Hp2).
    apply Forall_cons in Hp2 as [Hp2 _].
    cbn [listeners settled reactions] in *. cbn [step].
    unfold dispatch. run_world. rewrite HL2. unfold L.
    rewrite filter_app, (old_listeners_elsewhere _ (next_id w))
      by (done || unfold scriptEl; lia).
    cbn [app]. rewrite filter_cons. cbn [fst snd].
    rewrite decide_True by done. rewrite filter_nil.
    cbn [for_each snd run_listener]. unfold resolve, settle.
    destruct cb as [f|]; run_world; rewrite is_settled_false by done;
      run_world; rewrite !is_settled_false by done; run_world;
      rewrite HR2, (old_reactions_elsewhere _ (next_id w)) by (done || lia);
      reflexivity. }
  split; [by rewrite Hw1|]. split.
  - intros steps Hsteps. apply Hload.
    assert (HR : Forall (fun r : promise * continuation =>
                           r.1 ∉ [p] ->
                           match r.2 with VimeoObserve _ _ q => q ∉ [p] end)
                        (reactions w)).
    { eapply Forall_impl; [exact Hr|]. intros [q [? ? q']]; cbn.
      intros [_ Hq'] _ ->%list_elem_of_singleton. subst p. lia. }
    assert (HL : forall target type,
               (target, type) ≠ (scriptEl, str "load") ->
               Forall (fun l : node * list N * listener =>
                         l.1 = (target, type) ->
                         match l.2 with ScriptLoaded _ _ q => q ∉ [p] end) L).
    { intros target type Hother. apply Forall_app. split.
      - eapply Forall_impl; [exact Hl|]. intros [[? ?] [? ? q]]; cbn.
        intros (_ & _ & Hlt) _ ->%list_elem_of_singleton. subst p. lia.
      - repeat constructor. cbn. intros Heq. by destruct Hother. }
    assert (Hstart : all_pending L (reactions w) [p] w1).
    { rewrite Hw1. split; [done|]. split; [done|]. cbn [settled].
      repeat constructor. intros Hin. rewrite Forall_forall in Hs.
      apply Hs in Hin. subst p. lia. }
    unfold run. revert Hstart Hsteps. generalize w1.
    induction steps as [|s steps IH]; intros w0 Hw0 Hsteps; [done|].
    cbn [fold_left]. apply IH.
    + apply guards_step; [done| |done].
      intros target type ->. apply HL. intros [= -> ->].
      apply Hsteps. left.
    + intros ?. apply Hsteps. by right.
  - rewrite Hload.
    + rewrite Hw1. cbn [head]. rewrite filter_app, Hsame.
      rewrite filter_cons_False, filter_nil by (intros H; by apply H).
      by rewrite app_nil_r.
    + rewrite Hw1. split; [done|]. split; [done|]. cbn [settled].
      repeat constructor. intros Hin. rewrite Forall_forall in Hs.
      apply Hs in Hin. subst p. lia.
Qed.

Lemma X28_preload_leaves_the_head_witness :
  let w := (preloadScript (str "a.js") None initial).2 in
  head (step (Document (fun _ => Ok []) (fun _ => None) (fun _ => None))
          (Dispatch 3%nat (str "load")) (preloadScript (str "b.js") None w).2)
  = head w.
Proof.
  apply (X28_preload_leaves_the_head
           (Document (fun _ => Ok []) (fun _ => None) (fun _ => None))
           (str "b.js") None (preloadScript (str "a.js") None initial).2).
  - cbn. repeat split; repeat constructor.
  - cbn. compute_done.
Defined.

(** ** Joining two queries *)

Lemma split_on_join2 sep s1 : forall s2,
  split_on sep (s1 ++ sep :: s2) = split_on sep s1 ++ split_on sep s2.
Proof.
  induction s1 as [|c s1 IH]; intros s2.
  - cbn [app]. rewrite split_on_cons, N.eqb_refl. done.
  - cbn [app]. rewrite !split_on_cons. destruct (c =? sep); [by rewrite IH|].
    rewrite IH. pose proof (split_on_not_nil sep s1) as Hne.
    by destruct (split_on sep s1).
Qed.

Lemma for_each_pair_app kvs1 kvs2 params :
  for_each_pair params (kvs1 ++ kvs2)
  = (params' ← for_each_pair params kvs1; for_each_pair params' kvs2).
Proof.
  revert params. induction kvs1 as [|kv kvs1 IH]; intros params; [done|].
  cbn [app for_each_pair].
  destruct (set_pair params kv) as [params'|e]; [|done].
  cbn [mbind result_bind]. apply IH.
Qed.

Lemma for_each_pair_onto kvs : forall params,
  Forall (fun kv => pair_key kv ≠ proto_key) kvs ->
  for_each_pair params kvs
  = (fun o => Object (properties o ∪ properties params) (prototype params))
      <$> for_each_pair empty_object kvs.
Proof.
  induction kvs as [|kv kvs IH]; intros params Hkeys.
  - cbn. rewrite (left_id_L ∅ (∪)). by destruct params.
  - apply Forall_cons in Hkeys as [Hkey Hkeys].
    cbn [for_each_pair]. destruct kv as [|c kv].
    + cbn [set_pair mbind result_bind]. by apply IH.
    + cbn [set_pair].
      destruct (decode_value (pair_text (c :: kv))) as [v|e]; [|done].
      cbn [mbind result_bind]. rewrite !set_property_stores by done.
      rewrite (IH (Object (<[_ := v]> (properties params)) _)) by done.
      rewrite (IH (Object (<[_ := v]> (properties empty_object)) _)) by done.
      destruct (for_each_pair empty_object kvs) as [m|e]; [|done].
      cbn. f_equal. f_equal.
      by rewrite !insert_union_singleton_l, (right_id_L ∅ (∪)),
        (assoc_L (∪)).
Qed.

(** X29: joining two queries with [&] reads the second one on top of the
    first.  When no pair of the second query has the key [__proto__], the
    own properties of the object read from the joined query are those read
    from the second query, completed by those read from the first one for
    the keys that the second one does not have, and its prototype is the
    one the first query leaves; it throws when reading either of the two
    throws. *)
Theorem X29_joined_queries_merge (q1 q2 : list N) :
  ch "?" ∉ q1 -> ch "?" ∉ q2 ->
  Forall (fun kv => pair_key kv ≠ proto_key) (split_on (ch "&") q2) ->
  queryParam None (ch "?" :: q1 ++ ch "&" :: q2)
  = match queryParam None (ch "?" :: q1), queryParam None (ch "?" :: q2) with
    | Ok (AllParams m1), Ok (AllParams m2) =>
        Ok (AllParams (Object (properties m2 ∪ properties m1) (prototype m1)))
    | Throw e, _ => Throw e
    | _, Throw e => Throw e
    | r, _ => r
    end.
Proof.
  intros H1 H2 Hkeys.
  assert (Hq : forall q, ch "?" ∉ q -> query_string (ch "?" :: q) = q).
  { intros q Hno.
    by destruct (query_string_marks [] q [] (not_elem_of_nil _) Hno)
      as [_ ?]. }
  assert (H12 : ch "?" ∉ q1 ++ ch "&" :: q2).
  { intros [?|[?|?]%elem_of_cons]%elem_of_app; done. }
  rewrite !queryParam_parse. unfold parse_query. rewrite !Hq by done.
  rewrite split_on_join2, for_each_pair_app.
  destruct (for_each_pair empty_object (split_on (ch "&") q1)) as [m1|e1];
    [|done].
  cbn [mbind result_bind]. rewrite for_each_pair_onto by done.
  by destruct (for_each_pair empty_object (split_on (ch "&") q2)) as [m2|e2].
Qed.

Lemma X29_joined_queries_merge_witness :
  queryParam None (str "?a=1&b=2&b=3&c=4")
  = Ok (AllParams
          (Object ((<[str "c" := VNum (Num 4 0)]>
                      (<[str "b" := VNum (Num 3 0)]> ∅))
                   ∪ (<[str "b" := VNum (Num 2 0)]>
                        (<[str "a" := VNum (Num 1 0)]> ∅)))
             ObjectPrototype)).
Proof.
  change (str "?a=1&b=2&b=3&c=4")
    with (ch "?" :: str "a=1&b=2" ++ ch "&" :: str "b=3&c=4").
  rewrite (X29_joined_queries_merge (str "a=1&b=2") (str "b=3&c=4"))
    by compute_done.
  reflexivity.
Defined.
